(** * Segment tree with lazy propagation (src/segment-tree.cpp)

    A shallow embedding of the template [SegTree<Node, Op>] and of the
    min/max instantiation that ships with it, together with the proofs of
    the properties stated about them.

    Modelling choices.
    - [int] is modelled by [Z], with 32 bits.  The size [4 * n + 1] of the
      vectors is computed with its wrap-around written out ([wrap]); once it
      fits, the slots and the bounds that [build], [query] and [update]
      compute stay below it.  The min/max updates are given twice: with their
      sums in [Z] ([MinMax.apply], [MinMax.merge]), which is what the code
      computes as long as the sums fit an [int], and with the wrap-around
      written out ([MinMax.apply32], [MinMax.merge32]).  The division
      [(st + end) / 2] truncates towards zero: it is [Z.quot].
    - The three [vector]s are lists addressed by a [Z] index.  An access
      outside a vector or outside the seed is not checked by the code and
      has no defined behaviour; the model stops there with [OutOfBounds],
      and says nothing of what the program does then.  [vector::resize]
      with a negative count (converted to a huge [size_t]) throws
      [std::length_error]: [LengthError].
    - The member functions mutate the tree: they are computations in a
      state monad over [SegTree].  Each computation also returns the list of
      the calls of [build], [query] and [update] it has made and of the
      accesses to [tree], [hasPending] and [pending] it has made, in order (a
      ghost log used to bound the work and the indices).
    - The recursions on [(st, end)] are not structural, and do not terminate
      on [st > end]: they take a fuel, the allowed recursion depth, and give
      [Diverged] when it is used up. *)

From Stdlib Require Import ZArith Lia Ascii.
From stdpp Require Import base tactics option list list_numbers numbers.

Local Open Scope Z_scope.

(** ** The interfaces required of the template parameters *)

(** [Node]: a default constructor, a constructor from the index of a
    single-element interval and its initial value, and [join]. *)
Class Aggregate (Node : Type) : Type := {
  Node_new : Node;
  Node_leaf : Z -> Z -> Node;
  Node_join : Node -> Node -> Node;
}.

(** [Op]: a default constructor, [apply] (which updates the node it is
    given, here: returns the updated node) and [merge]. *)
Class Update (Node Op : Type) : Type := {
  Op_new : Op;
  Op_apply : Op -> Node -> Z -> Z -> Node;
  Op_merge : Op -> Op -> Z -> Z -> Op;
}.

(** ** Vectors addressed by an [int] *)

(** [v[i]], where it is defined: inside the vector. *)
Definition at_ {A} (v : list A) (i : Z) : option A :=
  if decide (0 <= i) then v !! Z.to_nat i else None.

(** [v[i] = x], for [i] inside the vector. *)
Definition put {A} (v : list A) (i : Z) (x : A) : list A :=
  <[Z.to_nat i := x]> v.

(** [v.resize(n)] on an empty vector: [n] default-constructed elements. *)
Definition resize {A} (n : Z) (x : A) : list A := replicate (Z.to_nat n) x.

(** ** What a run logs *)

(** A call of the recursive [build], [query] or [update] at slot [node], or
    an access to slot [node] of one of the three vectors. *)
Inductive event : Type :=
| Call (node : Z)
| Access (node : Z).

Definition slot (e : event) : Z :=
  match e with Call node | Access node => node end.

(** ** [int]

    An [int] has 32 bits; [wrap] is the value that a sum or a product
    leaves in an [int], by wrap-around. *)

Definition INT_MIN : Z := -2147483648.
Definition INT_MAX : Z := 2147483647.

Definition wrap (x : Z) : Z := (x - INT_MIN) mod 4294967296 + INT_MIN.
Global Arguments wrap : simpl never.

(** ** The template *)

Section SegTree.
Context {Node Op : Type} `{!Aggregate Node} `{!Update Node Op}.

Record SegTree : Type := mkSegTree {
  size : Z;
  tree : list Node;
  hasPending : list bool;
  pending : list Op;
}.

Inductive outcome (A : Type) : Type :=
| Done (a : A) (s : SegTree) (log : list event)
| OutOfBounds
| LengthError
| Diverged.
Global Arguments Done {A} a s log.
Global Arguments OutOfBounds {A}.
Global Arguments LengthError {A}.
Global Arguments Diverged {A}.

Definition M (A : Type) : Type := SegTree -> outcome A.

Definition M_ret {A} (a : A) : M A := fun s => Done a s [].

Definition M_bind {A B} (f : A -> M B) (m : M A) : M B := fun s =>
  match m s with
  | Done a s1 l1 =>
      match f a s1 with
      | Done b s2 l2 => Done b s2 (l1 ++ l2)
      | OutOfBounds => OutOfBounds
      | LengthError => LengthError
      | Diverged => Diverged
      end
  | OutOfBounds => OutOfBounds
  | LengthError => LengthError
  | Diverged => Diverged
  end.

Global Instance M_mret : MRet M := @M_ret.
Global Instance M_mbind : MBind M := @M_bind.

(** The result of a run, if it has completed. *)
Definition retval {A} (o : outcome A) : option A :=
  match o with Done a _ _ => Some a | _ => None end.

(** The state and the log of a run that has completed. *)
Definition state_of {A} (o : outcome A) (otherwise : SegTree) : SegTree :=
  match o with Done _ s _ => s | _ => otherwise end.
Definition log_of {A} (o : outcome A) : list event :=
  match o with Done _ _ l => l | _ => [] end.

(** Accesses to the three vectors. *)

Definition read_tree (node : Z) : M Node := fun s =>
  match at_ (tree s) node with
  | Some x => Done x s [Access node]
  | None => OutOfBounds
  end.

Definition write_tree (node : Z) (x : Node) : M unit := fun s =>
  match at_ (tree s) node with
  | Some _ =>
      Done tt (mkSegTree (size s) (put (tree s) node x) (hasPending s) (pending s))
           [Access node]
  | None => OutOfBounds
  end.

Definition read_hasPending (node : Z) : M bool := fun s =>
  match at_ (hasPending s) node with
  | Some b => Done b s [Access node]
  | None => OutOfBounds
  end.

Definition write_hasPending (node : Z) (b : bool) : M unit := fun s =>
  match at_ (hasPending s) node with
  | Some _ =>
      Done tt (mkSegTree (size s) (tree s) (put (hasPending s) node b) (pending s))
           [Access node]
  | None => OutOfBounds
  end.

Definition read_pending (node : Z) : M Op := fun s =>
  match at_ (pending s) node with
  | Some p => Done p s [Access node]
  | None => OutOfBounds
  end.

Definition write_pending (node : Z) (p : Op) : M unit := fun s =>
  match at_ (pending s) node with
  | Some _ =>
      Done tt (mkSegTree (size s) (tree s) (hasPending s) (put (pending s) node p))
           [Access node]
  | None => OutOfBounds
  end.

(** [arr[st]] on the seed array (not one of the tree's vectors). *)
Definition read_arr (arr : list Z) (i : Z) : M Z := fun s =>
  match at_ arr i with
  | Some v => Done v s []
  | None => OutOfBounds
  end.

Definition get_size : M Z := fun s => Done (size s) s [].

Definition diverged {A} : M A := fun _ => Diverged.

(** Entering a recursive call at slot [node]. *)
Definition enter (node : Z) : M unit := fun s => Done tt s [Call node].

(** [SegTree(int n)]: [4 * n + 1] is an [int]. *)
Definition SegTree_new (n : Z) : outcome unit :=
  if decide (wrap (4 * n + 1) < 0) then LengthError
  else Done tt (mkSegTree n (resize (wrap (4 * n + 1)) Node_new)
                            (resize (wrap (4 * n + 1)) false)
                            (resize (wrap (4 * n + 1)) Op_new)) [].

Definition left (node : Z) : Z := 2 * node.
Definition right (node : Z) : Z := 2 * node + 1.
Definition mid (st en : Z) : Z := Z.quot (st + en) 2.

Fixpoint build_rec (fuel : nat) (arr : list Z) (node st en : Z) : M unit :=
  match fuel with
  | O => diverged
  | S fuel =>
      enter node;;
      if decide (st = en) then
        v ← read_arr arr st;
        write_tree node (Node_leaf st v)
      else
        build_rec fuel arr (left node) st (mid st en);;
        build_rec fuel arr (right node) (mid st en + 1) en;;
        l ← read_tree (left node);
        r ← read_tree (right node);
        write_tree node (Node_join l r)
  end.

(** [applyPending] and [update] call each other; [applyPending] is given
    the [update] it calls. *)
Definition applyPending_with (update : Z -> Z -> Z -> Z -> Z -> Op -> M unit)
    (node st en : Z) : M unit :=
  b ← read_hasPending node;
  if b : bool then
    p ← read_pending node;
    update (left node) st (mid st en) st en p;;
    p' ← read_pending node;
    update (right node) (mid st en + 1) en st en p';;
    write_hasPending node false
  else mret tt.

Fixpoint update_rec (fuel : nat) (node st en i j : Z) (op : Op) : M unit :=
  match fuel with
  | O => diverged
  | S fuel =>
      enter node;;
      if decide (j < st \/ i > en) then mret tt
      else if decide (st = en) then
        x ← read_tree node;
        write_tree node (Op_apply op x st en)
      else if decide (st >= i /\ en <= j) then
        x ← read_tree node;
        write_tree node (Op_apply op x st en);;
        b ← read_hasPending node;
        p' ← (if b : bool then
                p ← read_pending node; mret (Op_merge p op st en)
              else mret op);
        write_pending node p';;
        write_hasPending node true
      else
        applyPending_with (update_rec fuel) node st en;;
        (if decide (i <= mid st en)
         then update_rec fuel (left node) st (mid st en) i j op
         else mret tt);;
        (if decide (j > mid st en)
         then update_rec fuel (right node) (mid st en + 1) en i j op
         else mret tt);;
        l ← read_tree (left node);
        r ← read_tree (right node);
        write_tree node (Node_join l r)
  end.

Definition applyPending (fuel : nat) : Z -> Z -> Z -> M unit :=
  applyPending_with (update_rec fuel).

Fixpoint query_rec (fuel : nat) (node st en i j : Z) : M Node :=
  match fuel with
  | O => diverged
  | S fuel =>
      enter node;;
      if decide (j < st \/ i > en) then mret Node_new
      else if decide (st >= i /\ en <= j) then read_tree node
      else
        applyPending fuel node st en;;
        p1 ← query_rec fuel (left node) st (mid st en) i j;
        p2 ← query_rec fuel (right node) (mid st en + 1) en i j;
        mret (Node_join p1 p2)
  end.

(** The public entry points. *)

Definition build (fuel : nat) (arr : list Z) : M unit :=
  n ← get_size; build_rec fuel arr 1 0 (n - 1).

Definition query (fuel : nat) (i j : Z) : M Node :=
  n ← get_size; query_rec fuel 1 0 (n - 1) i j.

Definition update (fuel : nat) (i j : Z) (op : Op) : M unit :=
  n ← get_size; update_rec fuel 1 0 (n - 1) i j op.

(** [SegTree(int n, int* arr)] *)
Definition construct (fuel : nat) (n : Z) (arr : list Z) : outcome unit :=
  match SegTree_new n with
  | Done _ s _ => build fuel arr s
  | e => e
  end.

End SegTree.

Global Arguments SegTree Node Op : clear implicits.
Global Arguments outcome Node Op A : clear implicits.
Global Arguments M Node Op A : clear implicits.

(** ** The min/max instantiation *)

Module MinMax.

Definition INF : Z := 1000000000.

Record Node : Type := mkNode { minVal : Z; maxVal : Z }.

Definition Node_default : Node := mkNode INF (- INF).
Definition Node_single (idx val : Z) : Node := mkNode val val.

Definition join (a o : Node) : Node :=
  mkNode (Z.min (minVal a) (minVal o)) (Z.max (maxVal a) (maxVal o)).

Record Op : Type := mkOp { code : ascii; arg : Z }.

Definition apply (op : Op) (node : Node) (st en : Z) : Node :=
  if Ascii.eqb (code op) "s" then mkNode (arg op) (arg op)
  else if Ascii.eqb (code op) "a" then
    mkNode (minVal node + arg op) (maxVal node + arg op)
  else node.

Definition merge (this op : Op) (st en : Z) : Op :=
  if Ascii.eqb (code op) "s" then op
  else mkOp (code this) (arg this + arg op).

Global Instance Node_aggregate : Aggregate Node :=
  {| Node_new := Node_default; Node_leaf := Node_single; Node_join := join |}.

(** [Op() {}] leaves both fields indeterminate: the instance is given the
    value [nop] they happen to hold. *)
Definition Op_update (nop : Op) : Update Node Op :=
  {| Op_new := nop; Op_apply := apply; Op_merge := merge |}.

(** [apply] and [merge] with the sums as an [int] holds them. *)
Definition apply32 (op : Op) (node : Node) (st en : Z) : Node :=
  if Ascii.eqb (code op) "s" then mkNode (arg op) (arg op)
  else if Ascii.eqb (code op) "a" then
    mkNode (wrap (minVal node + arg op)) (wrap (maxVal node + arg op))
  else node.

Definition merge32 (this op : Op) (st en : Z) : Op :=
  if Ascii.eqb (code op) "s" then op
  else mkOp (code this) (wrap (arg this + arg op)).

Definition Op32_update (nop : Op) : Update Node Op :=
  {| Op_new := nop; Op_apply := apply32; Op_merge := merge32 |}.

End MinMax.

(** ** A client: a sequence of calls on one tree *)

Section Client.
Context {Node Op : Type} `{!Aggregate Node} `{!Update Node Op}.

Inductive command : Type :=
| Query (i j : Z)
| Change (i j : Z) (op : Op).

(** Runs the calls in order and returns the results of the queries. *)
Fixpoint run (fuel : nat) (cmds : list command) : M Node Op (list Node) :=
  match cmds with
  | [] => mret []
  | Query i j :: cmds => r ← query fuel i j; rs ← run fuel cmds; mret (r :: rs)
  | Change i j op :: cmds => update fuel i j op;; run fuel cmds
  end.

End Client.

Global Arguments command Op : clear implicits.

(** * The notions of the specification *)

(** ** Slots, positions and bounds *)

(** [sub node d]: slot [d] belongs to the subtree rooted at slot [node]. *)
Definition sub (node d : Z) : Prop := exists k : nat, d / 2 ^ Z.of_nat k = node.

(** Slot [d] is strictly below slot [node]. *)
Definition below (node d : Z) : Prop := sub (left node) d \/ sub (right node) d.

(** An event at slot [node] or at the slot of one of its two children. *)
Definition around (node : Z) (e : event) : Prop :=
  slot e = node \/ slot e = left node \/ slot e = right node.

(** [descends node st en node' st' en']: the position [(node', st', en')]
    is [(node, st, en)] or is below it in the implicit tree. *)
Inductive descends : Z -> Z -> Z -> Z -> Z -> Z -> Prop :=
| descends_here node st en :
    0 <= st -> st <= en -> descends node st en node st en
| descends_left node st en node' st' en' :
    0 <= st -> st < en ->
    descends (left node) st (mid st en) node' st' en' ->
    descends node st en node' st' en'
| descends_right node st en node' st' en' :
    0 <= st -> st < en ->
    descends (right node) (mid st en + 1) en node' st' en' ->
    descends node st en node' st' en'.

(** The positions of a tree of [n] elements. *)
Definition position (n node st en : Z) : Prop := descends 1 0 (n - 1) node st en.

(** A recursion depth that suffices for a tree of [n] elements. *)
Definition height (n : Z) : nat := S (Z.to_nat (Z.log2_up n)).

(** The longest range that a recursion of depth [fuel] can handle. *)
Definition cap_of (fuel : nat) : Z :=
  match fuel with O => 0 | S f => 2 ^ Z.of_nat f end.

(** The position [(node, st, en)] and all the positions below it have
    their slots among the first [cap]: its range has at most [2 ^ h]
    elements, and the slots down to [h] levels below [node] are there. *)
Definition fits (cap node st en : Z) (h : nat) : Prop :=
  1 <= node /\ 0 <= st <= en /\ en - st + 1 <= 2 ^ Z.of_nat h /\
  (node + 1) * 2 ^ Z.of_nat h <= cap.

(** The calls and the accesses of a log are at slots from [lo] up to the
    capacity. *)
Definition within (lo cap : Z) (l : list event) : Prop :=
  Forall (fun e => lo <= slot e < cap) l.

(** All the events of a log are at slot [node]. *)
Definition here (node : Z) (l : list event) : Prop := Forall (fun e => slot e = node) l.

(** Consecutive intervals, none empty, that cover [[i, j]] exactly. *)
Inductive partition : Z -> Z -> list (Z * Z) -> Prop :=
| partition_one i j : i <= j -> partition i j [(i, j)]
| partition_cons i m j parts :
    i <= m -> partition (m + 1) j parts -> partition i j ((i, m) :: parts).

(** Bounds on the number of calls and accesses at and below a position
    whose range has at most [2 ^ h] elements: a constant when the range is
    outside [[i, j]] or inside it, linear in [h] otherwise, with a smaller
    factor when [[i, j]] reaches one end of the range. *)
Definition query_bound (h st en i j : Z) : Z :=
  if decide (j < st \/ i > en) then 1
  else if decide (i <= st /\ en <= j) then 2
  else if decide (i <= st \/ en <= j) then 21 * h + 2
  else 42 * h + 2.

Definition update_bound (h st en i j : Z) : Z :=
  if decide (j < st \/ i > en) then 1
  else if decide (i <= st /\ en <= j) then 7
  else if decide (i <= st \/ en <= j) then 29 * h + 7
  else 58 * h + 7.

(** ** Runs, states and logs *)

Section Notions.
Context {Node Op : Type} `{!Aggregate Node} `{!Update Node Op}.
Implicit Types s : SegTree Node Op.
Implicit Types v : Z -> Node.

(** [runs m s Q]: from [s], [m] completes, with a result, a final state and
    a log that satisfy [Q]. *)
Definition runs {A} (m : M Node Op A) s (Q : A -> SegTree Node Op -> list event -> Prop) : Prop :=
  match m s with Done a s' l => Q a s' l | _ => False end.

(** [safe m s Q]: if [m] completes from [s], then [Q] holds of what it gives. *)
Definition safe {A} (m : M Node Op A) s (Q : A -> SegTree Node Op -> list event -> Prop) : Prop :=
  match m s with Done a s' l => Q a s' l | _ => True end.

(** The three vectors hold the same thing in slot [d]. *)
Definition same_at (d : Z) s s' : Prop :=
  at_ (tree s') d = at_ (tree s) d /\
  at_ (hasPending s') d = at_ (hasPending s) d /\
  at_ (pending s') d = at_ (pending s) d.

(** From [s] to [s'] only slots in [T] have changed. *)
Definition touches (T : Z -> Prop) s s' : Prop :=
  size s' = size s /\
  length (tree s') = length (tree s) /\
  length (hasPending s') = length (hasPending s) /\
  length (pending s') = length (pending s) /\
  forall d, ~ T d -> same_at d s s'.

(** The three vectors have [cap] slots. *)
Definition capacity (cap : Z) s : Prop :=
  Z.of_nat (length (tree s)) = cap /\
  Z.of_nat (length (hasPending s)) = cap /\
  Z.of_nat (length (pending s)) = cap.

(** [m] completes, leaves the size and the capacity as they are, and
    accesses slots from [lo] up to the capacity only. *)
Definition tidy {A} (cap lo : Z) (m : M Node Op A) s : Prop :=
  runs m s (fun _ s' l => capacity cap s' /\ size s' = size s /\ within lo cap l).

(** [upd] is tidy on every position that fits with [h] levels. *)
Definition update_tidy (upd : Z -> Z -> Z -> Z -> Z -> Op -> M Node Op unit)
    (cap : Z) (h : nat) : Prop :=
  forall node st en i j op s,
    fits cap node st en h -> capacity cap s -> tidy cap node (upd node st en i j op) s.

(** A tree as [SegTree(n)] allocates it, with [n >= 1]: the three vectors
    have [4 * n + 1] slots. *)
Definition allocated s : Prop := 1 <= size s /\ capacity (4 * size s + 1) s.

(** The subtree at [node] is as [build] leaves it: the aggregate of a
    single element is made from its index and its value in the seed, the
    aggregate of a longer range is the [join] of those of its two halves. *)
Inductive Built s (arr : list Z) : Z -> Z -> Z -> Prop :=
| Built_leaf node st x :
    0 <= st -> at_ arr st = Some x ->
    at_ (tree s) node = Some (Node_leaf st x) ->
    Built s arr node st st
| Built_node node st en l r :
    0 <= st -> st < en ->
    Built s arr (left node) st (mid st en) ->
    Built s arr (right node) (mid st en + 1) en ->
    at_ (tree s) (left node) = Some l ->
    at_ (tree s) (right node) = Some r ->
    at_ (tree s) node = Some (Node_join l r) ->
    Built s arr node st en.

(** The aggregate of element [k] as [build] constructs it. *)
Definition seed_value (arr : list Z) (k : Z) : Node :=
  match at_ arr k with Some x => Node_leaf k x | None => Node_new end.

(** What [query] and [update] call and access from a position is in its
    subtree, and is not below any position of the subtree that is inside
    [[i, j]]. *)
Definition stays_above (node st en i j : Z) (l : list event) : Prop :=
  Forall (fun e => sub node (slot e)) l /\
  forall node' st' en', descends node st en node' st' en' -> i <= st' -> en' <= j ->
    Forall (fun e => ~ below node' (slot e)) l.

(** The queries of the intervals of [parts], in order. *)
Definition queries (parts : list (Z * Z)) : list (command Op) :=
  map (fun ab => Query ab.1 ab.2) parts.

(** The results joined from left to right. *)
Definition combine (rs : list Node) : Node :=
  match rs with [] => Node_new | r :: rs => foldl Node_join r rs end.

(** The contract between the template and its parameters.  [okN] and
    [okO] delimit the aggregates and the updates for which the parameters
    keep their promises: [join] is associative with [Node()] as its neutral
    element, [apply] on the aggregate of a range is [apply] on its two
    parts, and [merge] is "this update, then the argument" on every part of
    the range it was merged for. *)
Record Contract (okN : Node -> Prop) (okO : Op -> Prop) : Prop := {
  ok_new : okN Node_new;
  ok_join x y : okN x -> okN y -> okN (Node_join x y);
  join_assoc x y z : okN x -> okN y -> okN z ->
    Node_join (Node_join x y) z = Node_join x (Node_join y z);
  join_new_l x : okN x -> Node_join Node_new x = x;
  join_new_r x : okN x -> Node_join x Node_new = x;
  ok_apply op x a b : okO op -> okN x -> a <= b -> okN (Op_apply op x a b);
  apply_join op x y a m b : okO op -> okN x -> okN y -> a <= m -> m < b ->
    Op_apply op (Node_join x y) a b =
    Node_join (Op_apply op x a m) (Op_apply op y (m + 1) b);
  ok_merge p q a b : okO p -> okO q -> a <= b -> okO (Op_merge p q a b);
  apply_merge p q x st en a b :
    okO p -> okO q -> okN x -> st <= a -> a <= b -> b <= en ->
    Op_apply (Op_merge p q st en) x a b = Op_apply q (Op_apply p x a b) a b;
}.

(** The aggregate of the values [v a, ..., v b], joined left to right. *)
Definition range_agg (v : Z -> Node) (a b : Z) : Node :=
  foldr Node_join Node_new (v <$> seqZ a (b + 1 - a)).

(** The values [v] after [op] on the elements of [[i, j]]. *)
Definition updated (i j : Z) (op : Op) (v : Z -> Node) : Z -> Node :=
  fun k => if decide (i <= k <= j) then Op_apply op (v k) k k else v k.

Section WithContract.
Context {okN : Node -> Prop} {okO : Op -> Prop}.

(** [Rep s node st en v]: the subtree at slot [node], which covers
    [[st, en]], is consistent and stands for the values [v st, ..., v en].
    The aggregate stored in a slot is the aggregate of the values of its
    range, its own pending update included; the pending update of a slot
    has still to be applied to what its children stand for. *)
Inductive Rep s : Z -> Z -> Z -> (Z -> Node) -> Prop :=
| Rep_leaf node st v :
    0 <= st ->
    at_ (tree s) node = Some (v st) ->
    okN (v st) ->
    Rep s node st st v
| Rep_node node st en v vc (b : bool) p :
    0 <= st -> st < en ->
    Rep s (left node) st (mid st en) vc ->
    Rep s (right node) (mid st en + 1) en vc ->
    at_ (hasPending s) node = Some b ->
    at_ (pending s) node = Some p ->
    (if b then okO p /\ forall k, st <= k <= en -> v k = Op_apply p (vc k) k k
     else forall k, st <= k <= en -> v k = vc k) ->
    at_ (tree s) node = Some (range_agg v st en) ->
    Rep s node st en v.

(** The seed has the elements [st] to [en], and the contract covers the
    aggregates made from them. *)
Definition seed_ok (arr : list Z) (st en : Z) : Prop :=
  forall k, st <= k <= en -> exists x, at_ arr k = Some x /\ okN (Node_leaf k x).

(** The tree [s] is consistent and stands for the values [v 0, ..., v (n-1)]. *)
Definition stands_for s v : Prop :=
  1 <= size s /\ Rep s 1 0 (size s - 1) v.

(** [upd] is a correct [update] on the ranges of at most [bound] elements. *)
Definition update_ok (upd : Z -> Z -> Z -> Z -> Z -> Op -> M Node Op unit) (bound : Z) : Prop :=
  forall node st en i j op s v,
    1 <= node -> en - st + 1 <= bound -> okO op -> Rep s node st en v ->
    runs (upd node st en i j op) s (fun _ s' _ =>
      Rep s' node st en (updated i j op v) /\ touches (sub node) s s').

(** The states of a tree in use: built by the constructor from a seed of
    acceptable values, then changed by calls of [update] with acceptable
    updates and of [query], on any interval, each run to completion. *)
Inductive reachable : SegTree Node Op -> Prop :=
| reach_construct fuel n arr s log :
    1 <= n -> (height n <= fuel)%nat -> seed_ok arr 0 (n - 1) ->
    construct fuel n arr = Done tt s log -> reachable s
| reach_update fuel i j op s s' log :
    reachable s -> okO op -> (height (size s) <= fuel)%nat ->
    update fuel i j op s = Done tt s' log -> reachable s'
| reach_query fuel i j s r s' log :
    reachable s -> (height (size s) <= fuel)%nat ->
    query fuel i j s = Done r s' log -> reachable s'.

(** The updates of a client are among those the contract covers. *)
Definition ok_command (c : command Op) : Prop :=
  match c with Query _ _ => True | Change _ _ op => okO op end.

(** The results of the queries of [cmds], computed on the values themselves. *)
Fixpoint answers (n : Z) v (cmds : list (command Op)) : list Node :=
  match cmds with
  | [] => []
  | Query i j :: cmds => range_agg v (Z.max 0 i) (Z.min (n - 1) j) :: answers n v cmds
  | Change i j op :: cmds => answers n (updated i j op v) cmds
  end.

End WithContract.
End Notions.

(** ** The min/max instantiation in use *)

Module MinMaxTree.
Import MinMax.

(** [Node()] is [(INF, -INF)] with [INF = 1e9]: it is neutral for [join]
    only on the aggregates whose minimum is at most [INF] and whose maximum
    is at least [-INF].  Setting to a value between [-INF] and [INF] keeps
    the aggregates there; adding does not. *)
Definition okN (x : Node) : Prop := minVal x <= INF /\ - INF <= maxVal x.
Definition okO (op : Op) : Prop := code op = "s"%char /\ - INF <= arg op <= INF.

(** Some contents for the default-constructed [Op]. *)
Definition nop : Op := mkOp "n" 0.
Definition U : Update Node Op := Op_update nop.

(** The tree of four elements built from the seed [0, 0, 0, 0]. *)
Definition four : SegTree Node Op :=
  state_of (construct (Update0:=U) 3 4 [0; 0; 0; 0]) (mkSegTree 0 [] [] []).

Definition set5 : Op := mkOp "s" 5.
Definition add3 : Op := mkOp "a" 3.

(** The tree after [update(0, 3, set 5)]: the root holds a pending update. *)
Definition four_set : SegTree Node Op :=
  state_of (update (Update0:=U) 3 0 3 set5 four) four.

End MinMaxTree.

(** The updates of the min/max instantiation that [main] constructs:
    ['s'] (set) and ['a'] (add). *)
Definition set_or_add (op : MinMax.Op) : Prop :=
  MinMax.code op = "s"%char \/ MinMax.code op = "a"%char.

(** ** Trees in use, whatever the parameters do *)

(** The number of calls among the events of a log. *)
Fixpoint calls (l : list event) : nat :=
  match l with
  | [] => 0
  | Call _ :: l => S (calls l)
  | Access _ :: l => calls l
  end.

Section Use.
Context {Node Op : Type} `{!Aggregate Node} `{!Update Node Op}.
Implicit Types s : SegTree Node Op.

(** The states of a tree in use: built by the constructor with [n >= 1],
    then changed by calls of [update] and [query] that have completed,
    whatever the seed, the updates and the intervals. *)
Inductive in_use : SegTree Node Op -> Prop :=
| use_construct fuel n arr s log :
    1 <= n -> construct fuel n arr = Done tt s log -> in_use s
| use_update fuel i j op s s' log :
    in_use s -> update fuel i j op s = Done tt s' log -> in_use s'
| use_query fuel i j s r s' log :
    in_use s -> query fuel i j s = Done r s' log -> in_use s'.

(** No slot is flagged as holding a pending update. *)
Definition nothing_pending s : Prop :=
  forall d b, at_ (hasPending s) d = Some b -> b = false.

(** No single-element position of the subtree at [node] is flagged as
    holding a pending update. *)
Inductive leaves_clear s : Z -> Z -> Z -> Prop :=
| clear_leaf node st :
    0 <= st -> at_ (hasPending s) node = Some false -> leaves_clear s node st st
| clear_node node st en :
    0 <= st -> st < en ->
    leaves_clear s (left node) st (mid st en) ->
    leaves_clear s (right node) (mid st en + 1) en ->
    leaves_clear s node st en.

(** The flag and the pending update that [update] with [op] leaves in the
    slot of a position inside [[i, j]], when the slot held the flag [b] and
    the pending update [p]: a single element gets no pending update. *)
Definition flag_after (st en : Z) (b : bool) : bool :=
  if decide (st = en) then b else true.

Definition pending_after (st en : Z) (b : bool) (p op : Op) : Op :=
  if decide (st = en) then p
  else if b then Op_merge p op st en else op.

End Use.


(** ** The array of integers that the min/max tree stands for

    The tree is the one of the 32-bit updates, [MinMax.Op32_update]; the
    array is an array of mathematical integers, of which the statements
    require that they stay between [-INF] and [INF]. *)

Module MinMaxArray.
Import MinMax.

(** The elements of a seed, as an array. *)
Definition seed_array (arr : list Z) : Z -> Z := fun k => default 0 (at_ arr k).

(** An element after [op]: set to [arg], increased by [arg], or left as
    it is by an update of another code. *)
Definition act (op : Op) (x : Z) : Z :=
  if Ascii.eqb (code op) "s" then arg op
  else if Ascii.eqb (code op) "a" then x + arg op
  else x.

(** The array after [update(i, j, op)]. *)
Definition changed (i j : Z) (op : Op) (a : Z -> Z) : Z -> Z :=
  fun k => if decide (i <= k <= j) then act op (a k) else a k.

(** The least and the greatest of [a lo], ..., [a hi], from [INF] and
    [-INF]: the least and the greatest of the elements if there are some
    and they are between [-INF] and [INF], and [INF] and [-INF] if there is
    none. *)
Definition least (a : Z -> Z) (lo hi : Z) : Z :=
  foldr Z.min INF (a <$> seqZ lo (hi + 1 - lo)).

Definition greatest (a : Z -> Z) (lo hi : Z) : Z :=
  foldr Z.max (- INF) (a <$> seqZ lo (hi + 1 - lo)).

(** [r] holds the least and the greatest of [a lo], ..., [a hi]. *)
Definition extremes (a : Z -> Z) (lo hi : Z) (r : Node) : Prop :=
  (forall k, lo <= k <= hi -> minVal r <= a k <= maxVal r) /\
  (exists k, lo <= k <= hi /\ a k = minVal r) /\
  (exists k, lo <= k <= hi /\ a k = maxVal r).

(** The results of the queries of [cmds] on an array of [n] elements,
    computed on the array. *)
Fixpoint array_answers (n : Z) (a : Z -> Z) (cmds : list (command Op)) : list Node :=
  match cmds with
  | [] => []
  | Query i j :: cmds =>
      mkNode (least a (Z.max 0 i) (Z.min (n - 1) j))
             (greatest a (Z.max 0 i) (Z.min (n - 1) j)) :: array_answers n a cmds
  | Change i j op :: cmds => array_answers n (changed i j op a) cmds
  end.

(** The updates of [cmds] are sets and adds, and each of them leaves the
    elements of the array between [-INF] and [INF]. *)
Fixpoint kept_in_range (n : Z) (a : Z -> Z) (cmds : list (command Op)) : Prop :=
  match cmds with
  | [] => True
  | Query i j :: cmds => kept_in_range n a cmds
  | Change i j op :: cmds =>
      set_or_add op /\
      (forall k, 0 <= k < n -> - INF <= changed i j op a k <= INF) /\
      kept_in_range n (changed i j op a) cmds
  end.

(** [Holds s node st en a]: the subtree at slot [node], which covers
    [[st, en]], stands for the elements [a st], ..., [a en], which are
    between [-INF] and [INF].  The aggregate stored in a slot holds the
    extremes of the elements of its range; the pending update of a slot
    has still to be applied to what its children stand for. *)
Inductive Holds (s : SegTree Node Op) : Z -> Z -> Z -> (Z -> Z) -> Prop :=
| Holds_leaf node st a :
    0 <= st ->
    - INF <= a st <= INF ->
    at_ (tree s) node = Some (mkNode (a st) (a st)) ->
    Holds s node st st a
| Holds_node node st en a ac (b : bool) p x :
    0 <= st -> st < en ->
    Holds s (left node) st (mid st en) ac ->
    Holds s (right node) (mid st en + 1) en ac ->
    at_ (hasPending s) node = Some b ->
    at_ (pending s) node = Some p ->
    (if b then set_or_add p /\ forall k, st <= k <= en -> a k = act p (ac k)
     else forall k, st <= k <= en -> a k = ac k) ->
    (forall k, st <= k <= en -> - INF <= a k <= INF) ->
    at_ (tree s) node = Some x ->
    extremes a st en x ->
    Holds s node st en a.

End MinMaxArray.

(** ** The program

    [main] reads quadruples [code st end arg] from [cin] until a read
    fails, and writes to [cout].  The input is modelled by the list of the
    quadruples read, the output by the list of what is written. *)

Module Program.
Import MinMax.

Definition MAXN : Z := 10000.

(** [int arr[MAXN]], a global: all zeros. *)
Definition arr : list Z := replicate (Z.to_nat MAXN) 0.

(** What [main] writes to [cout]: the prompt, a number and [endl], or the
    line [Invalid command.] *)
Inductive output : Type :=
| Prompt
| Number (z : Z)
| InvalidCommand.

(** The number of prompts written. *)
Fixpoint prompts (os : list output) : nat :=
  match os with
  | [] => 0
  | Prompt :: os => S (prompts os)
  | _ :: os => prompts os
  end.

(** One turn of the loop, on the four values that [cin] has given. *)
Definition turn (nop : Op) (fuel : nat) (c : ascii * Z * Z * Z)
    : M Node Op (list output) :=
  let '(code, st, en, arg) := c in
  if (Ascii.eqb code "s" || Ascii.eqb code "a")%bool then
    update (Update0:=Op_update nop) fuel st en (mkOp code arg);; mret []
  else if Ascii.eqb code "m" then
    r ← query (Update0:=Op_update nop) fuel st en; mret [Number (minVal r)]
  else if Ascii.eqb code "M" then
    r ← query (Update0:=Op_update nop) fuel st en; mret [Number (maxVal r)]
  else mret [InvalidCommand].

(** The loop, on the successive quadruples that [cin] gives until it fails. *)
Fixpoint loop (nop : Op) (fuel : nat) (input : list (ascii * Z * Z * Z))
    : M Node Op (list output) :=
  match input with
  | [] => mret []
  | c :: input =>
      o ← turn nop fuel c;
      os ← loop nop fuel input;
      mret (o ++ Prompt :: os)
  end.

Definition main (nop : Op) (fuel : nat) (input : list (ascii * Z * Z * Z))
    : outcome Node Op (list output) :=
  match construct (Update0:=Op_update nop) fuel 100 arr with
  | Done _ s l0 =>
      match loop nop fuel input s with
      | Done os s' l => Done (Prompt :: os) s' (l0 ++ l)
      | e => e
      end
  | OutOfBounds => OutOfBounds
  | LengthError => LengthError
  | Diverged => Diverged
  end.

End Program.

(** The program with the sums of [apply] and [merge] as an [int] holds
    them. *)

Module Program32.
Import MinMax Program.

Definition turn (nop : Op) (fuel : nat) (c : ascii * Z * Z * Z)
    : M Node Op (list output) :=
  let '(code, st, en, arg) := c in
  if (Ascii.eqb code "s" || Ascii.eqb code "a")%bool then
    update (Update0:=Op32_update nop) fuel st en (mkOp code arg);; mret []
  else if Ascii.eqb code "m" then
    r ← query (Update0:=Op32_update nop) fuel st en; mret [Number (minVal r)]
  else if Ascii.eqb code "M" then
    r ← query (Update0:=Op32_update nop) fuel st en; mret [Number (maxVal r)]
  else mret [InvalidCommand].

Fixpoint loop (nop : Op) (fuel : nat) (input : list (ascii * Z * Z * Z))
    : M Node Op (list output) :=
  match input with
  | [] => mret []
  | c :: input =>
      o ← turn nop fuel c;
      os ← loop nop fuel input;
      mret (o ++ Prompt :: os)
  end.

Definition main (nop : Op) (fuel : nat) (input : list (ascii * Z * Z * Z))
    : outcome Node Op (list output) :=
  match construct (Update0:=Op32_update nop) fuel 100 arr with
  | Done _ s l0 =>
      match loop nop fuel input s with
      | Done os s' l => Done (Prompt :: os) s' (l0 ++ l)
      | e => e
      end
  | OutOfBounds => OutOfBounds
  | LengthError => LengthError
  | Diverged => Diverged
  end.

(** What [main] is expected to write, computed on an array of 100
    elements: the least or the greatest of the elements of the interval for
    ['m'] and ['M'], nothing for ['s'] and ['a'], which change the array. *)
Fixpoint expected (a : Z -> Z) (input : list (ascii * Z * Z * Z)) : list output :=
  match input with
  | [] => []
  | (code, st, en, arg) :: input =>
      if (Ascii.eqb code "s" || Ascii.eqb code "a")%bool then
        Prompt :: expected (MinMaxArray.changed st en (mkOp code arg) a) input
      else if Ascii.eqb code "m" then
        Number (MinMaxArray.least a (Z.max 0 st) (Z.min 99 en)) :: Prompt :: expected a input
      else if Ascii.eqb code "M" then
        Number (MinMaxArray.greatest a (Z.max 0 st) (Z.min 99 en)) :: Prompt
          :: expected a input
      else InvalidCommand :: Prompt :: expected a input
  end.

(** Each ['s'] and each ['a'] of the input leaves the 100 elements of the
    array between [-INF] and [INF]. *)
Fixpoint stays_in_range (a : Z -> Z) (input : list (ascii * Z * Z * Z)) : Prop :=
  match input with
  | [] => True
  | (code, st, en, arg) :: input =>
      if (Ascii.eqb code "s" || Ascii.eqb code "a")%bool then
        (forall k, 0 <= k < 100 ->
           - INF <= MinMaxArray.changed st en (mkOp code arg) a k <= INF) /\
        stays_in_range (MinMaxArray.changed st en (mkOp code arg) a) input
      else stays_in_range a input
  end.

End Program32.

(** * Proofs *)

(** ** [int] *)

Lemma wrap_id x : INT_MIN <= x <= INT_MAX -> wrap x = x.
Proof. unfold wrap, INT_MIN, INT_MAX. intros. rewrite Z.mod_small by lia. lia. Qed.

Lemma wrap_add_l x y : wrap (wrap x + y) = wrap (x + y).
Proof.
  unfold wrap.
  replace ((x - INT_MIN) mod 4294967296 + INT_MIN + y - INT_MIN)
    with ((x - INT_MIN) mod 4294967296 + y) by lia.
  rewrite Z.add_mod_idemp_l by lia.
  by replace (x - INT_MIN + y) with (x + y - INT_MIN) by lia.
Qed.

Lemma wrap_add_r x y : wrap (x + wrap y) = wrap (x + y).
Proof. rewrite (Z.add_comm x), wrap_add_l. f_equal. lia. Qed.

(** ** Index arithmetic *)

Lemma mid_div st en : 0 <= st -> st <= en -> mid st en = (st + en) / 2.
Proof. intros. unfold mid. apply Z.quot_div_nonneg; lia. Qed.

Lemma mid_bounds st en : 0 <= st -> st < en -> st <= mid st en < en.
Proof.
  intros. rewrite mid_div by lia.
  split; [apply Z.div_le_lower_bound | apply Z.div_lt_upper_bound]; lia.
Qed.

Lemma halves_fit st en (f : nat) :
  0 <= st -> st < en -> en - st + 1 <= 2 ^ Z.of_nat (S f) ->
  mid st en - st + 1 <= 2 ^ Z.of_nat f /\ en - (mid st en + 1) + 1 <= 2 ^ Z.of_nat f.
Proof.
  intros Hst Hlt Hlen.
  rewrite Nat2Z.inj_succ, Z.pow_succ_r in Hlen by lia.
  rewrite mid_div by lia.
  pose proof (Z.div_mod (st + en) 2 ltac:(lia)).
  pose proof (Z.mod_pos_bound (st + en) 2 ltac:(lia)).
  lia.
Qed.

Lemma sub_refl node : sub node node.
Proof. exists 0%nat. simpl. apply Z.div_1_r. Qed.

Lemma sub_left node d : sub (left node) d -> sub node d.
Proof.
  intros [k Hk]. exists (S k).
  rewrite Nat2Z.inj_succ, Z.pow_succ_r, Z.mul_comm, <- Z.div_div, Hk by lia.
  unfold left. rewrite Z.mul_comm. apply Z.div_mul. lia.
Qed.

Lemma sub_right node d : sub (right node) d -> sub node d.
Proof.
  intros [k Hk]. exists (S k).
  rewrite Nat2Z.inj_succ, Z.pow_succ_r, Z.mul_comm, <- Z.div_div, Hk by lia.
  unfold right. symmetry. apply Z.div_unique with (r := 1); lia.
Qed.

Lemma div_pow2_le a (m : nat) : 0 <= a -> a / 2 ^ Z.of_nat (S m) <= a / 2.
Proof.
  intros. apply Z.div_le_compat_l; [lia|].
  rewrite Nat2Z.inj_succ, Z.pow_succ_r by lia.
  pose proof (Z.pow_pos_nonneg 2 (Z.of_nat m)). lia.
Qed.

Lemma div_pow2_add d (k m : nat) :
  d / 2 ^ Z.of_nat (k + m) = d / 2 ^ Z.of_nat k / 2 ^ Z.of_nat m.
Proof.
  pose proof (Z.pow_pos_nonneg 2 (Z.of_nat k)).
  pose proof (Z.pow_pos_nonneg 2 (Z.of_nat m)).
  rewrite Nat2Z.inj_add, Z.pow_add_r, Z.div_div by lia. reflexivity.
Qed.

Lemma sub_above node d : 1 <= node -> sub node d -> node <= d.
Proof.
  intros Hn [k Hk]. subst node.
  assert (0 <= d).
  { destruct (Z.le_gt_cases 0 d) as [|Hneg]; [done|].
    pose proof (Z.pow_pos_nonneg 2 (Z.of_nat k) ltac:(lia) ltac:(lia)).
    pose proof (Z.div_lt_upper_bound d (2 ^ Z.of_nat k) 0 ltac:(lia) ltac:(lia)). lia. }
  apply Z.div_le_upper_bound.
  - pose proof (Z.pow_pos_nonneg 2 (Z.of_nat k)). lia.
  - pose proof (Z.pow_pos_nonneg 2 (Z.of_nat k) ltac:(lia) ltac:(lia)). nia.
Qed.

Lemma sub_disjoint node d : 1 <= node -> sub (left node) d -> sub (right node) d -> False.
Proof.
  unfold left, right. intros Hn [k Hk] [k' Hk'].
  destruct (Nat.lt_trichotomy k k') as [Hlt|[->|Hlt]].
  - replace k' with (k + S (k' - k - 1))%nat in Hk' by lia.
    rewrite div_pow2_add, Hk in Hk'.
    pose proof (div_pow2_le (2 * node) (k' - k - 1) ltac:(lia)).
    assert (2 * node / 2 = node) by (rewrite Z.mul_comm; apply Z.div_mul; lia).
    lia.
  - lia.
  - replace k with (k' + S (k - k' - 1))%nat in Hk by lia.
    rewrite div_pow2_add, Hk' in Hk.
    pose proof (div_pow2_le (2 * node + 1) (k - k' - 1) ltac:(lia)).
    assert ((2 * node + 1) / 2 = node) by (symmetry; apply Z.div_unique with (r := 1); lia).
    lia.
Qed.

Lemma not_sub_left_self node : 1 <= node -> ~ sub (left node) node.
Proof. intros Hn Hs. apply sub_above in Hs; unfold left in *; lia. Qed.

Lemma not_sub_right_self node : 1 <= node -> ~ sub (right node) node.
Proof. intros Hn Hs. apply sub_above in Hs; unfold right in *; lia. Qed.

(** ** Reasoning about computations *)

Section Runs.
Context {Node Op : Type}.
Implicit Types s : SegTree Node Op.

Lemma runs_Done {A} (m : M Node Op A) s Q :
  runs m s Q <-> exists a s' l, m s = Done a s' l /\ Q a s' l.
Proof.
  unfold runs. split.
  - destruct (m s); try done. eauto.
  - intros (a & s' & l & -> & HQ). done.
Qed.

Lemma runs_unit (m : M Node Op unit) s Q :
  runs m s Q -> exists s' l, m s = Done tt s' l /\ Q tt s' l.
Proof. unfold runs. destruct (m s) as [[] s' l| | |]; try done. eauto. Qed.

Lemma runs_mono {A} (m : M Node Op A) s (Q Q' : A -> SegTree Node Op -> list event -> Prop) :
  runs m s Q -> (forall a s' l, Q a s' l -> Q' a s' l) -> runs m s Q'.
Proof. unfold runs. destruct (m s); auto. Qed.

Lemma runs_safe {A} (m : M Node Op A) s (Q Q' : A -> SegTree Node Op -> list event -> Prop) :
  runs m s Q -> safe m s Q' -> runs m s (fun a s' l => Q a s' l /\ Q' a s' l).
Proof. unfold runs, safe. destruct (m s); auto. Qed.

Lemma runs_ret {A} (a : A) s (Q : A -> SegTree Node Op -> list event -> Prop) :
  Q a s [] -> runs (mret a) s Q.
Proof. done. Qed.

Lemma runs_bind {A B} (m : M Node Op A) (f : A -> M Node Op B) s
    (Q : B -> SegTree Node Op -> list event -> Prop) :
  runs m s (fun a s1 l1 => runs (f a) s1 (fun b s2 l2 => Q b s2 (l1 ++ l2))) ->
  runs (m ≫= f) s Q.
Proof.
  unfold runs, mbind, M_mbind, M_bind. destruct (m s) as [a s1 l1| | |]; try done.
  destruct (f a s1); done.
Qed.

Lemma safe_mono {A} (m : M Node Op A) s (Q Q' : A -> SegTree Node Op -> list event -> Prop) :
  safe m s Q -> (forall a s' l, Q a s' l -> Q' a s' l) -> safe m s Q'.
Proof. unfold safe. destruct (m s); auto. Qed.

Lemma safe_ret {A} (a : A) s (Q : A -> SegTree Node Op -> list event -> Prop) :
  Q a s [] -> safe (mret a) s Q.
Proof. done. Qed.

Lemma safe_bind {A B} (m : M Node Op A) (f : A -> M Node Op B) s
    (Q : B -> SegTree Node Op -> list event -> Prop) :
  safe m s (fun a s1 l1 => safe (f a) s1 (fun b s2 l2 => Q b s2 (l1 ++ l2))) ->
  safe (m ≫= f) s Q.
Proof.
  unfold safe, mbind, M_mbind, M_bind. destruct (m s) as [a s1 l1| | |]; try done.
  destruct (f a s1); done.
Qed.

Lemma runs_read_tree node s x Q :
  at_ (tree s) node = Some x -> Q x s [Access node] -> runs (read_tree node) s Q.
Proof. unfold runs, read_tree. by intros ->. Qed.

Lemma runs_write_tree node x s Q :
  is_Some (at_ (tree s) node) ->
  Q tt (mkSegTree (size s) (put (tree s) node x) (hasPending s) (pending s)) [Access node] ->
  runs (write_tree node x) s Q.
Proof. unfold runs, write_tree. by intros [? ->]. Qed.

Lemma runs_read_hasPending node s b Q :
  at_ (hasPending s) node = Some b -> Q b s [Access node] -> runs (read_hasPending node) s Q.
Proof. unfold runs, read_hasPending. by intros ->. Qed.

Lemma runs_write_hasPending node b s Q :
  is_Some (at_ (hasPending s) node) ->
  Q tt (mkSegTree (size s) (tree s) (put (hasPending s) node b) (pending s)) [Access node] ->
  runs (write_hasPending node b) s Q.
Proof. unfold runs, write_hasPending. by intros [? ->]. Qed.

Lemma runs_read_pending node s p Q :
  at_ (pending s) node = Some p -> Q p s [Access node] -> runs (read_pending node) s Q.
Proof. unfold runs, read_pending. by intros ->. Qed.

Lemma runs_write_pending node p s Q :
  is_Some (at_ (pending s) node) ->
  Q tt (mkSegTree (size s) (tree s) (hasPending s) (put (pending s) node p)) [Access node] ->
  runs (write_pending node p) s Q.
Proof. unfold runs, write_pending. by intros [? ->]. Qed.

Lemma runs_read_arr arr i s v Q :
  at_ arr i = Some v -> Q v s [] -> runs (read_arr arr i) s Q.
Proof. unfold runs, read_arr. by intros ->. Qed.

Lemma runs_get_size s Q : Q (size s) s [] -> runs get_size s Q.
Proof. done. Qed.

Lemma runs_enter node s Q : Q tt s [Call node] -> runs (enter node) s Q.
Proof. done. Qed.

Lemma safe_enter node s (Q : unit -> SegTree Node Op -> list event -> Prop) :
  Q tt s [Call node] -> safe (enter node) s Q.
Proof. done. Qed.

(** Every access of a primitive that completes is logged, and is inside
    the vector's capacity. *)
Lemma safe_read_tree node s (Q : Node -> SegTree Node Op -> list event -> Prop) :
  (forall x, at_ (tree s) node = Some x -> Q x s [Access node]) -> safe (read_tree node) s Q.
Proof. unfold safe, read_tree. destruct (at_ (tree s) node); auto. Qed.

Lemma safe_write_tree node x s (Q : unit -> SegTree Node Op -> list event -> Prop) :
  (is_Some (at_ (tree s) node) ->
   Q tt (mkSegTree (size s) (put (tree s) node x) (hasPending s) (pending s)) [Access node]) ->
  safe (write_tree node x) s Q.
Proof. unfold safe, write_tree. destruct (at_ (tree s) node); eauto. Qed.

Lemma safe_read_hasPending node s (Q : bool -> SegTree Node Op -> list event -> Prop) :
  (forall b, at_ (hasPending s) node = Some b -> Q b s [Access node]) ->
  safe (read_hasPending node) s Q.
Proof. unfold safe, read_hasPending. destruct (at_ (hasPending s) node); auto. Qed.

Lemma safe_write_hasPending node b s (Q : unit -> SegTree Node Op -> list event -> Prop) :
  (is_Some (at_ (hasPending s) node) ->
   Q tt (mkSegTree (size s) (tree s) (put (hasPending s) node b) (pending s)) [Access node]) ->
  safe (write_hasPending node b) s Q.
Proof. unfold safe, write_hasPending. destruct (at_ (hasPending s) node); eauto. Qed.

Lemma safe_read_pending node s (Q : Op -> SegTree Node Op -> list event -> Prop) :
  (forall p, at_ (pending s) node = Some p -> Q p s [Access node]) ->
  safe (read_pending node) s Q.
Proof. unfold safe, read_pending. destruct (at_ (pending s) node); auto. Qed.

Lemma safe_write_pending node p s (Q : unit -> SegTree Node Op -> list event -> Prop) :
  (is_Some (at_ (pending s) node) ->
   Q tt (mkSegTree (size s) (tree s) (hasPending s) (put (pending s) node p)) [Access node]) ->
  safe (write_pending node p) s Q.
Proof. unfold safe, write_pending. destruct (at_ (pending s) node); eauto. Qed.

Lemma safe_read_arr arr i s (Q : Z -> SegTree Node Op -> list event -> Prop) :
  (forall v, at_ arr i = Some v -> Q v s []) -> safe (read_arr arr i) s Q.
Proof. unfold safe, read_arr. destruct (at_ arr i); auto. Qed.

End Runs.

(** Reading and writing a vector slot. *)

Lemma at_put_eq {A} (v : list A) i x : is_Some (at_ v i) -> at_ (put v i x) i = Some x.
Proof.
  unfold at_, put. case_decide; [|by intros [? ?]].
  intros Hs. apply list_lookup_insert_eq. by apply lookup_lt_is_Some.
Qed.

Lemma at_put_ne {A} (v : list A) i j x : 0 <= i -> i <> j -> at_ (put v i x) j = at_ v j.
Proof.
  unfold at_, put. intros Hi Hne. case_decide; [|done].
  apply list_lookup_insert_ne. lia.
Qed.

Lemma at_put_is_Some {A} (v : list A) i j x : is_Some (at_ v j) -> is_Some (at_ (put v i x) j).
Proof.
  unfold at_, put. case_decide; [|done].
  rewrite !lookup_lt_is_Some, length_insert. done.
Qed.

Lemma at_is_Some {A} (v : list A) i : is_Some (at_ v i) <-> 0 <= i < Z.of_nat (length v).
Proof.
  unfold at_. case_decide.
  - rewrite lookup_lt_is_Some. lia.
  - split; [by intros [? ?] | lia].
Qed.

Lemma at_resize {A} n (x : A) i : 0 <= i < n -> at_ (resize n x) i = Some x.
Proof.
  intros. unfold at_, resize. rewrite decide_True by lia.
  apply lookup_replicate_2. lia.
Qed.

Lemma length_put {A} (v : list A) i x : length (put v i x) = length v.
Proof. apply length_insert. Qed.

(** [SegTree(n)] when [4 * n + 1] fits an [int]. *)
Lemma SegTree_new_fits {Node Op : Type} `{!Aggregate Node} `{!Update Node Op} n :
  0 <= 4 * n + 1 <= INT_MAX ->
  SegTree_new n = Done tt (mkSegTree n (resize (4 * n + 1) Node_new)
                             (resize (4 * n + 1) false)
                             (resize (4 * n + 1) Op_new)) [].
Proof.
  intros Hn. unfold SegTree_new. rewrite wrap_id by (unfold INT_MIN; lia).
  by rewrite decide_False by lia.
Qed.

(** ** The contract between the template and its parameters

    [okN] and [okO] delimit the aggregates and the updates for which the
    parameters keep their promises: [join] is associative with [Node()] as
    its neutral element, [apply] on the aggregate of a range is [apply] on
    its two halves, and [merge] is "this update, then the argument" on
    every part of the range it was merged for. *)

Section Contract.
Context {Node Op : Type} `{!Aggregate Node} `{!Update Node Op}.

Lemma range_agg_empty v a b : b < a -> range_agg v a b = Node_new.
Proof. intros. unfold range_agg. rewrite seqZ_nil by lia. done. Qed.

Lemma range_agg_cons v a b :
  a <= b -> range_agg v a b = Node_join (v a) (range_agg v (a + 1) b).
Proof.
  intros. unfold range_agg. rewrite seqZ_cons by lia. simpl.
  replace (Z.succ a) with (a + 1) by lia.
  replace (Z.pred (b + 1 - a)) with (b + 1 - (a + 1)) by lia. done.
Qed.

Lemma range_ind (P : Z -> Z -> Prop) :
  (forall a b, b < a -> P a b) ->
  (forall a b, a <= b -> P (a + 1) b -> P a b) ->
  forall a b, P a b.
Proof.
  intros Hnil Hcons a b.
  remember (Z.to_nat (b + 1 - a)) as n eqn:Hn.
  revert a Hn. induction n as [|n IH]; intros a Hn.
  - apply Hnil. lia.
  - apply Hcons; [lia|]. apply IH. lia.
Qed.

Lemma range_agg_ext v w a b :
  (forall k, a <= k <= b -> v k = w k) -> range_agg v a b = range_agg w a b.
Proof.
  revert a b. refine (range_ind _ _ _); intros a b Hab.
  - intros _. by rewrite !range_agg_empty.
  - intros IH Hvw. rewrite (range_agg_cons v a b), (range_agg_cons w a b) by done.
    rewrite Hvw by lia. rewrite IH; [done|]. intros; apply Hvw; lia.
Qed.

Section Laws.
Context {okN : Node -> Prop} {okO : Op -> Prop} (C : Contract okN okO).

Lemma ok_range_agg v a b :
  (forall k, a <= k <= b -> okN (v k)) -> okN (range_agg v a b).
Proof.
  revert a b. refine (range_ind _ _ _); intros a b Hab.
  - intros _. rewrite range_agg_empty by done. apply (ok_new _ _ C).
  - intros IH Hv. rewrite range_agg_cons by done.
    apply (ok_join _ _ C); [apply Hv; lia|]. apply IH. intros; apply Hv; lia.
Qed.

Lemma range_agg_single v a : okN (v a) -> range_agg v a a = v a.
Proof.
  intros. rewrite range_agg_cons, range_agg_empty by lia.
  by apply (join_new_r _ _ C).
Qed.

(** Decomposition at any point; either part may be empty. *)
Lemma range_agg_split v a m b :
  a <= m + 1 -> m <= b -> (forall k, a <= k <= b -> okN (v k)) ->
  range_agg v a b = Node_join (range_agg v a m) (range_agg v (m + 1) b).
Proof.
  revert a m. intros a0 m. revert a0 m b.
  refine (range_ind _ _ _); intros a m Ham.
  - intros b Ha Hmb Hv. assert (a = m + 1) as -> by lia.
    rewrite (range_agg_empty v (m + 1) m) by lia.
    rewrite (join_new_l _ _ C); [done|]. apply ok_range_agg. intros; apply Hv; lia.
  - intros IH b _ Hmb Hv.
    rewrite (range_agg_cons v a b), (range_agg_cons v a m) by lia.
    rewrite (IH b) by (try lia; intros; apply Hv; lia).
    rewrite (join_assoc _ _ C); [done|..].
    + apply Hv; lia.
    + apply ok_range_agg. intros; apply Hv; lia.
    + apply ok_range_agg. intros; apply Hv; lia.
Qed.

(** [apply] on the aggregate of a range is the aggregate of [apply] on
    its elements. *)
Lemma apply_range_agg op v a b :
  okO op -> a <= b -> (forall k, a <= k <= b -> okN (v k)) ->
  Op_apply op (range_agg v a b) a b =
  range_agg (fun k => Op_apply op (v k) k k) a b.
Proof.
  intros Hop. revert a b. refine (range_ind _ _ _); intros a b Hab; [lia|].
  intros IH _ Hv.
  destruct (decide (a = b)) as [->|Hne].
  - rewrite !range_agg_single; [done|..].
    + apply (ok_apply _ _ C); [done| |lia]. apply Hv; lia.
    + apply Hv; lia.
  - rewrite (range_agg_cons v a b), (range_agg_cons _ a b) by lia.
    rewrite (apply_join _ _ C) with (m := a); try done; try lia.
    + rewrite IH; [done|lia|]. intros; apply Hv; lia.
    + apply Hv; lia.
    + apply ok_range_agg. intros; apply Hv; lia.
Qed.

Lemma ok_updated i j op v k : okO op -> okN (v k) -> okN (updated i j op v k).
Proof.
  intros. unfold updated. case_decide; [|done].
  apply (ok_apply _ _ C); [done..|lia].
Qed.

End Laws.
End Contract.

(** ** The representation invariant *)

Section Invariant.
Context {Node Op : Type} `{!Aggregate Node} `{!Update Node Op}.
Context {okN : Node -> Prop} {okO : Op -> Prop} (C : Contract okN okO).
Implicit Types s : SegTree Node Op.
Implicit Types v : Z -> Node.
Local Abbreviation Rep := (Rep (okN:=okN) (okO:=okO)).

Lemma touches_refl T s : touches T s s.
Proof. by repeat split. Qed.

Lemma touches_trans T s1 s2 s3 : touches T s1 s2 -> touches T s2 s3 -> touches T s1 s3.
Proof.
  intros (? & ? & ? & ? & H12) (? & ? & ? & ? & H23).
  repeat split; try congruence; destruct (H12 d), (H23 d); intuition congruence.
Qed.

Lemma touches_mono (T T' : Z -> Prop) s s' :
  (forall d, T d -> T' d) -> touches T s s' -> touches T' s s'.
Proof. intros HT (? & ? & ? & ? & Hd). repeat split; try done; apply Hd; auto. Qed.

Lemma touches_write_tree node x s :
  is_Some (at_ (tree s) node) ->
  touches (eq node) s (mkSegTree (size s) (put (tree s) node x) (hasPending s) (pending s)).
Proof.
  intros Hs. apply at_is_Some in Hs.
  repeat split; simpl; try done; [apply length_put|].
  apply at_put_ne; [lia|done].
Qed.

Lemma touches_write_hasPending node b s :
  is_Some (at_ (hasPending s) node) ->
  touches (eq node) s (mkSegTree (size s) (tree s) (put (hasPending s) node b) (pending s)).
Proof.
  intros Hs. apply at_is_Some in Hs.
  repeat split; simpl; try done; [apply length_put|].
  apply at_put_ne; [lia|done].
Qed.

Lemma touches_write_pending node p s :
  is_Some (at_ (pending s) node) ->
  touches (eq node) s (mkSegTree (size s) (tree s) (hasPending s) (put (pending s) node p)).
Proof.
  intros Hs. apply at_is_Some in Hs.
  repeat split; simpl; try done; [apply length_put|].
  apply at_put_ne; [lia|done].
Qed.

Lemma Rep_range s node st en v : Rep s node st en v -> 0 <= st <= en.
Proof. destruct 1; lia. Qed.

Lemma Rep_ok s node st en v :
  Rep s node st en v -> forall k, st <= k <= en -> okN (v k).
Proof.
  induction 1 as [node st v ? ? ?|node st en v vc b p ? ? _ IHl _ IHr ? ? Hv ?]; intros k Hk.
  - by assert (k = st) as -> by lia.
  - pose proof (mid_bounds st en ltac:(lia) ltac:(lia)).
    assert (okN (vc k)).
    { destruct (decide (k <= mid st en)); [apply IHl|apply IHr]; lia. }
    destruct b.
    + destruct Hv as [Hp Hv]. rewrite Hv by done. apply (ok_apply _ _ C); [done..|lia].
    + by rewrite Hv.
Qed.

Lemma Rep_tree s node st en v :
  Rep s node st en v -> at_ (tree s) node = Some (range_agg v st en).
Proof. destruct 1; [|done]. by rewrite (range_agg_single C). Qed.

Lemma Rep_ext s node st en v w :
  (forall k, st <= k <= en -> v k = w k) -> Rep s node st en v -> Rep s node st en w.
Proof.
  intros Hvw. destruct 1 as [node st v ? ? ?|node st en v vc b p ? ? Hl Hr ? ? Hv ?].
  - apply Rep_leaf; rewrite <- ?Hvw by lia; done.
  - apply Rep_node with (vc := vc) (b := b) (p := p); try done.
    + destruct b; [destruct Hv as [? Hv]; split; [done|]|];
        intros k Hk; rewrite <- Hvw by done; by apply Hv.
    + by rewrite <- (range_agg_ext v w).
Qed.

Lemma Rep_touches (T : Z -> Prop) s s' node st en v :
  1 <= node -> Rep s node st en v -> touches T s s' ->
  (forall d, sub node d -> ~ T d) -> Rep s' node st en v.
Proof.
  intros Hn HR (_ & _ & _ & _ & HT). revert Hn.
  induction HR as [node st v ? ? ?|node st en v vc b p ? ? _ IHl _ IHr ? ? Hv ?];
    intros Hn Hdis.
  - destruct (HT node) as (Ht & _ & _); [apply Hdis, sub_refl|].
    apply Rep_leaf; [done| |done]. by rewrite Ht.
  - destruct (HT node) as (Ht & Hh & Hp); [apply Hdis, sub_refl|].
    apply Rep_node with (vc := vc) (b := b) (p := p); try done; try congruence.
    + apply IHl; [unfold left; lia|]. intros d Hd. by apply Hdis, sub_left.
    + apply IHr; [unfold right; lia|]. intros d Hd. by apply Hdis, sub_right.
Qed.

(** The three ways in which a change leaves a subtree alone. *)
Lemma Rep_touches_left s s' node st en v :
  1 <= node -> Rep s (right node) st en v -> touches (sub (left node)) s s' ->
  Rep s' (right node) st en v.
Proof.
  intros Hn HR HT. eapply Rep_touches; [|exact HR|exact HT|]; [unfold right; lia|].
  intros d Hr Hl. by apply (sub_disjoint node d).
Qed.

Lemma Rep_touches_right s s' node st en v :
  1 <= node -> Rep s (left node) st en v -> touches (sub (right node)) s s' ->
  Rep s' (left node) st en v.
Proof.
  intros Hn HR HT. eapply Rep_touches; [|exact HR|exact HT|]; [unfold left; lia|].
  intros d Hl Hr. by apply (sub_disjoint node d).
Qed.

Lemma Rep_touches_parent_l s s' node st en v :
  1 <= node -> Rep s (left node) st en v -> touches (eq node) s s' ->
  Rep s' (left node) st en v.
Proof.
  intros Hn HR HT. eapply Rep_touches; [|exact HR|exact HT|]; [unfold left; lia|].
  intros d Hl <-. by apply (not_sub_left_self node).
Qed.

Lemma Rep_touches_parent_r s s' node st en v :
  1 <= node -> Rep s (right node) st en v -> touches (eq node) s s' ->
  Rep s' (right node) st en v.
Proof.
  intros Hn HR HT. eapply Rep_touches; [|exact HR|exact HT|]; [unfold right; lia|].
  intros d Hl <-. by apply (not_sub_right_self node).
Qed.

Lemma touches_left_sub node s s' : touches (sub (left node)) s s' -> touches (sub node) s s'.
Proof. apply touches_mono, sub_left. Qed.

Lemma touches_right_sub node s s' : touches (sub (right node)) s s' -> touches (sub node) s s'.
Proof. apply touches_mono, sub_right. Qed.

Lemma touches_eq_sub node s s' : touches (eq node) s s' -> touches (sub node) s s'.
Proof. apply touches_mono. intros d <-. apply sub_refl. Qed.

Lemma same_at_child_l node s s' :
  1 <= node -> touches (sub (left node)) s s' -> same_at node s s'.
Proof. intros Hn (_ & _ & _ & _ & HT). by apply HT, not_sub_left_self. Qed.

Lemma same_at_child_r node s s' :
  1 <= node -> touches (sub (right node)) s s' -> same_at node s s'.
Proof. intros Hn (_ & _ & _ & _ & HT). by apply HT, not_sub_right_self. Qed.

End Invariant.

(** ** Correctness of [update], [applyPending] and [query] *)

Section Correct.
Context {Node Op : Type} `{!Aggregate Node} `{!Update Node Op}.
Context {okN : Node -> Prop} {okO : Op -> Prop} (C : Contract okN okO).
Implicit Types s : SegTree Node Op.
Implicit Types v : Z -> Node.
Local Abbreviation update_ok := (update_ok (okN:=okN) (okO:=okO)).

Lemma halves_cap st en f :
  0 <= st -> st < en -> en - st + 1 <= cap_of (S f) ->
  mid st en - st + 1 <= cap_of f /\ en - (mid st en + 1) + 1 <= cap_of f.
Proof.
  destruct f as [|f]; [simpl; lia|]. apply halves_fit.
Qed.

Lemma cap_of_mono f g : (f <= g)%nat -> cap_of f <= cap_of g.
Proof.
  destruct f as [|f], g as [|g]; unfold cap_of; try lia.
  intros. apply Z.pow_le_mono_r; lia.
Qed.

Lemma applyPending_with_ok upd bound node st en s v :
  update_ok upd bound -> 1 <= node -> st < en ->
  mid st en - st + 1 <= bound -> en - (mid st en + 1) + 1 <= bound ->
  Rep (okN:=okN) (okO:=okO) s node st en v ->
  runs (applyPending_with upd node st en) s (fun _ s' _ =>
    Rep (okN:=okN) (okO:=okO) s' (left node) st (mid st en) v /\
    Rep (okN:=okN) (okO:=okO) s' (right node) (mid st en + 1) en v /\
    at_ (hasPending s') node = Some false /\
    at_ (tree s') node = Some (range_agg v st en) /\
    is_Some (at_ (pending s') node) /\
    touches (sub node) s s').
Proof.
  intros Hupd Hn Hlt Hbl Hbr HR.
  inversion HR as [|? ? ? ? vc b p H0 _ Hl Hr Hh Hp Hv Ht]; subst; [lia|].
  pose proof (mid_bounds st en H0 Hlt) as Hmid.
  unfold applyPending_with.
  apply runs_bind. eapply runs_read_hasPending; [done|].
  destruct b.
  - destruct Hv as [Hokp Hv].
    apply runs_bind. eapply runs_read_pending; [done|].
    apply runs_bind. eapply runs_mono.
    { apply (Hupd (left node) st (mid st en) st en p s vc); [unfold left; lia|lia|done|done]. }
    intros _ s1 _ [HRl1 HT1]; simpl.
    destruct (same_at_child_l node s s1 Hn HT1) as (Ht1 & Hh1 & Hp1).
    apply runs_bind. eapply runs_read_pending; [by rewrite Hp1|].
    apply runs_bind. eapply runs_mono.
    { apply (Hupd (right node) (mid st en + 1) en st en p s1 vc); [unfold right; lia|lia|done|].
      by apply (Rep_touches_left s). }
    intros _ s2 _ [HRr2 HT2]; simpl.
    destruct (same_at_child_r node s1 s2 Hn HT2) as (Ht2 & Hh2 & Hp2).
    assert (is_Some (at_ (hasPending s2) node)) as Hs by (rewrite Hh2, Hh1, Hh; eauto).
    apply runs_write_hasPending; [done|].
    pose proof (touches_write_hasPending node false s2 Hs) as HT3.
    set (s3 := mkSegTree _ _ _ _) in *.
    split_and!.
    + apply (Rep_touches_parent_l s2); [done| |done].
      apply (Rep_touches_right s1); [done| |done].
      revert HRl1. apply Rep_ext. intros k Hk. unfold updated.
      rewrite decide_True by lia. symmetry. apply Hv. lia.
    + apply (Rep_touches_parent_r s2); [done| |done].
      revert HRr2. apply Rep_ext. intros k Hk. unfold updated.
      rewrite decide_True by lia. symmetry. apply Hv. lia.
    + simpl. by apply at_put_eq.
    + simpl. congruence.
    + simpl. rewrite Hp2, Hp1, Hp. eauto.
    + eapply touches_trans; [|apply touches_eq_sub, HT3].
      eapply touches_trans; [apply touches_left_sub, HT1|apply touches_right_sub, HT2].
  - apply runs_ret. split_and!; [| |done|done|by rewrite Hp|apply touches_refl].
    + revert Hl. apply Rep_ext. intros k Hk. symmetry. apply Hv. lia.
    + revert Hr. apply Rep_ext. intros k Hk. symmetry. apply Hv. lia.
Qed.

Lemma updated_inside i j op v k : i <= k <= j -> updated i j op v k = Op_apply op (v k) k k.
Proof. intros. unfold updated. by rewrite decide_True. Qed.

Lemma updated_outside i j op v k : ~ (i <= k <= j) -> updated i j op v k = v k.
Proof. intros. unfold updated. by rewrite decide_False. Qed.

Lemma update_rec_ok fuel : update_ok (update_rec fuel) (cap_of fuel).
Proof.
  induction fuel as [|f IH]; intros node st en i j op s v Hn Hlen Hop HR.
  { apply Rep_range in HR. simpl in Hlen. lia. }
  pose proof (Rep_range _ _ _ _ _ HR) as Hrange.
  pose proof (Rep_ok C _ _ _ _ _ HR) as Hok.
  cbn [update_rec]. apply runs_bind, runs_enter.
  destruct (decide (j < st \/ i > en)) as [Hdis|Hdis].
  { (* disjoint *)
    apply runs_ret. split; [|apply touches_refl].
    revert HR. apply Rep_ext. intros k Hk. rewrite updated_outside; [done|lia]. }
  destruct (decide (st = en)) as [->|Hne].
  { (* a single element *)
    apply runs_bind. eapply runs_read_tree; [by apply (Rep_tree C) in HR|].
    pose proof (Rep_tree C _ _ _ _ _ HR) as Ht.
    rewrite (range_agg_single C) in * by (apply Hok; lia).
    apply runs_write_tree; [by rewrite Ht|].
    split; [|apply touches_eq_sub, touches_write_tree; by rewrite Ht].
    apply Rep_leaf; [lia| |].
    - simpl. rewrite at_put_eq by (by rewrite Ht). by rewrite updated_inside by lia.
    - apply (ok_updated C); [done|]. apply Hok; lia. }
  inversion HR as [|? ? ? ? vc b p H0 Hlt Hl Hr Hh Hp Hv Ht]; subst; [lia|].
  pose proof (mid_bounds st en H0 Hlt) as Hmid.
  pose proof (Rep_ok C _ _ _ _ _ Hl) as Hokl.
  pose proof (Rep_ok C _ _ _ _ _ Hr) as Hokr.
  assert (forall k, st <= k <= en -> okN (vc k)) as Hokc.
  { intros k Hk. destruct (decide (k <= mid st en)); [apply Hokl|apply Hokr]; lia. }
  destruct (decide (st >= i /\ en <= j)) as [Hin|Hpart].
  { (* fully inside [i, j] *)
    apply runs_bind. eapply runs_read_tree; [done|].
    assert (Op_apply op (range_agg v st en) st en = range_agg (updated i j op v) st en) as ->.
    { rewrite (apply_range_agg C) by (done || lia).
      apply range_agg_ext. intros k Hk. by rewrite updated_inside by lia. }
    apply runs_bind, runs_write_tree; [by rewrite Ht|].
    pose proof (touches_write_tree node (range_agg (updated i j op v) st en) s
                  ltac:(by rewrite Ht)) as HT1.
    set (s1 := mkSegTree _ (put _ _ _) _ _) in *.
    apply runs_bind. eapply runs_read_hasPending; [exact Hh|].
    set (p' := if b then Op_merge p op st en else op).
    apply runs_bind with
      (Q := fun _ s' _ => Rep (okN:=okN) (okO:=okO) s' node st en (updated i j op v) /\
                          touches (sub node) s s').
    eapply runs_mono with (Q := fun r s' _ => r = p' /\ s' = s1).
    { destruct b; [|by apply runs_ret].
      apply runs_bind. eapply runs_read_pending; [exact Hp|]. by apply runs_ret. }
    intros ? ? _ [-> ->].
    assert (is_Some (at_ (pending s1) node)) as Hsp by (simpl; rewrite Hp; eauto).
    apply runs_bind, runs_write_pending; [done|].
    pose proof (touches_write_pending node p' s1 Hsp) as HT2.
    set (s2 := mkSegTree _ _ _ (put _ _ _)) in *.
    assert (is_Some (at_ (hasPending s2) node)) as Hsh by (simpl; rewrite Hh; eauto).
    apply runs_write_hasPending; [done|].
    pose proof (touches_write_hasPending node true s2 Hsh) as HT3.
    set (s3 := mkSegTree _ _ (put _ _ _) _) in *.
    assert (touches (eq node) s s3) as HT.
    { eapply touches_trans; [|exact HT3]. eapply touches_trans; [exact HT1|exact HT2]. }
    split; [|by apply touches_eq_sub].
    apply Rep_node with (vc := vc) (b := true) (p := p'); try done.
    - by apply (Rep_touches_parent_l s).
    - by apply (Rep_touches_parent_r s).
    - simpl. by apply at_put_eq.
    - simpl. by apply at_put_eq.
    - subst p'. destruct b.
      + destruct Hv as [Hokp Hv]. split; [apply (ok_merge _ _ C); (done || lia)|].
        intros k Hk. rewrite updated_inside by lia.
        rewrite (apply_merge _ _ C) by (done || lia || by apply Hokc).
        by rewrite Hv.
      + split; [done|]. intros k Hk. rewrite updated_inside by lia. by rewrite Hv.
    - simpl. by apply at_put_eq. }
  (* partial overlap *)
  destruct (halves_cap st en f H0 Hlt Hlen) as [Hcl Hcr].
  apply runs_bind. eapply runs_mono.
  { apply (applyPending_with_ok _ _ node st en s v IH); done. }
  intros _ s1 _ (HRl1 & HRr1 & Hh1 & Ht1 & Hp1 & HT1); simpl.
  apply runs_bind with (Q := fun _ s' _ =>
      Rep (okN:=okN) (okO:=okO) s' node st en (updated i j op v) /\ touches (sub node) s s').
  eapply runs_mono with (Q := fun _ s2 _ =>
      Rep (okN:=okN) (okO:=okO) s2 (left node) st (mid st en) (updated i j op v) /\
      touches (sub (left node)) s1 s2).
  { destruct (decide (i <= mid st en)).
    - apply IH; [unfold left; lia|lia|done|done].
    - apply runs_ret. split; [|apply touches_refl].
      revert HRl1. apply Rep_ext. intros k Hk. rewrite updated_outside; [done|lia]. }
  intros _ s2 _ [HRl2 HT2].
  apply runs_bind with (Q := fun _ s' _ =>
      Rep (okN:=okN) (okO:=okO) s' node st en (updated i j op v) /\ touches (sub node) s s').
  eapply runs_mono with (Q := fun _ s3 _ =>
      Rep (okN:=okN) (okO:=okO) s3 (right node) (mid st en + 1) en (updated i j op v) /\
      touches (sub (right node)) s2 s3).
  { pose proof (Rep_touches_left _ _ _ _ _ _ Hn HRr1 HT2) as HRr2.
    destruct (decide (j > mid st en)).
    - apply IH; [unfold right; lia|lia|done|done].
    - apply runs_ret. split; [|apply touches_refl].
      revert HRr2. apply Rep_ext. intros k Hk. rewrite updated_outside; [done|lia]. }
  intros _ s3 _ [HRr3 HT3].
  pose proof (Rep_touches_right _ _ _ _ _ _ Hn HRl2 HT3) as HRl3.
  destruct (same_at_child_l node s1 s2 Hn HT2) as (Ht2 & Hh2 & Hp2).
  destruct (same_at_child_r node s2 s3 Hn HT3) as (Ht3 & Hh3 & Hp3).
  apply runs_bind. eapply runs_read_tree; [by apply (Rep_tree C) in HRl3|].
  apply runs_bind. eapply runs_read_tree; [by apply (Rep_tree C) in HRr3|].
  assert (is_Some (at_ (tree s3) node)) as Hst by (rewrite Ht3, Ht2, Ht1; eauto).
  apply runs_write_tree; [done|].
  match goal with |- context [put (tree s3) node ?x] =>
    pose proof (touches_write_tree node x s3 Hst) as HT4 end.
  set (s4 := mkSegTree _ (put _ _ _) _ _) in *.
  split.
  - destruct Hp1 as [p1 Hp1].
    apply Rep_node with (vc := updated i j op v) (b := false) (p := p1); try done.
    + by apply (Rep_touches_parent_l s3).
    + by apply (Rep_touches_parent_r s3).
    + simpl. congruence.
    + simpl. congruence.
    + simpl. rewrite at_put_eq by done. f_equal. symmetry.
      apply (range_agg_split C); [lia|lia|].
      intros k Hk. apply (ok_updated C); [done|by apply Hok].
  - eapply touches_trans; [exact HT1|].
    eapply touches_trans; [apply touches_left_sub, HT2|].
    eapply touches_trans; [apply touches_right_sub, HT3|].
    apply touches_eq_sub, HT4.
Qed.

(** The part of [[i, j]] inside [[st, en]] is the part inside the left half
    followed by the part inside the right half. *)
Lemma range_agg_clip v st m en i j :
  st <= m -> m < en -> (forall k, st <= k <= en -> okN (v k)) ->
  Node_join (range_agg v (Z.max st i) (Z.min m j))
            (range_agg v (Z.max (m + 1) i) (Z.min en j)) =
  range_agg v (Z.max st i) (Z.min en j).
Proof.
  intros Hm Hen Hok.
  destruct (decide (j <= m)) as [Hj|Hj].
  - rewrite (range_agg_empty v (Z.max (m + 1) i)) by lia.
    rewrite (join_new_r _ _ C) by (apply (ok_range_agg C); intros; apply Hok; lia).
    f_equal; lia.
  - destruct (decide (m < i)) as [Hi|Hi].
    + rewrite (range_agg_empty v (Z.max st i)) by lia.
      rewrite (join_new_l _ _ C) by (apply (ok_range_agg C); intros; apply Hok; lia).
      f_equal; lia.
    + replace (Z.min m j) with m by lia. replace (Z.max (m + 1) i) with (m + 1) by lia.
      symmetry. apply (range_agg_split C); [lia|lia|]. intros; apply Hok; lia.
Qed.

Lemma applyPending_ok fuel node st en s v :
  1 <= node -> st < en -> en - st + 1 <= cap_of (S fuel) ->
  Rep (okN:=okN) (okO:=okO) s node st en v ->
  runs (applyPending fuel node st en) s (fun _ s' _ =>
    Rep (okN:=okN) (okO:=okO) s' (left node) st (mid st en) v /\
    Rep (okN:=okN) (okO:=okO) s' (right node) (mid st en + 1) en v /\
    at_ (hasPending s') node = Some false /\
    at_ (tree s') node = Some (range_agg v st en) /\
    is_Some (at_ (pending s') node) /\
    touches (sub node) s s').
Proof.
  intros Hn Hlt Hlen HR. pose proof (Rep_range _ _ _ _ _ HR).
  destruct (halves_cap st en fuel) as [Hcl Hcr]; [lia..|].
  by apply (applyPending_with_ok _ _ node st en s v (update_rec_ok fuel)).
Qed.

Lemma query_rec_ok fuel : forall node st en i j s v,
  1 <= node -> en - st + 1 <= cap_of fuel ->
  Rep (okN:=okN) (okO:=okO) s node st en v ->
  runs (query_rec fuel node st en i j) s (fun r s' _ =>
    r = range_agg v (Z.max st i) (Z.min en j) /\
    Rep (okN:=okN) (okO:=okO) s' node st en v /\
    touches (sub node) s s').
Proof.
  induction fuel as [|f IH]; intros node st en i j s v Hn Hlen HR.
  { apply Rep_range in HR. simpl in Hlen. lia. }
  pose proof (Rep_range _ _ _ _ _ HR) as Hrange.
  pose proof (Rep_ok C _ _ _ _ _ HR) as Hok.
  cbn [query_rec]. apply runs_bind, runs_enter.
  destruct (decide (j < st \/ i > en)) as [Hdis|Hdis].
  { apply runs_ret. split_and!; [|done|apply touches_refl].
    by rewrite range_agg_empty by lia. }
  destruct (decide (st >= i /\ en <= j)) as [Hin|Hpart].
  { eapply runs_read_tree; [by apply (Rep_tree C) in HR|].
    split_and!; [|done|apply touches_refl]. f_equal; lia. }
  assert (st < en) as Hlt by lia.
  pose proof (mid_bounds st en ltac:(lia) Hlt) as Hmid.
  destruct (halves_cap st en f) as [Hcl Hcr]; [lia..|].
  apply runs_bind. eapply runs_mono; [by apply applyPending_ok|].
  intros _ s1 _ (HRl1 & HRr1 & Hh1 & Ht1 & [p1 Hp1] & HT1); simpl.
  apply runs_bind. eapply runs_mono.
  { apply (IH (left node) st (mid st en) i j s1 v); [unfold left; lia|lia|done]. }
  intros r1 s2 _ (-> & HRl2 & HT2); simpl.
  pose proof (Rep_touches_left _ _ _ _ _ _ Hn HRr1 HT2) as HRr2.
  destruct (same_at_child_l node s1 s2 Hn HT2) as (Ht2 & Hh2 & Hp2).
  apply runs_bind. eapply runs_mono.
  { apply (IH (right node) (mid st en + 1) en i j s2 v); [unfold right; lia|lia|done]. }
  intros r2 s3 _ (-> & HRr3 & HT3); simpl.
  pose proof (Rep_touches_right _ _ _ _ _ _ Hn HRl2 HT3) as HRl3.
  destruct (same_at_child_r node s2 s3 Hn HT3) as (Ht3 & Hh3 & Hp3).
  apply runs_ret. split_and!.
  - apply range_agg_clip; (done || lia).
  - apply Rep_node with (vc := v) (b := false) (p := p1); try done; try lia; congruence.
  - eapply touches_trans; [exact HT1|].
    eapply touches_trans; [apply touches_left_sub, HT2|apply touches_right_sub, HT3].
Qed.

End Correct.

(** ** The public operations *)

Lemma height_pow n : 1 <= n -> n <= 2 ^ Z.of_nat (Z.to_nat (Z.log2_up n)).
Proof.
  intros. rewrite Z2Nat.id by apply Z.log2_up_nonneg.
  destruct (decide (n = 1)) as [->|]; [done|].
  apply Z.log2_up_spec. lia.
Qed.

Lemma height_cap n fuel : 1 <= n -> (height n <= fuel)%nat -> n <= cap_of fuel.
Proof.
  intros Hn Hf. etrans; [by apply height_pow|].
  apply (cap_of_mono (height n) fuel Hf).
Qed.

Lemma height_arena n : 1 <= n -> 2 * 2 ^ Z.of_nat (Z.to_nat (Z.log2_up n)) <= 4 * n.
Proof.
  intros. rewrite Z2Nat.id by apply Z.log2_up_nonneg.
  destruct (decide (n = 1)) as [->|]; [done|].
  pose proof (Z.log2_up_spec n ltac:(lia)) as [Hlo _].
  pose proof (Z.log2_up_pos n ltac:(lia)).
  assert (2 ^ Z.log2_up n = 2 * 2 ^ Z.pred (Z.log2_up n)).
  { rewrite <- Z.pow_succ_r by lia. f_equal. lia. }
  lia.
Qed.

(** ** Termination and bounds, whatever the parameters do *)

Section Shape.
Context {Node Op : Type} `{!Aggregate Node} `{!Update Node Op}.
Implicit Types s : SegTree Node Op.

Lemma fits_slot cap node st en h : fits cap node st en h -> 1 <= node < cap.
Proof.
  intros (? & ? & ? & ?).
  assert (0 < 2 ^ Z.of_nat h) by (apply Z.pow_pos_nonneg; lia). nia.
Qed.

Lemma fits_children cap node st en h :
  fits cap node st en h -> st < en ->
  exists h', h = S h' /\
    fits cap (left node) st (mid st en) h' /\
    fits cap (right node) (mid st en + 1) en h'.
Proof.
  intros (Hn & Hr & Hlen & Hcap) Hlt.
  destruct h as [|h']; [simpl in Hlen; lia|]. exists h'. split; [done|].
  pose proof (mid_bounds st en ltac:(lia) Hlt).
  destruct (halves_fit st en h') as [Hl Hr']; [lia..|].
  rewrite Nat2Z.inj_succ, Z.pow_succ_r in Hcap by lia.
  assert (0 < 2 ^ Z.of_nat h') by (apply Z.pow_pos_nonneg; lia).
  unfold fits, left, right. split_and!; try lia.
Qed.

Lemma fits_root n : 1 <= n -> fits (4 * n + 1) 1 0 (n - 1) (Z.to_nat (Z.log2_up n)).
Proof.
  intros Hn. pose proof (height_pow n Hn). pose proof (height_arena n Hn).
  unfold fits. split_and!; lia.
Qed.

Lemma within_app lo cap l1 l2 : within lo cap l1 -> within lo cap l2 -> within lo cap (l1 ++ l2).
Proof. intros. by apply Forall_app. Qed.

Lemma within_mono lo lo' cap l : lo <= lo' -> within lo' cap l -> within lo cap l.
Proof. intros Hlo. apply List.Forall_impl. intros d. lia. Qed.

Lemma tidy_ret {A} cap lo (a : A) s : capacity cap s -> tidy cap lo (mret a) s.
Proof. intros. apply runs_ret. split_and!; [done..|apply List.Forall_nil]. Qed.

Lemma tidy_bind {A B} cap lo (m : M Node Op A) (f : A -> M Node Op B) s :
  tidy cap lo m s ->
  (forall a s1, capacity cap s1 -> size s1 = size s -> tidy cap lo (f a) s1) ->
  tidy cap lo (m ≫= f) s.
Proof.
  intros Hm Hf. apply runs_bind. eapply runs_mono; [exact Hm|].
  intros a s1 l1 (Hc1 & Hs1 & Hl1). eapply runs_mono; [by apply Hf|].
  intros b s2 l2 (Hc2 & Hs2 & Hl2). split_and!; [done|congruence|by apply within_app].
Qed.

Lemma tidy_mono {A} cap lo lo' (m : M Node Op A) s :
  lo <= lo' -> tidy cap lo' m s -> tidy cap lo m s.
Proof.
  intros Hlo Hm. eapply runs_mono; [exact Hm|].
  intros a s' l (? & ? & ?). split_and!; [done..|by apply (within_mono lo lo')].
Qed.

Lemma within_one lo cap e : lo <= slot e < cap -> within lo cap [e].
Proof. intros. apply List.Forall_cons; [done|apply List.Forall_nil]. Qed.

Lemma tidy_read_tree cap lo node s :
  capacity cap s -> 0 <= lo <= node -> node < cap -> tidy cap lo (read_tree node) s.
Proof.
  intros Hc Hlo Hn. pose proof Hc as (Ht & _ & _).
  destruct (proj2 (at_is_Some (tree s) node) ltac:(lia)) as [x Hx].
  eapply runs_read_tree; [exact Hx|]. split_and!; [done..|apply within_one; simpl; lia].
Qed.

Lemma tidy_write_tree cap lo node x s :
  capacity cap s -> 0 <= lo <= node -> node < cap -> tidy cap lo (write_tree node x) s.
Proof.
  intros Hc Hlo Hn. pose proof Hc as (Ht & Hh & Hp).
  apply runs_write_tree; [apply at_is_Some; lia|].
  split_and!; [|done|apply within_one; simpl; lia].
  unfold capacity; simpl. by rewrite length_put.
Qed.

Lemma tidy_read_hasPending cap lo node s :
  capacity cap s -> 0 <= lo <= node -> node < cap -> tidy cap lo (read_hasPending node) s.
Proof.
  intros Hc Hlo Hn. pose proof Hc as (_ & Hh & _).
  destruct (proj2 (at_is_Some (hasPending s) node) ltac:(lia)) as [x Hx].
  eapply runs_read_hasPending; [exact Hx|]. split_and!; [done..|apply within_one; simpl; lia].
Qed.

Lemma tidy_write_hasPending cap lo node b s :
  capacity cap s -> 0 <= lo <= node -> node < cap ->
  tidy cap lo (write_hasPending node b) s.
Proof.
  intros Hc Hlo Hn. pose proof Hc as (Ht & Hh & Hp).
  apply runs_write_hasPending; [apply at_is_Some; lia|].
  split_and!; [|done|apply within_one; simpl; lia].
  unfold capacity; simpl. by rewrite length_put.
Qed.

Lemma tidy_read_pending cap lo node s :
  capacity cap s -> 0 <= lo <= node -> node < cap -> tidy cap lo (read_pending node) s.
Proof.
  intros Hc Hlo Hn. pose proof Hc as (_ & _ & Hp).
  destruct (proj2 (at_is_Some (pending s) node) ltac:(lia)) as [x Hx].
  eapply runs_read_pending; [exact Hx|]. split_and!; [done..|apply within_one; simpl; lia].
Qed.

Lemma tidy_write_pending cap lo node p s :
  capacity cap s -> 0 <= lo <= node -> node < cap ->
  tidy cap lo (write_pending node p) s.
Proof.
  intros Hc Hlo Hn. pose proof Hc as (Ht & Hh & Hp).
  apply runs_write_pending; [apply at_is_Some; lia|].
  split_and!; [|done|apply within_one; simpl; lia].
  unfold capacity; simpl. by rewrite length_put.
Qed.

Lemma tidy_enter cap lo node s :
  capacity cap s -> 0 <= lo <= node -> node < cap -> tidy cap lo (enter node) s.
Proof. intros. apply runs_enter. split_and!; [done..|apply within_one; simpl; lia]. Qed.

Local Ltac tidy_step :=
  first
    [ apply tidy_ret | apply tidy_enter
    | apply tidy_read_tree | apply tidy_write_tree
    | apply tidy_read_hasPending | apply tidy_write_hasPending
    | apply tidy_read_pending | apply tidy_write_pending ];
  try done; unfold left, right in *; try lia.

Local Ltac tidy_seq a s1 Hc1 := apply tidy_bind; [|intros a s1 Hc1 _].

Lemma applyPending_with_tidy upd cap h node st en s :
  update_tidy upd cap h -> fits cap node st en (S h) -> st < en -> capacity cap s ->
  tidy cap node (applyPending_with upd node st en) s.
Proof.
  intros Hupd Hfit Hlt Hc.
  destruct (fits_children _ _ _ _ _ Hfit Hlt) as (h' & [= <-] & Hfl & Hfr).
  pose proof (fits_slot _ _ _ _ _ Hfit).
  unfold applyPending_with.
  tidy_seq b s1 Hc1; [tidy_step|]. destruct b; [|tidy_step].
  tidy_seq p s2 Hc2; [tidy_step|].
  tidy_seq u s3 Hc3.
  { apply (tidy_mono cap node (left node)); [unfold left; lia|]. by apply Hupd. }
  tidy_seq p' s4 Hc4; [tidy_step|].
  tidy_seq u' s5 Hc5.
  { apply (tidy_mono cap node (right node)); [unfold right; lia|]. by apply Hupd. }
  tidy_step.
Qed.

Lemma update_rec_tidy cap fuel : forall h, (h < fuel)%nat -> update_tidy (update_rec fuel) cap h.
Proof.
  induction fuel as [|f IH]; intros h Hh node st en i j op s Hfit Hc; [lia|].
  pose proof (fits_slot _ _ _ _ _ Hfit).
  cbn [update_rec].
  tidy_seq u0 s0 Hc0; [tidy_step|]. clear dependent s. rename s0 into s, Hc0 into Hc.
  destruct (decide (j < st \/ i > en)); [tidy_step|].
  destruct (decide (st = en)).
  { tidy_seq x s1 Hc1; tidy_step. }
  destruct (decide (st >= i /\ en <= j)).
  { tidy_seq x s1 Hc1; [tidy_step|].
    tidy_seq u s2 Hc2; [tidy_step|].
    tidy_seq b s3 Hc3; [tidy_step|].
    tidy_seq p' s4 Hc4.
    { destruct b; [|tidy_step]. tidy_seq p s4 Hc4; tidy_step. }
    tidy_seq u' s5 Hc5; tidy_step. }
  assert (st < en) as Hlt by (destruct Hfit as (_ & ? & _); lia).
  destruct (fits_children _ _ _ _ _ Hfit Hlt) as (h' & -> & Hfl & Hfr).
  tidy_seq u s1 Hc1.
  { apply (applyPending_with_tidy _ cap h'); try done. apply IH. lia. }
  tidy_seq u1 s2 Hc2.
  { destruct (decide (i <= mid st en)); [|tidy_step].
    apply (tidy_mono cap node (left node)); [unfold left; lia|]. apply (IH h'); [lia|done..]. }
  tidy_seq u2 s3 Hc3.
  { destruct (decide (j > mid st en)); [|tidy_step].
    apply (tidy_mono cap node (right node)); [unfold right; lia|]. apply (IH h'); [lia|done..]. }
  pose proof (fits_slot _ _ _ _ _ Hfl). pose proof (fits_slot _ _ _ _ _ Hfr).
  tidy_seq l s4 Hc4; [tidy_step|].
  tidy_seq r s5 Hc5; tidy_step.
Qed.

Lemma query_rec_tidy cap fuel : forall h node st en i j s,
  (h < fuel)%nat -> fits cap node st en h -> capacity cap s ->
  tidy cap node (query_rec fuel node st en i j) s.
Proof.
  induction fuel as [|f IH]; intros h node st en i j s Hh Hfit Hc; [lia|].
  pose proof (fits_slot _ _ _ _ _ Hfit).
  cbn [query_rec].
  tidy_seq u0 s0 Hc0; [tidy_step|]. clear dependent s. rename s0 into s, Hc0 into Hc.
  destruct (decide (j < st \/ i > en)); [tidy_step|].
  destruct (decide (st >= i /\ en <= j)); [tidy_step|].
  assert (st < en) as Hlt by (destruct Hfit as (_ & ? & _); lia).
  destruct (fits_children _ _ _ _ _ Hfit Hlt) as (h' & -> & Hfl & Hfr).
  tidy_seq u s1 Hc1.
  { apply (applyPending_with_tidy _ cap h'); try done. apply update_rec_tidy. lia. }
  tidy_seq p1 s2 Hc2.
  { apply (tidy_mono cap node (left node)); [unfold left; lia|]. apply (IH h'); [lia|done..]. }
  tidy_seq p2 s3 Hc3.
  { apply (tidy_mono cap node (right node)); [unfold right; lia|]. apply (IH h'); [lia|done..]. }
  tidy_step.
Qed.

End Shape.

(** ** What [build] builds *)

Section Build.
Context {Node Op : Type} `{!Aggregate Node} `{!Update Node Op}.
Implicit Types s : SegTree Node Op.

Lemma Built_touches (T : Z -> Prop) s s' arr node st en :
  1 <= node -> Built s arr node st en -> touches T s s' ->
  (forall d, sub node d -> ~ T d) -> Built s' arr node st en.
Proof.
  intros Hn HB (_ & _ & _ & _ & HT). revert Hn.
  induction HB as [node st x ? ? ?|node st en l r ? ? _ IHl _ IHr Hl Hr Ht];
    intros Hn Hdis.
  - destruct (HT node) as (Ht & _ & _); [apply Hdis, sub_refl|].
    apply Built_leaf with (x := x); [done..|]. by rewrite Ht.
  - destruct (HT node) as (Ht' & _ & _); [apply Hdis, sub_refl|].
    destruct (HT (left node)) as (Htl & _ & _); [apply Hdis, sub_left, sub_refl|].
    destruct (HT (right node)) as (Htr & _ & _); [apply Hdis, sub_right, sub_refl|].
    apply Built_node with (l := l) (r := r); try done; try congruence.
    + apply IHl; [unfold left; lia|]. intros d Hd. by apply Hdis, sub_left.
    + apply IHr; [unfold right; lia|]. intros d Hd. by apply Hdis, sub_right.
Qed.

Local Ltac each_within :=
  unfold within in *;
  repeat first [apply Forall_app; split | apply List.Forall_cons | apply List.Forall_nil];
  simpl; try done; try lia.

Lemma build_rec_built arr cap fuel : forall (h : nat) node st en s,
  (h < fuel)%nat -> fits cap node st en h -> capacity cap s ->
  (forall k, st <= k <= en -> is_Some (at_ arr k)) ->
  runs (build_rec fuel arr node st en) s (fun _ s' l =>
    Built s' arr node st en /\ touches (sub node) s s' /\
    hasPending s' = hasPending s /\ pending s' = pending s /\
    within node cap l).
Proof.
  induction fuel as [|f IH]; intros h node st en s Hh Hfit Hc Hseed; [lia|].
  pose proof (fits_slot _ _ _ _ _ Hfit) as Hslot.
  pose proof Hfit as (Hn & Hrange & _).
  pose proof Hc as (Hct & _ & _).
  assert (is_Some (at_ (tree s) node)) as Hst by (apply at_is_Some; lia).
  cbn [build_rec]. apply runs_bind, runs_enter.
  destruct (decide (st = en)) as [->|Hne].
  { destruct (Hseed en ltac:(lia)) as [x Hx].
    apply runs_bind. eapply runs_read_arr; [exact Hx|].
    apply runs_write_tree; [done|].
    split_and!; try done.
    - apply Built_leaf with (x := x); [lia|done|]. simpl. by apply at_put_eq.
    - by apply touches_eq_sub, touches_write_tree.
    - each_within. }
  assert (st < en) as Hlt by lia.
  pose proof (mid_bounds st en ltac:(lia) Hlt) as Hmid.
  destruct (fits_children _ _ _ _ _ Hfit Hlt) as (h' & -> & Hfl & Hfr).
  apply runs_bind. eapply runs_mono.
  { apply (IH h' (left node) st (mid st en) s); [lia|done|done|].
    intros k Hk. apply Hseed. lia. }
  intros _ s1 l1 (HBl1 & HT1 & Hh1 & Hp1 & Hw1); simpl.
  assert (capacity cap s1) as Hc1.
  { destruct HT1 as (_ & ? & ? & ? & _), Hc as (? & ? & ?). unfold capacity. lia. }
  apply runs_bind. eapply runs_mono.
  { apply (IH h' (right node) (mid st en + 1) en s1); [lia|done|done|].
    intros k Hk. apply Hseed. lia. }
  intros _ s2 l2 (HBr2 & HT2 & Hh2 & Hp2 & Hw2); simpl.
  assert (Built s2 arr (left node) st (mid st en)) as HBl2.
  { eapply Built_touches; [|exact HBl1|exact HT2|]; [unfold left; lia|].
    intros d Hl Hr. by apply (sub_disjoint node d). }
  destruct (same_at_child_l node s s1 Hn HT1) as (Ht1 & _ & _).
  destruct (same_at_child_r node s1 s2 Hn HT2) as (Ht2 & _ & _).
  assert (exists l, at_ (tree s2) (left node) = Some l) as [l Hl].
  { inversion HBl2; eauto. }
  assert (exists r, at_ (tree s2) (right node) = Some r) as [r Hr].
  { inversion HBr2; eauto. }
  apply runs_bind. eapply runs_read_tree; [exact Hl|].
  apply runs_bind. eapply runs_read_tree; [exact Hr|].
  assert (is_Some (at_ (tree s2) node)) as Hst2 by (by rewrite Ht2, Ht1).
  apply runs_write_tree; [done|].
  pose proof (touches_write_tree node (Node_join l r) s2 Hst2) as HT3.
  set (s3 := mkSegTree _ (put _ _ _) _ _) in *.
  pose proof (fits_slot _ _ _ _ _ Hfl). pose proof (fits_slot _ _ _ _ _ Hfr).
  assert (forall d, sub (left node) d \/ sub (right node) d -> node <> d) as Hbelow.
  { intros d [Hd|Hd] <-; [by apply (not_sub_left_self node)|by apply (not_sub_right_self node)]. }
  split_and!.
  - destruct HT3 as (_ & _ & _ & _ & HT3).
    destruct (HT3 (left node)) as (Htl & _ & _); [apply Hbelow; left; apply sub_refl|].
    destruct (HT3 (right node)) as (Htr & _ & _); [apply Hbelow; right; apply sub_refl|].
    apply Built_node with (l := l) (r := r); try done; try lia; try congruence.
    + eapply Built_touches; [|exact HBl2|apply (touches_write_tree node (Node_join l r) s2 Hst2)|];
        [unfold left; lia|]. intros d Hd. apply Hbelow. by left.
    + eapply Built_touches; [|exact HBr2|apply (touches_write_tree node (Node_join l r) s2 Hst2)|];
        [unfold right; lia|]. intros d Hd. apply Hbelow. by right.
    + simpl. by apply at_put_eq.
  - eapply touches_trans; [apply touches_left_sub, HT1|].
    eapply touches_trans; [apply touches_right_sub, HT2|apply touches_eq_sub, HT3].
  - simpl. congruence.
  - simpl. congruence.
  - pose proof (within_mono node (left node) cap l1 ltac:(unfold left; lia) Hw1).
    pose proof (within_mono node (right node) cap l2 ltac:(unfold right; lia) Hw2).
    unfold left, right in *. each_within.
Qed.

(** What [build] has built when it completes, whatever the capacity. *)
Lemma build_rec_safe arr fuel : forall node st en s,
  1 <= node -> 0 <= st -> st <= en ->
  safe (build_rec fuel arr node st en) s (fun _ s' _ =>
    Built s' arr node st en /\ touches (sub node) s s' /\
    hasPending s' = hasPending s /\ pending s' = pending s).
Proof.
  induction fuel as [|f IH]; intros node st en s Hn Hst Hle; [done|].
  cbn [build_rec]. apply safe_bind, safe_enter.
  destruct (decide (st = en)) as [->|Hne].
  { apply safe_bind, safe_read_arr. intros x Hx.
    apply safe_write_tree. intros Hs. split_and!; try done.
    - apply Built_leaf with (x := x); [lia|done|]. simpl. by apply at_put_eq.
    - by apply touches_eq_sub, touches_write_tree. }
  assert (st < en) as Hlt by lia.
  pose proof (mid_bounds st en Hst Hlt) as Hmid.
  apply safe_bind. eapply safe_mono; [apply IH; [unfold left; lia|lia|lia]|].
  intros _ s1 _ (HBl1 & HT1 & Hh1 & Hp1); simpl.
  apply safe_bind. eapply safe_mono; [apply IH; [unfold right; lia|lia|lia]|].
  intros _ s2 _ (HBr2 & HT2 & Hh2 & Hp2); simpl.
  assert (Built s2 arr (left node) st (mid st en)) as HBl2.
  { eapply Built_touches; [|exact HBl1|exact HT2|]; [unfold left; lia|].
    intros d Hl Hr. by apply (sub_disjoint node d). }
  apply safe_bind, safe_read_tree. intros l Hl.
  apply safe_bind, safe_read_tree. intros r Hr.
  apply safe_write_tree. intros Hst2.
  pose proof (touches_write_tree node (Node_join l r) s2 Hst2) as HT3.
  set (s3 := mkSegTree _ (put _ _ _) _ _) in *.
  assert (forall d, sub (left node) d \/ sub (right node) d -> node <> d) as Hbelow.
  { intros d [Hd|Hd] <-; [by apply (not_sub_left_self node)|by apply (not_sub_right_self node)]. }
  split_and!.
  - destruct HT3 as (_ & _ & _ & _ & HT3').
    destruct (HT3' (left node)) as (Htl & _ & _); [apply Hbelow; left; apply sub_refl|].
    destruct (HT3' (right node)) as (Htr & _ & _); [apply Hbelow; right; apply sub_refl|].
    apply Built_node with (l := l) (r := r); try done; try lia; try congruence.
    + eapply Built_touches; [|exact HBl2|apply (touches_write_tree node (Node_join l r) s2 Hst2)|];
        [unfold left; lia|]. intros d Hd. apply Hbelow. by left.
    + eapply Built_touches; [|exact HBr2|apply (touches_write_tree node (Node_join l r) s2 Hst2)|];
        [unfold right; lia|]. intros d Hd. apply Hbelow. by right.
    + simpl. by apply at_put_eq.
  - eapply touches_trans; [apply touches_left_sub, HT1|].
    eapply touches_trans; [apply touches_right_sub, HT2|apply touches_eq_sub, HT3].
  - simpl. congruence.
  - simpl. congruence.
Qed.

End Build.

(** Under the contract, what [build] builds stands for the seed. *)
Section BuildCorrect.
Context {Node Op : Type} `{!Aggregate Node} `{!Update Node Op}.
Context {okN : Node -> Prop} {okO : Op -> Prop} (C : Contract okN okO).
Implicit Types s : SegTree Node Op.
Local Abbreviation seed_ok := (seed_ok (okN:=okN)).

Lemma Built_Rep s arr node st en :
  Built s arr node st en ->
  length (hasPending s) = length (tree s) ->
  length (pending s) = length (tree s) ->
  (forall d b, at_ (hasPending s) d = Some b -> b = false) ->
  seed_ok arr st en ->
  Rep (okN:=okN) (okO:=okO) s node st en (seed_value arr).
Proof.
  intros HB Hlh Hlp Hfalse.
  induction HB as [node st x ? Hx Ht|node st en l r ? ? HBl IHl HBr IHr Hl Hr Ht];
    intros Hseed.
  - destruct (Hseed st ltac:(lia)) as (x' & Hx' & Hok).
    assert (x' = x) as -> by congruence.
    apply Rep_leaf; unfold seed_value; rewrite ?Hx; done.
  - pose proof (mid_bounds st en ltac:(lia) ltac:(lia)) as Hmid.
    assert (Rep (okN:=okN) (okO:=okO) s (left node) st (mid st en) (seed_value arr)) as HRl.
    { apply IHl. intros k Hk. apply Hseed. lia. }
    assert (Rep (okN:=okN) (okO:=okO) s (right node) (mid st en + 1) en (seed_value arr)) as HRr.
    { apply IHr. intros k Hk. apply Hseed. lia. }
    assert (0 <= node < Z.of_nat (length (tree s))) as Hnode.
    { apply at_is_Some. by rewrite Ht. }
    assert (is_Some (at_ (hasPending s) node)) as [b Hb] by (apply at_is_Some; lia).
    assert (is_Some (at_ (pending s) node)) as [p Hp] by (apply at_is_Some; lia).
    pose proof (Hfalse _ _ Hb) as ->.
    apply Rep_node with (vc := seed_value arr) (b := false) (p := p); try done.
    rewrite Ht. f_equal.
    pose proof (Rep_tree C _ _ _ _ _ HRl) as Hl'.
    pose proof (Rep_tree C _ _ _ _ _ HRr) as Hr'.
    assert (l = range_agg (seed_value arr) st (mid st en)) as -> by congruence.
    assert (r = range_agg (seed_value arr) (mid st en + 1) en) as -> by congruence.
    symmetry. apply (range_agg_split C); [lia|lia|].
    intros k Hk. destruct (Hseed k Hk) as (x & Hx & Hok). unfold seed_value. by rewrite Hx.
Qed.

End BuildCorrect.

Section Public.
Context {Node Op : Type} `{!Aggregate Node} `{!Update Node Op}.
Context {okN : Node -> Prop} {okO : Op -> Prop} (C : Contract okN okO).
Implicit Types s : SegTree Node Op.
Implicit Types v : Z -> Node.
Local Abbreviation stands_for := (stands_for (okN:=okN) (okO:=okO)).
Local Abbreviation reachable := (reachable (okN:=okN) (okO:=okO)).

Lemma stands_for_ok s v k : stands_for s v -> 0 <= k < size s -> okN (v k).
Proof. intros [_ HR] Hk. apply (Rep_ok C _ _ _ _ _ HR). lia. Qed.

Lemma construct_ok fuel n arr :
  1 <= n -> 4 * n + 1 <= INT_MAX ->
  (height n <= fuel)%nat -> seed_ok (okN:=okN) arr 0 (n - 1) ->
  exists s log, construct fuel n arr = Done tt s log /\
    size s = n /\ stands_for s (seed_value arr) /\
    length (tree s) = Z.to_nat (4 * n + 1) /\
    length (hasPending s) = Z.to_nat (4 * n + 1) /\
    length (pending s) = Z.to_nat (4 * n + 1).
Proof.
  intros Hn Hcap Hf Hseed. unfold construct.
  rewrite SegTree_new_fits by lia.
  set (s0 := mkSegTree _ _ _ _).
  assert (capacity (4 * n + 1) s0) as Hc0.
  { unfold capacity, s0, resize; simpl. rewrite !length_replicate. lia. }
  assert (forall d b, at_ (hasPending s0) d = Some b -> b = false) as Hfalse.
  { intros d b Hd. unfold at_, s0, resize in Hd; simpl in Hd. case_decide; [|done].
    by apply lookup_replicate in Hd as [-> _]. }
  assert (Z.to_nat (Z.log2_up n) < fuel)%nat as Hfuel by (unfold height in Hf; lia).
  assert (forall k, 0 <= k <= n - 1 -> is_Some (at_ arr k)) as Harr.
  { intros k Hk. destruct (Hseed k Hk) as (x & -> & _). eauto. }
  destruct (runs_unit _ _ _ (build_rec_built arr (4 * n + 1) fuel _ 1 0 (n - 1) s0
      Hfuel (fits_root n Hn) Hc0 Harr))
    as (s1 & l1 & Hrun & HB & HT & Hh & Hp & _).
  unfold build, mbind, M_mbind, M_bind, get_size. simpl. rewrite Hrun.
  destruct HT as (Hsz & Hlt & Hlh & Hlp & _), Hc0 as (Hc0t & Hc0h & Hc0p).
  exists s1, l1. split_and!; try done; try lia.
  split; rewrite Hsz; simpl; [lia|].
  apply (Built_Rep C); try done; try lia.
  intros d b. rewrite Hh. apply Hfalse.
Qed.

Lemma query_ok fuel i j s v :
  stands_for s v -> (height (size s) <= fuel)%nat ->
  runs (query fuel i j) s (fun r s' _ =>
    r = range_agg v (Z.max 0 i) (Z.min (size s - 1) j) /\
    stands_for s' v /\ size s' = size s).
Proof.
  intros [Hn HR] Hf. unfold query.
  apply runs_bind, runs_get_size. eapply runs_mono.
  { apply (query_rec_ok C fuel 1 0 (size s - 1) i j s v); [lia| |done].
    pose proof (height_cap (size s) fuel Hn Hf). lia. }
  intros r s' _ (-> & HR' & HT). destruct HT as (Hsz & _).
  split_and!; [done| |done]. split; rewrite Hsz; done.
Qed.

Lemma update_ok_public fuel i j op s v :
  stands_for s v -> okO op -> (height (size s) <= fuel)%nat ->
  runs (update fuel i j op) s (fun _ s' _ =>
    stands_for s' (updated i j op v) /\ size s' = size s).
Proof.
  intros [Hn HR] Hop Hf. unfold update.
  apply runs_bind, runs_get_size. eapply runs_mono.
  { apply (update_rec_ok C fuel 1 0 (size s - 1) i j op s v); [lia| |done|done].
    pose proof (height_cap (size s) fuel Hn Hf). lia. }
  intros _ s' _ (HR' & HT). destruct HT as (Hsz & _).
  split; [|done]. split; rewrite Hsz; done.
Qed.

(** A tree that the constructor has built stands for its seed. *)
Lemma construct_Done_stands_for fuel n arr s log :
  1 <= n -> seed_ok (okN:=okN) arr 0 (n - 1) ->
  construct fuel n arr = Done tt s log -> stands_for s (seed_value arr).
Proof.
  intros Hn Hseed Hrun. unfold construct, SegTree_new in Hrun.
  case_decide; [done|].
  set (s0 := mkSegTree _ _ _ _) in Hrun.
  unfold build, mbind, M_mbind, M_bind, get_size in Hrun.
  change (size s0) with n in Hrun.
  pose proof (build_rec_safe arr fuel 1 0 (n - 1) s0 ltac:(lia) ltac:(lia) ltac:(lia)) as Hb.
  unfold safe in Hb.
  destruct (build_rec fuel arr 1 0 (n - 1) s0) as [[] s1 l1| | |]; try done.
  injection Hrun as <- _. destruct Hb as (HB & (Hsz & Hlt & Hlh & Hlp & _) & Hh & Hp).
  change (size s0) with n in Hsz.
  split; rewrite Hsz; [done|].
  apply (Built_Rep C); try done.
  - rewrite Hlh, Hlt. unfold s0, resize; simpl. by rewrite !length_replicate.
  - rewrite Hlp, Hlt. unfold s0, resize; simpl. by rewrite !length_replicate.
  - intros d b. rewrite Hh. intros Hd.
    unfold at_, s0, resize in Hd; simpl in Hd. case_decide; [|done].
    by apply lookup_replicate in Hd as [-> _].
Qed.

Lemma reachable_stands_for s : reachable s -> exists v, stands_for s v.
Proof.
  induction 1 as [fuel n arr s log Hn Hf Hseed Hrun
                 |fuel i j op s s' log _ [v Hv] Hop Hf Hrun
                 |fuel i j s r s' log _ [v Hv] Hf Hrun].
  - exists (seed_value arr). by apply (construct_Done_stands_for fuel n arr s log).
  - pose proof (update_ok_public fuel i j op s v Hv Hop Hf) as Hu.
    unfold runs in Hu. rewrite Hrun in Hu. exists (updated i j op v). tauto.
  - pose proof (query_ok fuel i j s v Hv Hf) as Hq.
    unfold runs in Hq. rewrite Hrun in Hq. exists v. tauto.
Qed.

End Public.

(** ** What the min/max instantiation promises

    [Node()] is [(INF, -INF)] with [INF = 1e9]: it is neutral for [join]
    only on the aggregates whose minimum is at most [INF] and whose maximum
    is at least [-INF].  Overwriting with a value between [-INF] and [INF]
    keeps the aggregates there; adding does not. *)

Module MinMaxLaws.
Import MinMax MinMaxTree.

Lemma Node_eq a b : minVal a = minVal b -> maxVal a = maxVal b -> a = b.
Proof. destruct a, b; simpl; congruence. Qed.

Lemma apply_set op x a b : code op = "s"%char -> apply op x a b = mkNode (arg op) (arg op).
Proof. unfold apply. by intros ->. Qed.

Local Ltac crush :=
  unfold okN, okO, join, Node_default, Node_single, INF in *; simpl in *; lia.

Lemma contract nop : @Contract Node Op Node_aggregate (Op_update nop) okN okO.
Proof.
  split; simpl.
  - crush.
  - intros x y ? ?. crush.
  - intros x y z _ _ _. apply Node_eq; crush.
  - intros x ?. apply Node_eq; crush.
  - intros x ?. apply Node_eq; crush.
  - intros op x a b [Hc ?] _ _. rewrite apply_set by done. crush.
  - intros op x y a m b [Hc ?] _ _ _ _. rewrite !apply_set by done.
    apply Node_eq; crush.
  - intros p q a b _ [Hc ?] _. unfold merge. rewrite Hc. simpl. by split.
  - intros p q x st en a b _ [Hc ?] _ _ _ _. unfold merge. rewrite Hc. simpl.
    by rewrite !apply_set.
Qed.

Lemma seed_ok_zeros n : seed_ok (okN:=okN) (replicate n 0) 0 (Z.of_nat n - 1).
Proof.
  intros k Hk. exists 0. split.
  - unfold at_. rewrite decide_True by lia. apply lookup_replicate_2. lia.
  - crush.
Qed.

Lemma four_reachable : @reachable _ _ _ U okN okO four.
Proof.
  apply (reach_construct (okO:=okO) 3 4 [0; 0; 0; 0] four
           (log_of (construct (Update0:=U) 3 4 [0; 0; 0; 0]))).
  - lia.
  - vm_compute. lia.
  - apply (seed_ok_zeros 4).
  - reflexivity.
Defined.

End MinMaxLaws.

(** ** The claims *)

Section Claims.
Context {Node Op : Type} `{!Aggregate Node} `{!Update Node Op}.
Context {okN : Node -> Prop} {okO : Op -> Prop} (C : Contract okN okO).
Implicit Types s : SegTree Node Op.

Lemma runs_retval {A} (m : M Node Op A) s (Q : A -> SegTree Node Op -> list event -> Prop) :
  runs m s Q -> exists a s' l, m s = Done a s' l /\ retval (m s) = Some a /\ Q a s' l.
Proof.
  intros (a & s' & l & Hm & HQ)%runs_Done. exists a, s', l. by rewrite Hm.
Qed.

(** C1. After [update(i, j, op)] on a valid interval, a query on a range
    inside [[i, j]] returns what [apply] of [op] computes from the
    aggregate that the query returned before, and a query on a range
    outside [[i, j]] returns what it returned before. *)
Theorem update_then_query fuel s i j op :
  reachable (okN:=okN) (okO:=okO) s -> okO op ->
  0 <= i -> i <= j -> j < size s -> (height (size s) <= fuel)%nat ->
  exists s' log, update fuel i j op s = Done tt s' log /\
    (forall a b, i <= a -> a <= b -> b <= j ->
       exists r, retval (query fuel a b s) = Some r /\
                 retval (query fuel a b s') = Some (Op_apply op r a b)) /\
    (forall a b, 0 <= a -> a <= b -> b < size s -> b < i \/ j < a ->
       exists r, retval (query fuel a b s) = Some r /\
                 retval (query fuel a b s') = Some r).
Proof.
  intros [v Hv]%(reachable_stands_for C) Hop Hi Hij Hj Hf.
  destruct (runs_retval _ _ _ (update_ok_public C fuel i j op s v Hv Hop Hf))
    as ([] & s' & log & Hrun & _ & Hv' & Hsz).
  exists s', log. split; [done|].
  assert (forall a b, 0 <= a -> a <= b -> b < size s ->
    retval (query fuel a b s) = Some (range_agg v a b) /\
    retval (query fuel a b s') = Some (range_agg (updated i j op v) a b)) as Hq.
  { intros a b Ha Hab Hb.
    destruct (runs_retval _ _ _ (query_ok C fuel a b s v Hv Hf))
      as (r & ? & ? & _ & -> & -> & _).
    destruct (runs_retval _ _ _ (query_ok C fuel a b s' _ Hv' ltac:(by rewrite Hsz)))
      as (r' & ? & ? & _ & -> & -> & _).
    rewrite Hsz. replace (Z.max 0 a) with a by lia.
    by replace (Z.min (size s - 1) b) with b by lia. }
  split.
  - intros a b Ha Hab Hb. destruct (Hq a b) as [Hq1 Hq2]; [lia..|].
    exists (range_agg v a b). split; [done|]. rewrite Hq2. f_equal.
    rewrite (apply_range_agg C); [|done|done|].
    + apply range_agg_ext. intros k Hk. by rewrite updated_inside by lia.
    + intros k Hk. apply (stands_for_ok C s v); [done|lia].
  - intros a b Ha Hab Hb Hout. destruct (Hq a b) as [Hq1 Hq2]; [lia..|].
    exists (range_agg v a b). split; [done|]. rewrite Hq2. f_equal.
    apply range_agg_ext. intros k Hk. rewrite updated_outside; [done|lia].
Qed.

End Claims.

Lemma update_then_query_witness :
  exists s' log, update (Update0:=MinMaxTree.U) 3 1 2 (MinMax.mkOp "s" 5) MinMaxTree.four
                 = Done tt s' log /\
    (forall a b, 1 <= a -> a <= b -> b <= 2 ->
       exists r, retval (query (Update0:=MinMaxTree.U) 3 a b MinMaxTree.four) = Some r /\
                 retval (query (Update0:=MinMaxTree.U) 3 a b s')
                 = Some (MinMax.apply (MinMax.mkOp "s" 5) r a b)) /\
    (forall a b, 0 <= a -> a <= b -> b < 4 -> b < 1 \/ 2 < a ->
       exists r, retval (query (Update0:=MinMaxTree.U) 3 a b MinMaxTree.four) = Some r /\
                 retval (query (Update0:=MinMaxTree.U) 3 a b s') = Some r).
Proof.
  apply (update_then_query (MinMaxLaws.contract MinMaxTree.nop) 3 MinMaxTree.four 1 2
           (MinMax.mkOp "s" 5) MinMaxLaws.four_reachable).
  - split; [reflexivity|unfold MinMax.INF; simpl; lia].
  - lia.
  - lia.
  - vm_compute. reflexivity.
  - vm_compute. lia.
Defined.

(** C2. The scenario of the min/max instantiation: 100 elements, all 0;
    [update(0, 49, set 5)]; [update(25, 74, add 3)]; then the four queries
    give min = max = 5, 8, 3 and 0, whether each is asked of the tree as the
    updates left it or one after the other. *)
Theorem scenario_set_then_add (nop : MinMax.Op) :
  let U := MinMax.Op_update nop in
  let set5 := MinMax.mkOp "s" 5 in
  let add3 := MinMax.mkOp "a" 3 in
  exists t l0 s1 l1 s2 l2,
    construct (Update0:=U) (height 100) 100 (replicate 100 0) = Done tt t l0 /\
    update (Update0:=U) (height 100) 0 49 set5 t = Done tt s1 l1 /\
    update (Update0:=U) (height 100) 25 74 add3 s1 = Done tt s2 l2 /\
    retval (query (Update0:=U) (height 100) 0 24 s2) = Some (MinMax.mkNode 5 5) /\
    retval (query (Update0:=U) (height 100) 25 49 s2) = Some (MinMax.mkNode 8 8) /\
    retval (query (Update0:=U) (height 100) 50 74 s2) = Some (MinMax.mkNode 3 3) /\
    retval (query (Update0:=U) (height 100) 75 99 s2) = Some (MinMax.mkNode 0 0) /\
    retval (run (Update0:=U) (height 100)
              [Query 0 24; Query 25 49; Query 50 74; Query 75 99] s2)
    = Some [MinMax.mkNode 5 5; MinMax.mkNode 8 8; MinMax.mkNode 3 3; MinMax.mkNode 0 0].
Proof.
  intros U set5 add3.
  set (s0 := mkSegTree 0 [] [] [] : SegTree MinMax.Node MinMax.Op).
  set (o0 := construct (Update0:=U) (height 100) 100 (replicate 100 0)).
  set (o1 := update (Update0:=U) (height 100) 0 49 set5 (state_of o0 s0)).
  set (o2 := update (Update0:=U) (height 100) 25 74 add3 (state_of o1 s0)).
  exists (state_of o0 s0), (log_of o0), (state_of o1 s0), (log_of o1),
         (state_of o2 s0), (log_of o2).
  split_and!; vm_compute; reflexivity.
Qed.


(** ** What a client observes *)

Section Observations.
Context {Node Op : Type} `{!Aggregate Node} `{!Update Node Op}.
Context {okN : Node -> Prop} {okO : Op -> Prop} (C : Contract okN okO).
Implicit Types s : SegTree Node Op.
Implicit Types v : Z -> Node.
Local Abbreviation ok_command := (ok_command (okO:=okO)).

Lemma run_answers fuel cmds : forall s v,
  stands_for (okN:=okN) (okO:=okO) s v -> (height (size s) <= fuel)%nat ->
  Forall ok_command cmds ->
  runs (run fuel cmds) s (fun rs s' _ =>
    rs = answers (size s) v cmds /\ size s' = size s /\
    exists v', stands_for (okN:=okN) (okO:=okO) s' v').
Proof.
  induction cmds as [|[i j|i j op] cmds IH]; intros s v Hv Hf Hok; cbn [run answers].
  - apply runs_ret. eauto.
  - inversion_clear Hok as [|? ? _ Hok'].
    apply runs_bind. eapply runs_mono; [by apply (query_ok C)|].
    intros r s1 _ (-> & Hv1 & Hsz1); simpl.
    apply runs_bind. eapply runs_mono; [apply (IH s1 v); [done|by rewrite Hsz1|done]|].
    intros rs s2 _ (-> & Hsz2 & Hv2); simpl.
    apply runs_ret. rewrite Hsz1. split_and!; [done|congruence|done].
  - inversion_clear Hok as [|? ? Hop Hok']. simpl in Hop.
    apply runs_bind. eapply runs_mono; [by apply (update_ok_public C)|].
    intros _ s1 _ (Hv1 & Hsz1); simpl.
    eapply runs_mono; [apply (IH s1 _ Hv1); [by rewrite Hsz1|done]|].
    intros rs s2 _ (-> & Hsz2 & Hv2); simpl.
    rewrite Hsz1. split_and!; [done|congruence|done].
Qed.

Lemma run_same fuel cmds s s' v :
  stands_for (okN:=okN) (okO:=okO) s v -> stands_for (okN:=okN) (okO:=okO) s' v ->
  size s' = size s -> (height (size s) <= fuel)%nat ->
  Forall ok_command cmds ->
  exists rs, retval (run fuel cmds s) = Some rs /\ retval (run fuel cmds s') = Some rs.
Proof.
  intros Hv Hv' Hsz Hf Hok.
  destruct (runs_retval _ _ _ (run_answers fuel cmds s v Hv Hf Hok))
    as (rs & ? & ? & _ & Hr & -> & _).
  destruct (runs_retval _ _ _ (run_answers fuel cmds s' v Hv' ltac:(by rewrite Hsz) Hok))
    as (rs' & ? & ? & _ & Hr' & -> & _).
  exists (answers (size s) v cmds). by rewrite Hr, Hr', Hsz.
Qed.

End Observations.

(** ** Decomposition and repetition of queries *)

Lemma partition_le i j parts : partition i j parts -> i <= j.
Proof. induction 1; lia. Qed.

Section Decomposition.
Context {Node Op : Type} `{!Aggregate Node} `{!Update Node Op}.
Context {okN : Node -> Prop} {okO : Op -> Prop} (C : Contract okN okO).
Implicit Types s : SegTree Node Op.
Implicit Types v : Z -> Node.

Lemma ok_queries parts : Forall (ok_command (okO:=okO)) (queries parts).
Proof. induction parts; by constructor. Qed.

Lemma answers_queries n v i j parts :
  partition i j parts -> 0 <= i -> j < n ->
  answers n v (queries parts) = map (fun ab => range_agg v ab.1 ab.2) parts.
Proof.
  induction 1 as [i j Hij|i m j parts Him Hp IH]; intros Hi Hj; simpl.
  - f_equal. f_equal; lia.
  - apply partition_le in Hp as Hmj. rewrite IH by lia. f_equal. f_equal; lia.
Qed.

Lemma foldl_partition v i a j parts :
  partition a j parts -> i <= a -> (forall k, i <= k <= j -> okN (v k)) ->
  foldl Node_join (range_agg v i (a - 1)) (map (fun ab => range_agg v ab.1 ab.2) parts)
  = range_agg v i j.
Proof.
  induction 1 as [a j Haj|a m j parts Ham Hp IH]; intros Hi Hok; simpl.
  - symmetry. rewrite (range_agg_split C v i (a - 1) j); [|lia|lia|done].
    by replace (a - 1 + 1) with a by lia.
  - apply partition_le in Hp as Hmj.
    rewrite <- (IH ltac:(lia) Hok). f_equal.
    replace (m + 1 - 1) with m by lia.
    rewrite (range_agg_split C v i (a - 1) m); [|lia|lia|intros; apply Hok; lia].
    by replace (a - 1 + 1) with a by lia.
Qed.

Lemma combine_partition v i j parts :
  partition i j parts -> (forall k, i <= k <= j -> okN (v k)) ->
  combine (map (fun ab => range_agg v ab.1 ab.2) parts) = range_agg v i j.
Proof.
  destruct 1 as [i j Hij|i m j parts Him Hp]; intros Hok; simpl; [done|].
  apply partition_le in Hp as Hmj.
  rewrite <- (foldl_partition v i (m + 1) j parts Hp ltac:(lia) Hok).
  by replace (m + 1 - 1) with m by lia.
Qed.

(** C6. For a valid interval and any partition of it into consecutive
    sub-intervals, the results of the queries on the sub-intervals, asked
    one after the other and joined from left to right, are the result of
    the query on the whole interval. *)
Theorem query_decomposition fuel s i j parts :
  reachable (okN:=okN) (okO:=okO) s ->
  0 <= i -> j < size s -> partition i j parts ->
  (height (size s) <= fuel)%nat ->
  exists r rs,
    retval (query fuel i j s) = Some r /\
    retval (run fuel (queries parts) s) = Some rs /\
    combine rs = r.
Proof.
  intros [v Hv]%(reachable_stands_for C) Hi Hj Hp Hf.
  pose proof (partition_le _ _ _ Hp) as Hij.
  destruct (runs_retval _ _ _ (query_ok C fuel i j s v Hv Hf))
    as (r & ? & ? & _ & -> & -> & _).
  destruct (runs_retval _ _ _ (run_answers C fuel (queries parts) s v Hv Hf (ok_queries parts)))
    as (rs & ? & ? & _ & -> & -> & _).
  eexists _, _. split_and!; [done..|].
  rewrite (answers_queries _ _ i j) by done.
  rewrite (combine_partition v i j); [f_equal; lia|done|].
  intros k Hk. apply (stands_for_ok C s v); [done|lia].
Qed.

(** C9. A query changes what is stored, not what the tree stands for: the
    same query asked any number of times gives the same result each time,
    and any sequence of later queries and updates gives the same results
    whether or not the query has been made before it. *)
Theorem query_is_unobservable fuel s i j :
  reachable (okN:=okN) (okO:=okO) s ->
  0 <= i -> i <= j -> j < size s -> (height (size s) <= fuel)%nat ->
  exists r s1 log,
    query fuel i j s = Done r s1 log /\
    (forall k : nat, retval (run fuel (replicate k (Query i j)) s) = Some (replicate k r)) /\
    (forall cmds, Forall (ok_command (okO:=okO)) cmds ->
       exists rs, retval (run fuel cmds s) = Some rs /\
                  retval (run fuel cmds s1) = Some rs).
Proof.
  intros [v Hv]%(reachable_stands_for C) Hi Hij Hj Hf.
  destruct (runs_retval _ _ _ (query_ok C fuel i j s v Hv Hf))
    as (r & s1 & log & Hrun & _ & -> & Hv1 & Hsz).
  eexists _, s1, log. split_and!; [done| |].
  - intros k.
    assert (Forall (ok_command (okO:=okO)) (replicate k (Query i j))) as Hok.
    { induction k; by constructor. }
    destruct (runs_retval _ _ _ (run_answers C fuel _ s v Hv Hf Hok))
      as (rs & ? & ? & _ & -> & -> & _).
    f_equal. clear Hok. induction k as [|k IH]; simpl; [done|]. by rewrite IH.
  - intros cmds Hok. by apply (run_same C fuel cmds s s1 v).
Qed.

End Decomposition.

(** ** Construction *)

Section Construction.
Context {Node Op : Type} `{!Aggregate Node} `{!Update Node Op}.
Implicit Types s : SegTree Node Op.

(** C7, as the code has it.  The constructor checks nothing and has no
    error of its own.  With [n >= 1], [4 * n + 1] within [int] and a seed
    of at least [n] elements, which may have more, it completes, and has
    built the aggregate of every range of the implicit tree, by halving
    down to single elements, from the first [n] elements of the seed.  With
    a negative [n] it is [resize] that throws, a [std::length_error]. *)
Theorem construct_builds fuel n arr :
  (1 <= n -> 4 * n + 1 <= INT_MAX ->
   n <= Z.of_nat (length arr) -> (height n <= fuel)%nat ->
   exists s log, construct fuel n arr = Done tt s log /\
     size s = n /\ capacity (4 * n + 1) s /\ Built s arr 1 0 (n - 1)) /\
  (n < 0 -> INT_MIN <= 4 * n + 1 -> construct fuel n arr = LengthError).
Proof.
  split.
  - intros Hn Hcap Hlen Hf. unfold construct.
    rewrite SegTree_new_fits by lia.
    set (s0 := mkSegTree _ _ _ _).
    assert (capacity (4 * n + 1) s0) as Hc0.
    { unfold capacity, s0, resize; simpl. rewrite !length_replicate. lia. }
    assert (Z.to_nat (Z.log2_up n) < fuel)%nat as Hfuel by (unfold height in Hf; lia).
    assert (forall k, 0 <= k <= n - 1 -> is_Some (at_ arr k)) as Harr.
    { intros k Hk. apply at_is_Some. lia. }
    destruct (runs_unit _ _ _ (build_rec_built arr (4 * n + 1) fuel _ 1 0 (n - 1) s0
        Hfuel (fits_root n Hn) Hc0 Harr))
      as (s1 & l1 & Hrun & HB & HT & _).
    unfold build, mbind, M_mbind, M_bind, get_size. simpl. rewrite Hrun.
    destruct HT as (Hsz & Hlt & Hlh & Hlp & _), Hc0 as (Hc0t & Hc0h & Hc0p).
    exists s1, l1. split_and!; try done. unfold capacity. lia.
  - intros Hn Hmin. unfold construct, SegTree_new.
    rewrite wrap_id by (unfold INT_MAX; lia). by rewrite decide_True by lia.
Qed.

End Construction.

(** The program's own call, [SegTree<Node, Op> tree(100, arr)] with
    [int arr[10000]], completes although the array does not have 100
    elements but 10000. *)
Lemma construct_accepts_longer_seed :
  length (replicate (Z.to_nat 10000) 0) <> Z.to_nat 100 /\
  retval (construct (Update0:=MinMaxTree.U) (height 100) 100 (replicate (Z.to_nat 10000) 0))
  = Some tt.
Proof. split; [rewrite length_replicate; lia|vm_compute; reflexivity]. Qed.

Lemma construct_builds_witness :
  exists s log, construct (Update0:=MinMaxTree.U) 3 4 [0; 0; 0; 0] = Done tt s log /\
    size s = 4 /\ capacity (4 * 4 + 1) s /\ Built s [0; 0; 0; 0] 1 0 (4 - 1).
Proof.
  apply (proj1 (construct_builds (Update0:=MinMaxTree.U) 3 4 [0; 0; 0; 0])).
  - lia.
  - vm_compute. discriminate.
  - simpl. lia.
  - vm_compute. lia.
Defined.

(** ** Intervals that are not inside [[0, n - 1]] *)

Section Clipping.
Context {Node Op : Type} `{!Aggregate Node} `{!Update Node Op}.
Context {okN : Node -> Prop} {okO : Op -> Prop} (C : Contract okN okO).
Implicit Types s : SegTree Node Op.
Implicit Types v : Z -> Node.

Lemma answers_ext n v w cmds :
  (forall k, 0 <= k < n -> v k = w k) -> answers n v cmds = answers n w cmds.
Proof.
  revert v w. induction cmds as [|[i j|i j op] cmds IH]; intros v w Hvw; simpl; [done| |].
  - f_equal; [|by apply IH]. apply range_agg_ext. intros k Hk. apply Hvw. lia.
  - apply IH. intros k Hk. unfold updated. case_decide; by rewrite Hvw.
Qed.

Lemma updated_clip n i j op v k :
  0 <= k < n -> updated i j op v k = updated (Z.max 0 i) (Z.min (n - 1) j) op v k.
Proof.
  intros Hk. unfold updated.
  destruct (decide (i <= k <= j)).
  - by rewrite decide_True by lia.
  - by rewrite decide_False by lia.
Qed.

(** C3, as the code has it.  [query] and [update] check nothing: on any
    interval at all they complete, and act on the part of [[i, j]] that is
    inside [[0, n - 1]].  A query returns the aggregate of that part
    ([Node()] if it is empty) and changes no later result; an update is the
    update of that part (no update at all if it is empty). *)
Theorem out_of_range_is_clipped fuel s i j :
  reachable (okN:=okN) (okO:=okO) s -> (height (size s) <= fuel)%nat ->
  let lo := Z.max 0 i in
  let hi := Z.min (size s - 1) j in
  (exists r s1 log, query fuel i j s = Done r s1 log /\
     (lo <= hi -> retval (query fuel lo hi s) = Some r) /\
     (hi < lo -> r = Node_new) /\
     (forall cmds, Forall (ok_command (okO:=okO)) cmds ->
        exists rs, retval (run fuel cmds s) = Some rs /\
                   retval (run fuel cmds s1) = Some rs)) /\
  (forall op, okO op ->
     exists s2 log, update fuel i j op s = Done tt s2 log /\
       forall cmds, Forall (ok_command (okO:=okO)) cmds ->
         exists rs, retval (run fuel cmds s2) = Some rs /\
           retval (run fuel (if decide (lo <= hi) then Change lo hi op :: cmds else cmds) s)
           = Some rs).
Proof.
  intros [v Hv]%(reachable_stands_for C) Hf lo hi. split.
  - destruct (runs_retval _ _ _ (query_ok C fuel i j s v Hv Hf))
      as (r & s1 & log & Hrun & _ & -> & Hv1 & Hsz).
    exists (range_agg v lo hi), s1, log. split_and!; [done| | |].
    + intros Hne.
      destruct (runs_retval _ _ _ (query_ok C fuel lo hi s v Hv Hf))
        as (r' & ? & ? & _ & -> & -> & _).
      f_equal. f_equal; lia.
    + intros He. by apply range_agg_empty.
    + intros cmds Hok. by apply (run_same C fuel cmds s s1 v).
  - intros op Hop.
    destruct (runs_unit _ _ _ (update_ok_public C fuel i j op s v Hv Hop Hf))
      as (s2 & log & Hrun & Hv2 & Hsz).
    exists s2, log. split; [done|]. intros cmds Hok.
    destruct (runs_retval _ _ _ (run_answers C fuel cmds s2 _ Hv2 ltac:(by rewrite Hsz) Hok))
      as (rs & ? & ? & _ & -> & -> & _).
    eexists. split; [done|]. rewrite Hsz.
    destruct (decide (lo <= hi)) as [Hne|He].
    + assert (Forall (ok_command (okO:=okO)) (Change lo hi op :: cmds)) as Hok'
        by (by constructor).
      destruct (runs_retval _ _ _ (run_answers C fuel _ s v Hv Hf Hok'))
        as (rs & ? & ? & _ & -> & -> & _).
      f_equal. simpl. apply answers_ext. intros k Hk. symmetry. by apply updated_clip.
    + destruct (runs_retval _ _ _ (run_answers C fuel cmds s v Hv Hf Hok))
        as (rs & ? & ? & _ & -> & -> & _).
      f_equal. apply answers_ext. intros k Hk.
      rewrite (updated_clip (size s)) by done. symmetry. apply updated_outside. lia.
Qed.

End Clipping.

(** On the tree of 100 zeros, [query(-1, 5)] and [query(3, 200)] return an
    aggregate; and once [update(0, 99, set 5)] has left a pending update at
    the root, [query(-1, 5)] pushes it down: the flag of slot 1 goes from
    [true] to [false] and the aggregate of slot 2 from [(0, 0)] to [(5, 5)]. *)
Lemma query_out_of_range_answers :
  let U := MinMaxTree.U in
  let t := state_of (construct (Update0:=U) (height 100) 100 (replicate 100 0))
                    (mkSegTree 0 [] [] []) in
  let t' := state_of (update (Update0:=U) (height 100) 0 99 (MinMax.mkOp "s" 5) t) t in
  let t'' := state_of (query (Update0:=U) (height 100) (-1) 5 t') t' in
  size t = 100 /\
  retval (query (Update0:=U) (height 100) (-1) 5 t) = Some (MinMax.mkNode 0 0) /\
  retval (query (Update0:=U) (height 100) 3 200 t) = Some (MinMax.mkNode 0 0) /\
  retval (query (Update0:=U) (height 100) (-1) 5 t') = Some (MinMax.mkNode 5 5) /\
  at_ (hasPending t') 1 = Some true /\ at_ (hasPending t'') 1 = Some false /\
  at_ (tree t') 2 = Some (MinMax.mkNode 0 0) /\
  at_ (tree t'') 2 = Some (MinMax.mkNode 5 5).
Proof. intros U t t' t''. split_and!; vm_compute; reflexivity. Qed.

(** ** The work of [query] and [update] *)

Section Work.
Context {Node Op : Type} `{!Aggregate Node} `{!Update Node Op}.
Implicit Types s : SegTree Node Op.

Local Ltac count_logged := repeat (simpl; rewrite length_app); simpl.

Local Ltac each_logged :=
  unfold here, around in *;
  repeat first [apply Forall_app; split | apply List.Forall_cons | apply List.Forall_nil];
  simpl; try done; try tauto.

(** On a position inside [[i, j]], [update] makes no further call and at
    most 6 accesses, all to the slot of the position. *)
Lemma update_rec_inside fuel node st en i j op s :
  i <= st -> st <= en -> en <= j ->
  safe (update_rec fuel node st en i j op) s (fun _ _ l =>
    (length l <= 7)%nat /\ here node l).
Proof.
  intros Hi Hle Hj. destruct fuel as [|f]; [done|].
  cbn [update_rec]. rewrite decide_False by lia.
  apply safe_bind, safe_enter.
  destruct (decide (st = en)).
  { apply safe_bind, safe_read_tree. intros x _.
    apply safe_write_tree. intros _. simpl. split; [lia|]. each_logged. }
  rewrite decide_True by lia.
  apply safe_bind, safe_read_tree. intros x _.
  apply safe_bind, safe_write_tree. intros _.
  apply safe_bind, safe_read_hasPending. intros b _.
  apply safe_bind.
  eapply safe_mono with (Q := fun _ _ l => (length l <= 1)%nat /\ here node l).
  { destruct b; [|apply safe_ret; simpl; split; [lia|each_logged]].
    apply safe_bind, safe_read_pending. intros p _. apply safe_ret.
    simpl. split; [lia|]. each_logged. }
  intros p' s' l [Hlen Hl].
  apply safe_bind, safe_write_pending. intros _.
  apply safe_write_hasPending. intros _.
  count_logged. split; [lia|].
  each_logged.
Qed.

(** [applyPending] makes at most 2 calls and 16 accesses, at the slots of
    the position and of its two children. *)
Lemma applyPending_work fuel node st en s :
  0 <= st -> st < en ->
  safe (applyPending fuel node st en) s (fun _ _ l =>
    (length l <= 18)%nat /\ Forall (around node) l).
Proof.
  intros Hst Hlt. pose proof (mid_bounds st en Hst Hlt) as Hmid.
  unfold applyPending, applyPending_with.
  apply safe_bind, safe_read_hasPending. intros b _.
  destruct b; [|apply safe_ret; simpl; split; [lia|each_logged]].
  apply safe_bind, safe_read_pending. intros p _.
  apply safe_bind. eapply safe_mono; [apply update_rec_inside; lia|].
  intros ? s1 l1 [Hlen1 Hl1]; simpl.
  apply safe_bind, safe_read_pending. intros p' _.
  apply safe_bind. eapply safe_mono; [apply update_rec_inside; lia|].
  intros ? s2 l2 [Hlen2 Hl2]; simpl.
  apply safe_write_hasPending. intros _.
  count_logged. split; [lia|].
  each_logged.
  - eapply List.Forall_impl; [|exact Hl1]. simpl. intros e ->. tauto.
  - eapply List.Forall_impl; [|exact Hl2]. simpl. intros e ->. tauto.
Qed.

Lemma query_rec_work fuel : forall (h : nat) node st en i j s,
  0 <= st -> st <= en -> en - st + 1 <= 2 ^ Z.of_nat h ->
  safe (query_rec fuel node st en i j) s (fun _ _ l =>
    Z.of_nat (length l) <= query_bound (Z.of_nat h) st en i j).
Proof.
  induction fuel as [|f IH]; intros h node st en i j s Hst Hle Hlen; [done|].
  cbn [query_rec]. apply safe_bind, safe_enter.
  destruct (decide (j < st \/ i > en)) as [Hdis|Hdis].
  { apply safe_ret. unfold query_bound. rewrite decide_True by done. simpl. lia. }
  destruct (decide (st >= i /\ en <= j)) as [Hin|Hpart].
  { apply safe_read_tree. intros x _. unfold query_bound.
    rewrite decide_False, decide_True by lia. simpl. lia. }
  assert (st < en) as Hlt by lia.
  pose proof (mid_bounds st en Hst Hlt) as Hmid.
  destruct h as [|h]; [simpl in Hlen; lia|].
  destruct (halves_fit st en h) as [Hl Hr]; [lia..|].
  apply safe_bind. eapply safe_mono; [by apply applyPending_work|].
  intros ? s1 l1 [Hlen1 _]; simpl.
  apply safe_bind. eapply safe_mono; [apply (IH h); lia|].
  intros ? s2 l2 Hlen2; simpl in Hlen2.
  apply safe_bind. eapply safe_mono; [apply (IH h); lia|].
  intros ? s3 l3 Hlen3; simpl in Hlen3.
  apply safe_ret. count_logged. rewrite ?Nat2Z.inj_succ, ?Nat2Z.inj_add.
  unfold query_bound in *.
  repeat case_decide; lia.
Qed.

Lemma update_rec_work fuel : forall (h : nat) node st en i j op s,
  0 <= st -> st <= en -> en - st + 1 <= 2 ^ Z.of_nat h ->
  safe (update_rec fuel node st en i j op) s (fun _ _ l =>
    Z.of_nat (length l) <= update_bound (Z.of_nat h) st en i j).
Proof.
  induction fuel as [|f IH]; intros h node st en i j op s Hst Hle Hlen; [done|].
  destruct (decide (j < st \/ i > en)) as [Hdis|Hdis].
  { cbn [update_rec]. rewrite decide_True by done.
    apply safe_bind, safe_enter.
    apply safe_ret. unfold update_bound. rewrite decide_True by done. simpl. lia. }
  destruct (decide (i <= st /\ en <= j)) as [Hin|Hpart].
  { eapply safe_mono; [apply update_rec_inside; lia|].
    intros ? s' l [Hl _]. unfold update_bound.
    rewrite decide_False, decide_True by lia. lia. }
  cbn [update_rec]. rewrite decide_False by done.
  assert (st < en) as Hlt by lia.
  rewrite decide_False by lia. rewrite decide_False by lia.
  apply safe_bind, safe_enter.
  pose proof (mid_bounds st en Hst Hlt) as Hmid.
  destruct h as [|h]; [simpl in Hlen; lia|].
  destruct (halves_fit st en h) as [Hl Hr]; [lia..|].
  apply safe_bind. eapply safe_mono; [by apply (applyPending_work f)|].
  intros ? s1 l1 [Hlen1 _]; simpl.
  apply safe_bind.
  eapply safe_mono with (Q := fun _ _ l =>
    Z.of_nat (length l) <=
    if decide (i <= mid st en) then update_bound (Z.of_nat h) st (mid st en) i j else 0).
  { destruct (decide (i <= mid st en)); [apply (IH h); lia|]. by apply safe_ret. }
  intros ? s2 l2 Hlen2.
  apply safe_bind.
  eapply safe_mono with (Q := fun _ _ l =>
    Z.of_nat (length l) <=
    if decide (j > mid st en) then update_bound (Z.of_nat h) (mid st en + 1) en i j else 0).
  { destruct (decide (j > mid st en)); [apply (IH h); lia|]. by apply safe_ret. }
  intros ? s3 l3 Hlen3.
  apply safe_bind, safe_read_tree. intros xl _.
  apply safe_bind, safe_read_tree. intros xr _.
  apply safe_write_tree. intros _.
  count_logged. rewrite ?Nat2Z.inj_succ, ?Nat2Z.inj_add.
  unfold update_bound in *.
  repeat case_decide; lia.
Qed.

End Work.

(** ** Termination, work and bounds of the public operations *)

Section Totality.
Context {Node Op : Type} `{!Aggregate Node} `{!Update Node Op}.
Implicit Types s : SegTree Node Op.

Lemma construct_total fuel n arr :
  1 <= n -> 4 * n + 1 <= INT_MAX ->
  n <= Z.of_nat (length arr) -> (height n <= fuel)%nat ->
  exists s log, construct fuel n arr = Done tt s log /\
    allocated s /\ size s = n /\ within 1 (4 * n + 1) log.
Proof.
  intros Hn Hcap Hlen Hf. unfold construct.
  rewrite SegTree_new_fits by lia.
  set (s0 := mkSegTree _ _ _ _).
  assert (capacity (4 * n + 1) s0) as Hc0.
  { unfold capacity, s0, resize; simpl. rewrite !length_replicate. lia. }
  assert (Z.to_nat (Z.log2_up n) < fuel)%nat as Hfuel by (unfold height in Hf; lia).
  assert (forall k, 0 <= k <= n - 1 -> is_Some (at_ arr k)) as Harr.
  { intros k Hk. apply at_is_Some. lia. }
  destruct (runs_unit _ _ _ (build_rec_built arr (4 * n + 1) fuel _ 1 0 (n - 1) s0
      Hfuel (fits_root n Hn) Hc0 Harr))
    as (s1 & l1 & Hrun & _ & HT & _ & _ & Hw).
  unfold build, mbind, M_mbind, M_bind, get_size. simpl. rewrite Hrun.
  destruct HT as (Hsz & Hlt & Hlh & Hlp & _), Hc0 as (Hc0t & Hc0h & Hc0p).
  exists s1, l1. simpl in Hsz. split_and!; try done.
  split; [lia|]. rewrite Hsz. unfold capacity. lia.
Qed.

Lemma query_total fuel i j s :
  allocated s -> (height (size s) <= fuel)%nat ->
  exists r s' log, query fuel i j s = Done r s' log /\
    allocated s' /\ size s' = size s /\ within 1 (4 * size s + 1) log /\
    Z.of_nat (length log) <= 42 * Z.log2_up (size s) + 2.
Proof.
  intros [Hn Hc] Hf.
  assert (Z.to_nat (Z.log2_up (size s)) < fuel)%nat as Hfuel by (unfold height in Hf; lia).
  pose proof (query_rec_tidy _ fuel _ 1 0 (size s - 1) i j s Hfuel (fits_root _ Hn) Hc) as Ht.
  pose proof (query_rec_work fuel (Z.to_nat (Z.log2_up (size s))) 1 0 (size s - 1) i j s
    ltac:(lia) ltac:(lia) ltac:(pose proof (height_pow _ Hn); lia)) as Hw.
  destruct (runs_retval _ _ _ (runs_safe _ _ _ _ Ht Hw))
    as (r & s' & log & Hrun & _ & (Hc' & Hsz & Hlog) & Hlen).
  unfold query, mbind, M_mbind, M_bind, get_size. rewrite Hrun.
  exists r, s', log. split_and!; try done.
  - split; rewrite Hsz; done.
  - etrans; [exact Hlen|]. rewrite Z2Nat.id by apply Z.log2_up_nonneg.
    pose proof (Z.log2_up_nonneg (size s)).
    unfold query_bound. repeat case_decide; lia.
Qed.

Lemma update_total fuel i j op s :
  allocated s -> (height (size s) <= fuel)%nat ->
  exists s' log, update fuel i j op s = Done tt s' log /\
    allocated s' /\ size s' = size s /\ within 1 (4 * size s + 1) log /\
    Z.of_nat (length log) <= 58 * Z.log2_up (size s) + 7.
Proof.
  intros [Hn Hc] Hf.
  assert (Z.to_nat (Z.log2_up (size s)) < fuel)%nat as Hfuel by (unfold height in Hf; lia).
  pose proof (update_rec_tidy _ fuel _ Hfuel 1 0 (size s - 1) i j op s (fits_root _ Hn) Hc)
    as Ht.
  pose proof (update_rec_work fuel (Z.to_nat (Z.log2_up (size s))) 1 0 (size s - 1) i j op s
    ltac:(lia) ltac:(lia) ltac:(pose proof (height_pow _ Hn); lia)) as Hw.
  destruct (runs_unit _ _ _ (runs_safe _ _ _ _ Ht Hw))
    as (s' & log & Hrun & (Hc' & Hsz & Hlog) & Hlen).
  unfold update, mbind, M_mbind, M_bind, get_size. rewrite Hrun.
  exists s', log. split_and!; try done.
  - split; rewrite Hsz; done.
  - etrans; [exact Hlen|]. rewrite Z2Nat.id by apply Z.log2_up_nonneg.
    pose proof (Z.log2_up_nonneg (size s)).
    unfold update_bound. repeat case_decide; lia.
Qed.

(** C8. With [n >= 1], such that the [int] [4 * n + 1] exists, and a
    seed of at least [n] elements, [build] terminates; on the tree it
    leaves, and on every tree that [query] and [update] leave in turn,
    [query] and [update] terminate, after at most [42 * log2 n + 2] and
    [58 * log2 n + 7] calls and accesses to the vectors. *)
Theorem operations_terminate fuel :
  (forall n arr, 1 <= n -> 4 * n + 1 <= INT_MAX ->
     n <= Z.of_nat (length arr) -> (height n <= fuel)%nat ->
     exists s log, construct fuel n arr = Done tt s log /\ allocated s /\ size s = n) /\
  (forall s i j, allocated s -> (height (size s) <= fuel)%nat ->
     0 <= i -> i <= j -> j < size s ->
     (exists r s' log, query fuel i j s = Done r s' log /\
        allocated s' /\ size s' = size s /\
        Z.of_nat (length log) <= 42 * Z.log2_up (size s) + 2) /\
     (forall op, exists s' log, update fuel i j op s = Done tt s' log /\
        allocated s' /\ size s' = size s /\
        Z.of_nat (length log) <= 58 * Z.log2_up (size s) + 7)).
Proof.
  split.
  - intros n arr Hn Hcap Hlen Hf.
    destruct (construct_total fuel n arr Hn Hcap Hlen Hf) as (s & log & ? & ? & ? & _). eauto.
  - intros s i j Ha Hf _ _ _. split.
    + destruct (query_total fuel i j s Ha Hf) as (r & s' & log & ? & ? & ? & _ & ?).
      eauto 10.
    + intros op.
      destruct (update_total fuel i j op s Ha Hf) as (s' & log & ? & ? & ? & _ & ?).
      eauto 10.
Qed.

(** C10, as the code has it.  With [n >= 1] and [4 * n + 1] within
    [int], every access that [build], [query] and [update] make to [tree],
    [hasPending] and [pending] is to a slot from 1 to [4 * n], inside the
    [4 * n + 1] slots allocated: none is out of bounds. *)
Theorem accesses_in_bounds fuel :
  (forall n arr, 1 <= n -> 4 * n + 1 <= INT_MAX ->
     n <= Z.of_nat (length arr) -> (height n <= fuel)%nat ->
     exists s log, construct fuel n arr = Done tt s log /\
       allocated s /\ size s = n /\ Forall (fun e => 1 <= slot e <= 4 * n) log) /\
  (forall s i j, allocated s -> (height (size s) <= fuel)%nat ->
     0 <= i -> i <= j -> j < size s ->
     (exists r s' log, query fuel i j s = Done r s' log /\
        allocated s' /\ size s' = size s /\
        Forall (fun e => 1 <= slot e <= 4 * size s) log) /\
     (forall op, exists s' log, update fuel i j op s = Done tt s' log /\
        allocated s' /\ size s' = size s /\
        Forall (fun e => 1 <= slot e <= 4 * size s) log)).
Proof.
  assert (forall n log, within 1 (4 * n + 1) log -> Forall (fun e => 1 <= slot e <= 4 * n) log)
    as Hin.
  { intros n log. apply List.Forall_impl. intros e. lia. }
  split.
  - intros n arr Hn Hcap Hlen Hf.
    destruct (construct_total fuel n arr Hn Hcap Hlen Hf) as (s & log & ? & ? & ? & ?).
    eauto 10.
  - intros s i j Ha Hf _ _ _. split.
    + destruct (query_total fuel i j s Ha Hf) as (r & s' & log & ? & ? & ? & ? & _).
      eauto 10.
    + intros op.
      destruct (update_total fuel i j op s Ha Hf) as (s' & log & ? & ? & ? & ? & _).
      eauto 10.
Qed.

(** On vectors that end before slot [node], the first write of [build],
    at the leftmost single element, is outside them. *)
Lemma build_rec_undersized arr (f : nat) : forall node en s,
  1 <= node -> 0 <= en < 2 ^ Z.of_nat f ->
  Z.of_nat (length (tree s)) <= node -> is_Some (at_ arr 0) ->
  build_rec (S f) arr node 0 en s = OutOfBounds.
Proof.
  induction f as [|f IH]; intros node en s Hn Hen Hlen [x Hx].
  - assert (en = 0) as -> by (simpl in Hen; lia).
    cbn [build_rec]. rewrite decide_True by done.
    unfold mbind, M_mbind, M_bind, enter, read_arr, write_tree. rewrite Hx.
    destruct (at_ (tree s) node) eqn:E; [|done].
    assert (is_Some (at_ (tree s) node)) as Hs by eauto. apply at_is_Some in Hs. lia.
  - change (build_rec (S (S f)) arr node 0 en)
      with (enter node;;
            if decide (0 = en) then
              v ← read_arr arr 0; write_tree (Op:=Op) node (Node_leaf 0 v)
            else
              build_rec (S f) arr (left node) 0 (mid 0 en);;
              build_rec (S f) arr (right node) (mid 0 en + 1) en;;
              l ← read_tree (left node);
              r ← read_tree (right node);
              write_tree node (Node_join l r)).
    destruct (decide (0 = en)) as [<-|Hne].
    + unfold mbind, M_mbind, M_bind, enter, read_arr, write_tree. rewrite Hx.
      destruct (at_ (tree s) node) eqn:E; [|done].
      assert (is_Some (at_ (tree s) node)) as Hs by eauto. apply at_is_Some in Hs. lia.
    + pose proof (mid_bounds 0 en ltac:(lia) ltac:(lia)) as Hmid.
      assert (mid 0 en < 2 ^ Z.of_nat f) as Hlt.
      { rewrite mid_div by lia. rewrite Nat2Z.inj_succ, Z.pow_succ_r in Hen by lia.
        apply Z.div_lt_upper_bound; lia. }
      unfold mbind at 1, M_mbind, M_bind, enter.
      unfold mbind at 1, M_mbind, M_bind.
      rewrite (IH (left node) (mid 0 en) s); [done|unfold left; lia|lia|unfold left; lia|eauto].
Qed.

End Totality.

(** With [n = 2 ^ 29] the [int] [4 * n + 1] is negative, and [resize]
    throws; with [n = 2 ^ 30] it is 1: the vectors get one slot, not
    [4 * n + 1], and on a seed of [2 ^ 30] elements the first write of
    [build], to slot [2 ^ 30] (after the read of element 0 of the seed), is
    outside them. *)
Lemma capacity_wraps_around :
  SegTree_new (Update0:=MinMaxTree.U) (2 ^ 29) = LengthError /\
  SegTree_new (Update0:=MinMaxTree.U) (2 ^ 30)
  = Done tt (mkSegTree (2 ^ 30) [MinMax.Node_default] [false] [MinMaxTree.nop]) [] /\
  construct (Update0:=MinMaxTree.U) 31 (2 ^ 30) (replicate (Z.to_nat (2 ^ 30)) 0)
  = OutOfBounds.
Proof.
  assert (SegTree_new (Update0:=MinMaxTree.U) (2 ^ 30)
          = Done tt (mkSegTree (2 ^ 30) [MinMax.Node_default] [false] [MinMaxTree.nop]) [])
    as Hnew by (vm_compute; reflexivity).
  split_and!; [vm_compute; reflexivity|exact Hnew|].
  unfold construct. rewrite Hnew.
  unfold build, mbind, M_mbind, M_bind, get_size. cbn [size].
  rewrite (build_rec_undersized (Op:=MinMax.Op) _ 30); [done|lia|lia|simpl; lia|].
  apply at_is_Some. rewrite length_replicate. lia.
Qed.

(** ** Positions of the implicit tree, and what is below them *)

Lemma sub_trans a b c : sub a b -> sub b c -> sub a c.
Proof.
  intros [k Hk] [k' Hk']. exists (k' + k)%nat. by rewrite div_pow2_add, Hk', Hk.
Qed.

Lemma descends_sub node st en node' st' en' :
  descends node st en node' st' en' -> sub node node'.
Proof.
  induction 1; [apply sub_refl|by apply sub_left|by apply sub_right].
Qed.

Lemma descends_range node st en node' st' en' :
  descends node st en node' st' en' -> st <= st' /\ st' <= en' /\ en' <= en.
Proof.
  induction 1 as [| ? st en ? ? ? Hst Hlt _ IH | ? st en ? ? ? Hst Hlt _ IH];
    [lia| |]; pose proof (mid_bounds st en Hst Hlt); lia.
Qed.

Lemma below_ge node d : 1 <= node -> below node d -> 2 * node <= d.
Proof.
  intros Hn [Hd|Hd]; apply sub_above in Hd; unfold left, right in *; lia.
Qed.

Lemma not_below_above node node' d :
  1 <= node -> sub node node' -> d <= node -> ~ below node' d.
Proof.
  intros Hn Hs Hd Hb. apply sub_above in Hs; [|done]. apply below_ge in Hb; lia.
Qed.

Lemma not_below_around node child node' e :
  1 <= node -> child = left node \/ child = right node ->
  sub child node' -> around node e -> ~ below node' (slot e).
Proof.
  intros Hn Hc Hs Hd Hb.
  apply sub_above in Hs; [|unfold left, right in *; lia].
  apply below_ge in Hb; [|unfold left, right in *; lia].
  unfold around, left, right in *. lia.
Qed.

Lemma not_below_other node node' d :
  1 <= node ->
  (sub (left node) node' /\ sub (right node) d) \/
  (sub (right node) node' /\ sub (left node) d) ->
  ~ below node' d.
Proof.
  intros Hn Hcase Hb.
  assert (sub node' d) as Hd.
  { destruct Hb as [Hb|Hb]; [by apply sub_left|by apply sub_right]. }
  destruct Hcase as [[Hl Hr]|[Hr Hl]];
    apply (sub_disjoint node d); eauto using sub_trans.
Qed.

Section Below.
Context {Node Op : Type} `{!Aggregate Node} `{!Update Node Op}.
Implicit Types s : SegTree Node Op.

Lemma stays_above_here node st en i j l :
  1 <= node -> here node l -> stays_above node st en i j l.
Proof.
  intros Hn Hl. split.
  - eapply List.Forall_impl; [|exact Hl]. simpl. intros e ->. apply sub_refl.
  - intros node' st' en' Hd _ _. eapply List.Forall_impl; [|exact Hl]. simpl. intros e ->.
    apply (not_below_above node); [done|by apply descends_sub in Hd|lia].
Qed.

Lemma here_one node e : slot e = node -> here node [e].
Proof. intros. apply List.Forall_cons; [done|apply List.Forall_nil]. Qed.

(** The calls and accesses of a position that is not inside [[i, j]]: [la]
    and [lz] at the position and its children, [ll] from the left child,
    [lr] from the right child. *)
Lemma stays_above_node node st en i j la ll lr lz :
  1 <= node -> 0 <= st -> st < en -> ~ (i <= st /\ en <= j) ->
  Forall (around node) la -> Forall (around node) lz ->
  (ll = [] \/ stays_above (left node) st (mid st en) i j ll) ->
  (lr = [] \/ stays_above (right node) (mid st en + 1) en i j lr) ->
  stays_above node st en i j (la ++ ll ++ lr ++ lz).
Proof.
  intros Hn Hst Hlt Hpart Hla Hlz Hll Hlr.
  assert (stays_above (left node) st (mid st en) i j ll) as [Hll1 Hll2].
  { destruct Hll as [->|]; [|done]. split; [|intros]; apply List.Forall_nil. }
  assert (stays_above (right node) (mid st en + 1) en i j lr) as [Hlr1 Hlr2].
  { destruct Hlr as [->|]; [|done]. split; [|intros]; apply List.Forall_nil. }
  assert (forall l, Forall (around node) l -> Forall (fun e => sub node (slot e)) l)
    as Haround.
  { intros l. apply List.Forall_impl.
    intros e [ -> | [ -> | -> ] ];
      [apply sub_refl|apply sub_left, sub_refl|apply sub_right, sub_refl]. }
  split.
  - repeat (apply Forall_app; split); auto.
    + eapply List.Forall_impl; [|exact Hll1]. intros e. apply sub_left.
    + eapply List.Forall_impl; [|exact Hlr1]. intros e. apply sub_right.
  - intros node' st' en' Hd Hi Hj.
    inversion Hd as [| ? ? ? ? ? ? _ _ Hd' | ? ? ? ? ? ? _ _ Hd']; subst; [lia| |].
    + pose proof (descends_sub _ _ _ _ _ _ Hd') as Hs.
      assert (forall l, Forall (around node) l ->
                Forall (fun e => ~ below node' (slot e)) l) as Hnot.
      { intros l. apply List.Forall_impl. intros e He.
        apply (not_below_around node (left node)); auto. }
      repeat (apply Forall_app; split); auto.
      * eapply Hll2; eauto.
      * eapply List.Forall_impl; [|exact Hlr1]. intros e He.
        apply (not_below_other node); auto.
    + pose proof (descends_sub _ _ _ _ _ _ Hd') as Hs.
      assert (forall l, Forall (around node) l ->
                Forall (fun e => ~ below node' (slot e)) l) as Hnot.
      { intros l. apply List.Forall_impl. intros e He.
        apply (not_below_around node (right node)); auto. }
      repeat (apply Forall_app; split); auto.
      * eapply List.Forall_impl; [|exact Hll1]. intros e He.
        apply (not_below_other node); auto.
      * eapply Hlr2; eauto.
Qed.

Lemma query_rec_stays_above fuel : forall node st en i j s,
  1 <= node -> 0 <= st -> st <= en ->
  safe (query_rec fuel node st en i j) s (fun _ _ l => stays_above node st en i j l).
Proof.
  induction fuel as [|f IH]; intros node st en i j s Hn Hst Hle; [done|].
  cbn [query_rec]. apply safe_bind, safe_enter.
  destruct (decide (j < st \/ i > en)) as [Hdis|Hdis].
  { apply safe_ret. apply stays_above_here; [done|]. by apply here_one. }
  destruct (decide (st >= i /\ en <= j)) as [Hin|Hpart].
  { apply safe_read_tree. intros x _. apply stays_above_here; [done|].
    apply List.Forall_cons; [done|]. by apply here_one. }
  assert (st < en) as Hlt by lia.
  pose proof (mid_bounds st en Hst Hlt) as Hmid.
  apply safe_bind. eapply safe_mono; [by apply applyPending_work|].
  intros ? s1 la [_ Hla]; simpl.
  apply safe_bind. eapply safe_mono; [apply IH; unfold left; lia|].
  intros ? s2 ll Hll; simpl in Hll.
  apply safe_bind. eapply safe_mono; [apply IH; unfold right; lia|].
  intros ? s3 lr Hlr; simpl in Hlr.
  apply safe_ret.
  apply (stays_above_node node st en i j (Call node :: la) ll lr []); auto; try lia.
  apply List.Forall_cons; [by left|done].
Qed.

Lemma update_rec_stays_above fuel : forall node st en i j op s,
  1 <= node -> 0 <= st -> st <= en ->
  safe (update_rec fuel node st en i j op) s (fun _ _ l => stays_above node st en i j l).
Proof.
  induction fuel as [|f IH]; intros node st en i j op s Hn Hst Hle; [done|].
  destruct (decide (j < st \/ i > en)) as [Hdis|Hdis].
  { cbn [update_rec]. rewrite decide_True by done. apply safe_bind, safe_enter.
    apply safe_ret. apply stays_above_here; [done|]. by apply here_one. }
  destruct (decide (i <= st /\ en <= j)) as [Hin|Hpart].
  { eapply safe_mono; [apply update_rec_inside; lia|].
    intros ? s' l [_ Hl]. by apply stays_above_here. }
  cbn [update_rec]. rewrite decide_False by done.
  assert (st < en) as Hlt by lia.
  rewrite decide_False by lia. rewrite decide_False by lia.
  apply safe_bind, safe_enter.
  pose proof (mid_bounds st en Hst Hlt) as Hmid.
  apply safe_bind. eapply safe_mono; [by apply (applyPending_work f)|].
  intros ? s1 la [_ Hla]; simpl.
  apply safe_bind.
  eapply safe_mono with (Q := fun _ _ l =>
    l = [] \/ stays_above (left node) st (mid st en) i j l).
  { destruct (decide (i <= mid st en)).
    - eapply safe_mono; [apply IH; unfold left; lia|]. intros; by right.
    - apply safe_ret. by left. }
  intros ? s2 ll Hll.
  apply safe_bind.
  eapply safe_mono with (Q := fun _ _ l =>
    l = [] \/ stays_above (right node) (mid st en + 1) en i j l).
  { destruct (decide (j > mid st en)).
    - eapply safe_mono; [apply IH; unfold right; lia|]. intros; by right.
    - apply safe_ret. by left. }
  intros ? s3 lr Hlr.
  apply safe_bind, safe_read_tree. intros xl _.
  apply safe_bind, safe_read_tree. intros xr _.
  apply safe_write_tree. intros _.
  apply (stays_above_node node st en i j (Call node :: la) ll lr
           [Access (left node); Access (right node); Access node]);
    try done; try lia.
  - apply List.Forall_cons; [by left|done].
  - unfold around. repeat apply List.Forall_cons; try apply List.Forall_nil; simpl; tauto.
Qed.

End Below.

(** ** Stored aggregates and pending updates *)

Section Stored.
Context {Node Op : Type} `{!Aggregate Node} `{!Update Node Op}.
Context {okN : Node -> Prop} {okO : Op -> Prop} (C : Contract okN okO).
Implicit Types s : SegTree Node Op.
Implicit Types v : Z -> Node.

Lemma Rep_descends s node st en v node' st' en' :
  Rep (okN:=okN) (okO:=okO) s node st en v -> descends node st en node' st' en' ->
  exists v', Rep (okN:=okN) (okO:=okO) s node' st' en' v'.
Proof.
  intros HR Hd. revert v HR.
  induction Hd as [|? ? ? ? ? ? ? Hlt _ IH|? ? ? ? ? ? ? Hlt _ IH]; intros v HR; [eauto| |];
    inversion HR as [|? ? ? ? vc b p _ _ Hl Hr _ _ _ _]; subst; try lia; eauto.
Qed.

(** The stored aggregate of a position is the join of those of its
    children, with the pending update of the position applied to it. *)
Lemma Rep_local s node st en v :
  Rep (okN:=okN) (okO:=okO) s node st en v -> st < en ->
  exists t l r (b : bool) p,
    at_ (tree s) node = Some t /\
    at_ (tree s) (left node) = Some l /\ at_ (tree s) (right node) = Some r /\
    at_ (hasPending s) node = Some b /\ at_ (pending s) node = Some p /\
    t = if b then Op_apply p (Node_join l r) st en else Node_join l r.
Proof.
  intros HR Hlt.
  inversion HR as [|? ? ? ? vc b p H0 _ Hl Hr Hh Hp Hv Ht]; subst; [lia|].
  pose proof (mid_bounds st en H0 Hlt) as Hmid.
  pose proof (Rep_ok C _ _ _ _ _ Hl) as Hokl.
  pose proof (Rep_ok C _ _ _ _ _ Hr) as Hokr.
  assert (forall k, st <= k <= en -> okN (vc k)) as Hokc.
  { intros k Hk. destruct (decide (k <= mid st en)); [apply Hokl|apply Hokr]; lia. }
  exists (range_agg v st en), (range_agg vc st (mid st en)),
         (range_agg vc (mid st en + 1) en), b, p.
  split_and!; try done; [by apply (Rep_tree C) in Hl|by apply (Rep_tree C) in Hr|].
  rewrite <- (range_agg_split C vc st (mid st en) en) by (done || lia).
  destruct b.
  - destruct Hv as [Hokp Hv]. rewrite (apply_range_agg C) by (done || lia).
    by apply range_agg_ext.
  - by apply range_agg_ext.
Qed.

Lemma query_Done fuel i j s r s' l :
  query fuel i j s = Done r s' l -> query_rec fuel 1 0 (size s - 1) i j s = Done r s' l.
Proof.
  unfold query, mbind, M_mbind, M_bind, get_size.
  destruct (query_rec fuel 1 0 (size s - 1) i j s); simpl; congruence.
Qed.

Lemma update_Done fuel i j op s s' l :
  update fuel i j op s = Done tt s' l ->
  update_rec fuel 1 0 (size s - 1) i j op s = Done tt s' l.
Proof.
  unfold update, mbind, M_mbind, M_bind, get_size.
  destruct (update_rec fuel 1 0 (size s - 1) i j op s); simpl; congruence.
Qed.

(** C5, as the code has it.  In every reachable state and for every
    position of the tree: the stored aggregate of the position is the join
    of the stored aggregates of its children with the pending update of the
    position, if it has one, applied: it reflects the updates applied at the
    position before they are pushed down to the children.  An update over a
    range that contains the range of the position accesses no slot below
    the position, and the query of the range of the position then returns
    the updated aggregate, without accessing any slot below the position. *)
Theorem stored_aggregate_reflects_applied_updates fuel s node st en :
  reachable (okN:=okN) (okO:=okO) s -> position (size s) node st en ->
  (height (size s) <= fuel)%nat ->
  (st < en ->
   exists t l r (b : bool) p,
     at_ (tree s) node = Some t /\
     at_ (tree s) (left node) = Some l /\ at_ (tree s) (right node) = Some r /\
     at_ (hasPending s) node = Some b /\ at_ (pending s) node = Some p /\
     t = if b then Op_apply p (Node_join l r) st en else Node_join l r) /\
  (forall i j op, okO op -> 0 <= i -> i <= st -> en <= j -> j < size s ->
   exists s1 log r s2 log',
     update fuel i j op s = Done tt s1 log /\
     Forall (fun e => ~ below node (slot e)) log /\
     retval (query fuel st en s) = Some r /\
     query fuel st en s1 = Done (Op_apply op r st en) s2 log' /\
     Forall (fun e => ~ below node (slot e)) log').
Proof.
  intros [v Hv]%(reachable_stands_for C) Hpos Hf.
  pose proof Hv as [Hn HR].
  pose proof (descends_range _ _ _ _ _ _ Hpos) as Hrange.
  split.
  - intros Hlt. destruct (Rep_descends _ _ _ _ _ _ _ _ HR Hpos) as [v' HR'].
    by apply (Rep_local s node st en v').
  - intros i j op Hop Hi Hist Henj Hj.
    destruct (runs_unit _ _ _ (update_ok_public C fuel i j op s v Hv Hop Hf))
      as (s1 & log & Hrun & Hv1 & Hsz).
    destruct (runs_retval _ _ _ (query_ok C fuel st en s v Hv Hf))
      as (r & ? & ? & _ & Hr & -> & _).
    destruct (runs_retval _ _ _ (query_ok C fuel st en s1 _ Hv1 ltac:(by rewrite Hsz)))
      as (r1 & s2 & log' & Hrun1 & _ & -> & _).
    exists s1, log, (range_agg v st en), s2, log'. split_and!; [done| | | |].
    + pose proof (update_rec_stays_above fuel 1 0 (size s - 1) i j op s
        ltac:(lia) ltac:(lia) ltac:(lia)) as Hs.
      unfold safe in Hs. rewrite (update_Done _ _ _ _ _ _ _ Hrun) in Hs.
      destruct Hs as [_ Hs]. by apply (Hs node st en).
    + rewrite Hr. f_equal. f_equal; lia.
    + rewrite Hrun1. f_equal. rewrite Hsz.
      replace (Z.max 0 st) with st by lia.
      replace (Z.min (size s - 1) en) with en by lia.
      rewrite (apply_range_agg C); [|done|lia|].
      * apply range_agg_ext. intros k Hk. by rewrite updated_inside by lia.
      * intros k Hk. apply (stands_for_ok C s v); [done|lia].
    + pose proof (query_rec_stays_above fuel 1 0 (size s1 - 1) st en s1
        ltac:(lia) ltac:(lia) ltac:(lia)) as Hs.
      unfold safe in Hs. rewrite (query_Done _ _ _ _ _ _ _ Hrun1) in Hs.
      destruct Hs as [_ Hs]. apply (Hs node st en); [by rewrite Hsz|lia|lia].
Qed.

End Stored.

(** On the tree of four zeros, [update(0, 3, set 5)] stops at the root:
    slot 2, the position of the range [[0, 1]], still stores [(0, 0)] after
    an update whose range contains its range, while the aggregate of
    [[0, 1]] is [(5, 5)]. *)
Lemma stored_aggregate_below_pending_is_stale :
  let U := MinMaxTree.U in
  let s1 := state_of (update (Update0:=U) 3 0 3 (MinMax.mkOp "s" 5) MinMaxTree.four)
                     MinMaxTree.four in
  position 4 2 0 1 /\
  at_ (tree s1) 2 = Some (MinMax.mkNode 0 0) /\
  retval (query (Update0:=U) 3 0 1 s1) = Some (MinMax.mkNode 5 5).
Proof.
  intros U s1. split_and!; [|vm_compute; reflexivity..].
  apply descends_left; [lia|lia|]. change (mid 0 (4 - 1)) with 1.
  change (left 1) with 2. apply descends_here; lia.
Qed.

(** ** The theorems at work on the tree of four zeros *)

Module Witnesses.
Import MinMax MinMaxTree MinMaxLaws.

Lemma okO_set5 : okO set5.
Proof. split; [reflexivity|]. unfold INF; simpl; lia. Defined.

Lemma height_four : (height (size four) <= 3)%nat.
Proof. vm_compute. lia. Defined.

Lemma allocated_four : allocated four.
Proof. split; [vm_compute; discriminate|]. repeat split. Defined.

Lemma position_two : position (size four) 2 0 1.
Proof.
  change (position 4 2 0 1).
  apply descends_left; [lia|lia|]. change (mid 0 (4 - 1)) with 1.
  change (left 1) with 2. apply descends_here; lia.
Defined.

End Witnesses.

Lemma out_of_range_is_clipped_witness :
  exists r s1 log,
    query (Update0:=MinMaxTree.U) 3 (-1) 5 MinMaxTree.four = Done r s1 log /\
    retval (query (Update0:=MinMaxTree.U) 3 0 3 MinMaxTree.four) = Some r.
Proof.
  destruct (out_of_range_is_clipped (MinMaxLaws.contract MinMaxTree.nop) 3
              MinMaxTree.four (-1) 5 MinMaxLaws.four_reachable Witnesses.height_four)
    as [(r & s1 & log & Hq & Hclip & _) _].
  exists r, s1, log. split; [exact Hq|]. apply Hclip. vm_compute. discriminate.
Defined.


Lemma stored_aggregate_witness :
  exists s1 log r s2 log',
    update (Update0:=MinMaxTree.U) 3 0 3 MinMaxTree.set5 MinMaxTree.four = Done tt s1 log /\
    Forall (fun e => ~ below 2 (slot e)) log /\
    retval (query (Update0:=MinMaxTree.U) 3 0 1 MinMaxTree.four) = Some r /\
    query (Update0:=MinMaxTree.U) 3 0 1 s1
    = Done (MinMax.apply MinMaxTree.set5 r 0 1) s2 log' /\
    Forall (fun e => ~ below 2 (slot e)) log'.
Proof.
  destruct (stored_aggregate_reflects_applied_updates
              (MinMaxLaws.contract MinMaxTree.nop) 3 MinMaxTree.four 2 0 1
              MinMaxLaws.four_reachable Witnesses.position_two Witnesses.height_four)
    as [_ H].
  apply (H 0 3 MinMaxTree.set5 Witnesses.okO_set5); [lia|lia|lia|vm_compute; reflexivity].
Defined.

Lemma query_decomposition_witness :
  exists r rs,
    retval (query (Update0:=MinMaxTree.U) 3 0 3 MinMaxTree.four) = Some r /\
    retval (run (Update0:=MinMaxTree.U) 3 (queries [(0, 1); (2, 3)]) MinMaxTree.four)
    = Some rs /\
    combine rs = r.
Proof.
  apply (query_decomposition (MinMaxLaws.contract MinMaxTree.nop) 3 MinMaxTree.four 0 3
           [(0, 1); (2, 3)] MinMaxLaws.four_reachable).
  - lia.
  - vm_compute. reflexivity.
  - apply partition_cons; [lia|]. apply partition_one. lia.
  - exact Witnesses.height_four.
Defined.

Lemma operations_terminate_witness :
  exists r s' log,
    query (Update0:=MinMaxTree.U) 3 1 2 MinMaxTree.four = Done r s' log /\
    allocated s' /\ size s' = size MinMaxTree.four /\
    Z.of_nat (length log) <= 42 * Z.log2_up (size MinMaxTree.four) + 2.
Proof.
  destruct (operations_terminate (Update0:=MinMaxTree.U) 3) as [_ H].
  apply (H MinMaxTree.four 1 2 Witnesses.allocated_four Witnesses.height_four);
    [lia|lia|vm_compute; reflexivity].
Defined.

Lemma query_is_unobservable_witness :
  exists r s1 log,
    query (Update0:=MinMaxTree.U) 3 1 2 MinMaxTree.four = Done r s1 log /\
    (forall k : nat,
       retval (run (Update0:=MinMaxTree.U) 3 (replicate k (Query 1 2)) MinMaxTree.four)
       = Some (replicate k r)) /\
    (forall cmds, Forall (ok_command (okO:=MinMaxTree.okO)) cmds ->
       exists rs,
         retval (run (Update0:=MinMaxTree.U) 3 cmds MinMaxTree.four) = Some rs /\
         retval (run (Update0:=MinMaxTree.U) 3 cmds s1) = Some rs).
Proof.
  apply (query_is_unobservable (MinMaxLaws.contract MinMaxTree.nop) 3 MinMaxTree.four 1 2
           MinMaxLaws.four_reachable).
  - lia.
  - lia.
  - vm_compute. reflexivity.
  - exact Witnesses.height_four.
Defined.

Lemma accesses_in_bounds_witness :
  exists s' log,
    update (Update0:=MinMaxTree.U) 3 1 2 MinMaxTree.add3 MinMaxTree.four = Done tt s' log /\
    allocated s' /\ size s' = size MinMaxTree.four /\
    Forall (fun e => 1 <= slot e <= 4 * size MinMaxTree.four) log.
Proof.
  destruct (accesses_in_bounds (Update0:=MinMaxTree.U) 3) as [_ H].
  destruct (H MinMaxTree.four 1 2 Witnesses.allocated_four Witnesses.height_four)
    as [_ Hu]; [lia|lia|vm_compute; reflexivity|].
  apply Hu.
Defined.

(** ** A tree and its seed; updates in sequence *)

Section Seeded.
Context {Node Op : Type} `{!Aggregate Node} `{!Update Node Op}.
Context {okN : Node -> Prop} {okO : Op -> Prop} (C : Contract okN okO).
Implicit Types s : SegTree Node Op.
Implicit Types v : Z -> Node.

(** X1. On the tree that the constructor builds from a seed, with
    [4 * n + 1] within [int], the
    [query] of a valid interval returns the aggregates of the seed's
    elements of the interval, made by [Node(index, value)] and joined in
    the order of the elements; the [query] of a single element returns the
    aggregate made from that element. *)
Theorem construct_then_query fuel n arr i j :
  1 <= n -> 4 * n + 1 <= INT_MAX ->
  (height n <= fuel)%nat -> seed_ok (okN:=okN) arr 0 (n - 1) ->
  0 <= i -> i <= j -> j < n ->
  exists s log, construct fuel n arr = Done tt s log /\
    retval (query fuel i j s) = Some (range_agg (seed_value arr) i j) /\
    (forall k x, i <= k <= j -> at_ arr k = Some x ->
       retval (query fuel k k s) = Some (Node_leaf k x)).
Proof.
  intros Hn Hcap Hf Hseed Hi Hij Hj.
  destruct (construct_ok C fuel n arr Hn Hcap Hf Hseed) as (s & log & Hrun & Hsz & Hv & _).
  exists s, log. split; [done|]. rewrite <- Hsz in Hf. split.
  - destruct (runs_retval _ _ _ (query_ok C fuel i j s _ Hv Hf))
      as (r & ? & ? & _ & -> & -> & _).
    f_equal. f_equal; lia.
  - intros k x Hk Hx.
    destruct (runs_retval _ _ _ (query_ok C fuel k k s _ Hv Hf))
      as (r & ? & ? & _ & -> & -> & _).
    f_equal. replace (Z.max 0 k) with k by lia.
    replace (Z.min (size s - 1) k) with k by lia.
    rewrite (range_agg_single C).
    + unfold seed_value. by rewrite Hx.
    + apply (stands_for_ok C s); [done|lia].
Qed.

(** X7. Two updates of the same interval, one after the other, and the
    single update by what [merge] makes of them, give the same results to
    all the queries that follow. *)
Theorem merged_update_is_sequence fuel s i j p q cmds :
  reachable (okN:=okN) (okO:=okO) s -> okO p -> okO q -> i <= j ->
  (height (size s) <= fuel)%nat -> Forall (ok_command (okO:=okO)) cmds ->
  exists rs,
    retval (run fuel (Change i j p :: Change i j q :: cmds) s) = Some rs /\
    retval (run fuel (Change i j (Op_merge p q i j) :: cmds) s) = Some rs.
Proof.
  intros [v Hv]%(reachable_stands_for C) Hp Hq Hij Hf Hok.
  assert (okO (Op_merge p q i j)) as Hm by (by apply (ok_merge _ _ C)).
  destruct (runs_retval _ _ _ (run_answers C fuel (Change i j p :: Change i j q :: cmds)
      s v Hv Hf ltac:(by repeat constructor)))
    as (rs & ? & ? & _ & -> & -> & _).
  destruct (runs_retval _ _ _ (run_answers C fuel (Change i j (Op_merge p q i j) :: cmds)
      s v Hv Hf ltac:(by repeat constructor)))
    as (rs' & ? & ? & _ & -> & -> & _).
  eexists. split; [done|]. f_equal. simpl. apply answers_ext.
  intros k Hk. unfold updated. case_decide; [|done].
  apply (apply_merge _ _ C); try done; try lia.
  by apply (stands_for_ok C s).
Qed.

(** X8. Updates of two intervals that do not meet can be made in either
    order: all the queries that follow get the same results. *)
Theorem disjoint_updates_commute fuel s i j p i' j' q cmds :
  reachable (okN:=okN) (okO:=okO) s -> okO p -> okO q -> j < i' \/ j' < i ->
  (height (size s) <= fuel)%nat -> Forall (ok_command (okO:=okO)) cmds ->
  exists rs,
    retval (run fuel (Change i j p :: Change i' j' q :: cmds) s) = Some rs /\
    retval (run fuel (Change i' j' q :: Change i j p :: cmds) s) = Some rs.
Proof.
  intros [v Hv]%(reachable_stands_for C) Hp Hq Hdis Hf Hok.
  destruct (runs_retval _ _ _ (run_answers C fuel (Change i j p :: Change i' j' q :: cmds)
      s v Hv Hf ltac:(by repeat constructor)))
    as (rs & ? & ? & _ & -> & -> & _).
  destruct (runs_retval _ _ _ (run_answers C fuel (Change i' j' q :: Change i j p :: cmds)
      s v Hv Hf ltac:(by repeat constructor)))
    as (rs' & ? & ? & _ & -> & -> & _).
  eexists. split; [done|]. f_equal. simpl. apply answers_ext.
  intros k Hk. unfold updated. repeat case_decide; try done; lia.
Qed.

End Seeded.

(** ** The program *)

Section Main.
Import MinMax Program.
Context (nop : Op).

Lemma prompts_app os1 os2 : prompts (os1 ++ os2) = (prompts os1 + prompts os2)%nat.
Proof. induction os1 as [|[| |] os1 IH]; simpl; lia. Qed.

Lemma turn_total fuel c s :
  allocated s -> (height (size s) <= fuel)%nat ->
  exists o s' l, turn nop fuel c s = Done o s' l /\
    allocated s' /\ size s' = size s /\ prompts o = 0%nat.
Proof.
  intros Ha Hf. destruct c as [[[code st] en] arg]. unfold turn.
  destruct (_ || _)%bool.
  { destruct (update_total (Update0:=Op_update nop) fuel st en (mkOp code arg) s Ha Hf)
      as (s' & l & Hrun & Ha' & Hsz & _).
    unfold mbind, M_mbind, M_bind. rewrite Hrun. simpl. eauto 10. }
  destruct (query_total (Update0:=Op_update nop) fuel st en s Ha Hf)
    as (r & s' & l & Hrun & Ha' & Hsz & _).
  destruct (Ascii.eqb code "m").
  { unfold mbind, M_mbind, M_bind. rewrite Hrun. simpl. eauto 10. }
  destruct (Ascii.eqb code "M").
  { unfold mbind, M_mbind, M_bind. rewrite Hrun. simpl. eauto 10. }
  simpl. eauto 10.
Qed.

Lemma loop_total fuel input : forall s,
  allocated s -> (height (size s) <= fuel)%nat ->
  exists os s' l, loop nop fuel input s = Done os s' l /\
    allocated s' /\ size s' = size s /\ prompts os = length input.
Proof.
  induction input as [|c input IH]; intros s Ha Hf.
  { simpl. eauto 10. }
  destruct (turn_total fuel c s Ha Hf) as (o & s1 & l1 & Hrun1 & Ha1 & Hsz1 & Ho).
  destruct (IH s1 Ha1 ltac:(by rewrite Hsz1)) as (os & s2 & l2 & Hrun2 & Ha2 & Hsz2 & Hos).
  cbn [loop]. unfold mbind, M_mbind, M_bind. rewrite Hrun1, Hrun2. simpl.
  eexists _, _, _. split_and!; [done|done|congruence|].
  rewrite prompts_app. simpl. lia.
Qed.

(** X14. [main] runs to the end of its input whatever codes, bounds and
    arguments it reads: no command takes an access out of the vectors.  It
    writes one prompt before each reading, and the tree keeps its 100
    elements. *)
Theorem main_completes fuel input :
  (height 100 <= fuel)%nat ->
  exists out s log, main nop fuel input = Done out s log /\
    allocated s /\ size s = 100 /\ prompts out = S (length input).
Proof.
  intros Hf. unfold main.
  destruct (construct_total (Update0:=Op_update nop) fuel 100 arr)
    as (s0 & l0 & Hrun0 & Ha0 & Hsz0 & _); [lia|by vm_compute|by vm_compute|done|].
  rewrite Hrun0.
  destruct (loop_total fuel input s0 Ha0 ltac:(by rewrite Hsz0))
    as (os & s & l & Hrun & Ha & Hsz & Hos).
  rewrite Hrun. eexists _, _, _. split_and!; [done|done|congruence|].
  simpl. by rewrite Hos.
Qed.

End Main.

(** ** A tree without a seed *)

Section Unseeded.
Context {Node Op : Type} `{!Aggregate Node} `{!Update Node Op}.
Context {okN : Node -> Prop} {okO : Op -> Prop} (C : Contract okN okO).
Implicit Types s : SegTree Node Op.

Lemma range_agg_new a b : range_agg (fun _ => Node_new) a b = Node_new.
Proof.
  revert a b. refine (range_ind _ _ _); intros a b Hab.
  - by apply range_agg_empty.
  - intros IH. rewrite range_agg_cons by done. rewrite IH.
    apply (join_new_l _ _ C), (ok_new _ _ C).
Qed.

Lemma new_Rep cap s : forall (h : nat) node st en,
  fits cap node st en h ->
  (forall d, 1 <= d < cap ->
     at_ (tree s) d = Some Node_new /\ at_ (hasPending s) d = Some false /\
     at_ (pending s) d = Some Op_new) ->
  Rep (okN:=okN) (okO:=okO) s node st en (fun _ => Node_new).
Proof.
  induction h as [|h IH]; intros node st en Hfit Hs;
    pose proof (fits_slot _ _ _ _ _ Hfit) as Hslot;
    destruct (Hs node Hslot) as (Ht & Hh & Hp);
    pose proof Hfit as (_ & Hrange & Hlen & _).
  - assert (st = en) as -> by (simpl in Hlen; lia).
    apply Rep_leaf; [lia|done|apply (ok_new _ _ C)].
  - destruct (decide (st = en)) as [->|Hne].
    { apply Rep_leaf; [lia|done|apply (ok_new _ _ C)]. }
    destruct (fits_children _ _ _ _ _ Hfit ltac:(lia)) as (h' & [= <-] & Hl & Hr).
    apply Rep_node with (vc := fun _ => Node_new) (b := false) (p := Op_new);
      try done; try lia; [by apply IH|by apply IH|].
    by rewrite range_agg_new.
Qed.

(** X2. A tree made by [SegTree(n)], without a seed and with
    [4 * n + 1] within [int], is a tree of [n]
    elements that are all [Node()]: every [query] on it returns [Node()],
    and the updates and queries that follow act on these elements. *)
Theorem unseeded_tree_is_neutral fuel n :
  1 <= n -> 4 * n + 1 <= INT_MAX -> (height n <= fuel)%nat ->
  exists s, SegTree_new n = Done tt s [] /\
    (forall i j, retval (query fuel i j s) = Some Node_new) /\
    (forall cmds, Forall (ok_command (okO:=okO)) cmds ->
       retval (run fuel cmds s) = Some (answers n (fun _ => Node_new) cmds)).
Proof.
  intros Hn Hcap Hf. rewrite SegTree_new_fits by lia.
  eexists. split; [reflexivity|]. set (s := mkSegTree _ _ _ _).
  assert (stands_for (okN:=okN) (okO:=okO) s (fun _ => Node_new)) as Hv.
  { split; [done|]. apply (new_Rep (4 * n + 1) s _ 1 0 (n - 1) (fits_root n Hn)).
    intros d Hd. unfold s; simpl. by rewrite !at_resize by lia. }
  split.
  - intros i j.
    destruct (runs_retval _ _ _ (query_ok C fuel i j s _ Hv Hf))
      as (r & ? & ? & _ & -> & -> & _).
    by rewrite range_agg_new.
  - intros cmds Hok.
    destruct (runs_retval _ _ _ (run_answers C fuel cmds s _ Hv Hf Hok))
      as (rs & ? & ? & _ & -> & -> & _). done.
Qed.

End Unseeded.

(** * Further properties of the code *)

(** ** The work of [build] *)

Lemma calls_app l1 l2 : calls (l1 ++ l2) = (calls l1 + calls l2)%nat.
Proof. induction l1 as [|[?|?] l1 IH]; simpl; lia. Qed.

Section BuildWork.
Context {Node Op : Type} `{!Aggregate Node} `{!Update Node Op}.
Implicit Types s : SegTree Node Op.

Lemma build_rec_work arr fuel : forall node st en s,
  0 <= st -> st <= en ->
  safe (build_rec fuel arr node st en) s (fun _ _ l =>
    Z.of_nat (calls l) = 2 * (en - st + 1) - 1 /\
    Z.of_nat (length l) = 6 * (en - st + 1) - 4).
Proof.
  induction fuel as [|f IH]; intros node st en s Hst Hle; [done|].
  cbn [build_rec]. apply safe_bind, safe_enter.
  destruct (decide (st = en)) as [->|Hne].
  { apply safe_bind, safe_read_arr. intros x _. apply safe_write_tree. intros _.
    simpl. split; [change (calls _) with 1%nat|]; lia. }
  pose proof (mid_bounds st en Hst ltac:(lia)) as Hmid.
  apply safe_bind. eapply safe_mono; [apply IH; lia|].
  intros _ s1 l1 [Hc1 Hl1]; simpl.
  apply safe_bind. eapply safe_mono; [apply IH; lia|].
  intros _ s2 l2 [Hc2 Hl2]; simpl.
  apply safe_bind, safe_read_tree. intros l _.
  apply safe_bind, safe_read_tree. intros r _.
  apply safe_write_tree. intros _.
  change (Call node :: ?l) with ([Call node] ++ l).
  rewrite !calls_app, !length_app.
  cbn [calls length]. lia.
Qed.

(** X3. [build] makes one call for each position of the tree: with
    [n >= 1], [4 * n + 1] within [int] and a seed of at least [n] elements
    the constructor makes
    exactly [2 * n - 1] calls of [build] and [4 * n - 3] accesses to [tree]. *)
Theorem build_is_linear fuel n arr :
  1 <= n -> 4 * n + 1 <= INT_MAX ->
  n <= Z.of_nat (length arr) -> (height n <= fuel)%nat ->
  exists s log, construct fuel n arr = Done tt s log /\
    Z.of_nat (calls log) = 2 * n - 1 /\
    Z.of_nat (length log) - Z.of_nat (calls log) = 4 * n - 3.
Proof.
  intros Hn Hcap Hlen Hf.
  destruct (construct_total fuel n arr Hn Hcap Hlen Hf) as (s & log & Hrun & _).
  exists s, log. split; [done|].
  unfold construct in Hrun. rewrite SegTree_new_fits in Hrun by lia.
  unfold build, mbind, M_mbind, M_bind, get_size in Hrun. simpl in Hrun.
  pose proof (build_rec_work arr fuel 1 0 (n - 1)
    (mkSegTree n (resize (4 * n + 1) Node_new) (resize (4 * n + 1) false)
               (resize (4 * n + 1) Op_new)) ltac:(lia) ltac:(lia)) as Hw.
  unfold safe in Hw.
  destruct (build_rec fuel arr 1 0 (n - 1) _) as [[] s1 l1| | |]; try done.
  simpl in Hrun. injection Hrun as _ <-. lia.
Qed.

End BuildWork.

(** ** Queries when nothing is pending *)

Section Pure.
Context {Node Op : Type} `{!Aggregate Node} `{!Update Node Op}.
Implicit Types s : SegTree Node Op.

Lemma query_rec_pure fuel : forall node st en i j s,
  nothing_pending s ->
  safe (query_rec fuel node st en i j) s (fun _ s' _ => s' = s).
Proof.
  induction fuel as [|f IH]; intros node st en i j s Hnp; [done|].
  cbn [query_rec]. apply safe_bind, safe_enter.
  destruct (decide (j < st \/ i > en)); [by apply safe_ret|].
  destruct (decide (st >= i /\ en <= j)); [by apply safe_read_tree|].
  apply safe_bind. unfold applyPending, applyPending_with.
  apply safe_bind, safe_read_hasPending. intros b Hb.
  rewrite (Hnp node b Hb). apply safe_ret.
  apply safe_bind. eapply safe_mono; [by apply IH|].
  intros p1 s1 l1 ->; simpl.
  apply safe_bind. eapply safe_mono; [by apply IH|].
  intros p2 s2 l2 ->; simpl.
  by apply safe_ret.
Qed.

Lemma construct_nothing_pending fuel n arr s log :
  construct fuel n arr = Done tt s log -> nothing_pending s /\ size s = n.
Proof.
  unfold construct, SegTree_new. case_decide; [done|].
  unfold build, mbind, M_mbind, M_bind, get_size. simpl.
  set (s0 := mkSegTree _ _ _ _).
  assert (nothing_pending s0) as Hnp.
  { intros d b Hd. unfold at_, s0, resize in Hd; simpl in Hd. case_decide; [|done].
    by apply lookup_replicate in Hd as [-> _]. }
  assert (forall fuel node st en s1,
    safe (build_rec fuel arr node st en) s1 (fun _ s' _ =>
      hasPending s' = hasPending s1 /\ size s' = size s1)) as Hb.
  { clear. induction fuel as [|f IH]; intros node st en s1; [done|].
    cbn [build_rec]. apply safe_bind, safe_enter.
    destruct (decide (st = en)).
    { apply safe_bind, safe_read_arr. intros x _. by apply safe_write_tree. }
    apply safe_bind. eapply safe_mono; [apply IH|]. intros _ s2 _ [Hh2 Hs2]; simpl.
    apply safe_bind. eapply safe_mono; [apply IH|]. intros _ s3 _ [Hh3 Hs3]; simpl.
    apply safe_bind, safe_read_tree. intros l _.
    apply safe_bind, safe_read_tree. intros r _.
    apply safe_write_tree. intros _. simpl. split; congruence. }
  specialize (Hb fuel 1 0 (n - 1) s0). unfold safe in Hb.
  destruct (build_rec fuel arr 1 0 (n - 1) s0) as [[] s1 l1| | |]; try done.
  simpl. intros [= <- _]. destruct Hb as [Hh Hs]. split; [|done].
  intros d b. rewrite Hh. apply Hnp.
Qed.

(** X6. The constructor leaves no pending update; and as long as no slot
    is flagged as holding one, a [query], on any interval, leaves the tree
    exactly as it was. *)
Theorem query_without_pending_changes_nothing fuel :
  (forall n arr s log,
     construct fuel n arr = Done tt s log -> nothing_pending s) /\
  (forall s i j, allocated s -> nothing_pending s -> (height (size s) <= fuel)%nat ->
     exists r log, query fuel i j s = Done r s log).
Proof.
  split.
  - intros n arr s log Hrun. by apply construct_nothing_pending in Hrun as [? _].
  - intros s i j Ha Hnp Hf.
    destruct (query_total fuel i j s Ha Hf) as (r & s' & log & Hrun & _).
    pose proof (query_rec_pure fuel 1 0 (size s - 1) i j s Hnp) as Hp.
    unfold safe in Hp. rewrite (query_Done _ _ _ _ _ _ _ Hrun) in Hp. subst s'. eauto.
Qed.

End Pure.

(** ** The min/max aggregate and its updates *)

Module MinMaxFacts.
Import MinMax.

(** X9. [join] is associative, commutative and idempotent on all
    aggregates; [Node()] is neutral for it exactly on the aggregates whose
    minimum is at most [INF] and whose maximum is at least [-INF]. *)
Theorem join_laws :
  (forall a b c, join (join a b) c = join a (join b c)) /\
  (forall a b, join a b = join b a) /\
  (forall a, join a a = a) /\
  (forall a, join Node_default a = a <-> minVal a <= INF /\ - INF <= maxVal a) /\
  (forall a, join a Node_default = a <-> minVal a <= INF /\ - INF <= maxVal a).
Proof.
  split_and!.
  - intros [] [] []. unfold join; simpl. f_equal; lia.
  - intros [] []. unfold join; simpl. f_equal; lia.
  - intros []. unfold join; simpl. f_equal; lia.
  - intros [m x]. unfold join, Node_default; simpl. split.
    + intros [= H1 H2]. lia.
    + intros [? ?]. f_equal; lia.
  - intros [m x]. unfold join, Node_default; simpl. split.
    + intros [= H1 H2]. lia.
    + intros [? ?]. f_equal; lia.
Qed.

(** X11. [merge] gives an update that acts as "this, then the argument"
    exactly when the argument is a set, or has a zero [arg], or is an add
    merged into a set or an add, or has another code and is merged into an
    update of another code.  In particular an update of another code with a
    nonzero [arg] changes no aggregate by [apply], but changes the set or
    the add it is merged into. *)
Theorem merge_is_sequence_iff (p q : Op) :
  (forall x st en, apply (merge p q st en) x st en = apply q (apply p x st en) st en) <->
  code q = "s"%char \/ arg q = 0 \/
  (set_or_add p /\ code q = "a"%char) \/
  (~ set_or_add p /\ ~ set_or_add q).
Proof.
  destruct p as [cp ap], q as [cq aq]. unfold set_or_add, apply, merge; simpl.
  split.
  - intros H. specialize (H (mkNode 0 0) 0 0). revert H.
    destruct (Ascii.eqb_spec cq "s"); [by left|].
    destruct (Ascii.eqb_spec cq "a"); simpl;
      destruct (Ascii.eqb_spec cp "s"); simpl;
      try destruct (Ascii.eqb_spec cp "a"); simpl;
      intros H; apply (f_equal minVal) in H; simpl in H; try tauto;
      try (right; left; lia).
    all: right; right; right; split; intros [?|?]; congruence.
  - intros H x st en.
    destruct (Ascii.eqb cq "s") eqn:Eqs; simpl; rewrite ?Eqs; [done|].
    destruct (Ascii.eqb cq "a") eqn:Eqa, (Ascii.eqb cp "s") eqn:Eps,
             (Ascii.eqb cp "a") eqn:Epa; simpl; rewrite ?Eqs, ?Eqa, ?Eps, ?Epa; simpl;
      repeat match goal with
             | E : Ascii.eqb _ _ = true |- _ => apply Ascii.eqb_eq in E
             | E : Ascii.eqb _ _ = false |- _ => apply Ascii.eqb_neq in E
             end;
      try done; try (f_equal; lia);
      destruct H as [H|[H|[[[H|H] H']|[H H']]]]; simpl in *;
      try congruence; try (subst; destruct x; simpl; f_equal; lia); tauto.
Qed.

End MinMaxFacts.

(** ** What [applyPending] does *)

Section Pushdown.
Context {Node Op : Type} `{!Aggregate Node} `{!Update Node Op}.
Implicit Types s : SegTree Node Op.

(** [update] on a position inside [[i, j]], as a change of state. *)
Lemma update_rec_stops fuel node st en i j op s x b p :
  i <= st -> st <= en -> en <= j ->
  at_ (tree s) node = Some x -> at_ (hasPending s) node = Some b ->
  at_ (pending s) node = Some p ->
  runs (update_rec (S fuel) node st en i j op) s (fun _ s' _ => s' =
    mkSegTree (size s) (put (tree s) node (Op_apply op x st en))
      (if decide (st = en) then hasPending s else put (hasPending s) node true)
      (if decide (st = en) then pending s
       else put (pending s) node (if b then Op_merge p op st en else op))).
Proof.
  intros Hi Hle Hj Hx Hb Hp. cbn [update_rec].
  apply runs_bind, runs_enter. rewrite decide_False by lia.
  destruct (decide (st = en)) as [->|Hne].
  { apply runs_bind. eapply runs_read_tree; [exact Hx|].
    by apply runs_write_tree. }
  rewrite decide_True by lia.
  apply runs_bind. eapply runs_read_tree; [exact Hx|].
  apply runs_bind. apply runs_write_tree; [by eauto|].
  apply runs_bind. eapply runs_read_hasPending; [exact Hb|].
  apply runs_bind.
  apply runs_mono with (Q := fun p' s' _ =>
    p' = (if b then Op_merge p op st en else op) /\
    s' = mkSegTree (size s) (put (tree s) node (Op_apply op x st en))
           (hasPending s) (pending s)).
  { destruct b; [|by apply runs_ret].
    apply runs_bind. eapply runs_read_pending; [exact Hp|]. by apply runs_ret. }
  intros p' s' _ [-> ->].
  apply runs_bind. apply runs_write_pending; [simpl; by eauto|].
  apply runs_write_hasPending; [simpl; by eauto|]. done.
Qed.

(** X4. [applyPending] on a position without a pending update does
    nothing.  On a position of several elements with the pending update
    [p] it applies [p] to the aggregates stored for the two children,
    leaves [p] pending at each child of several elements (merged into the
    update that was pending there, if any), and takes the flag of the
    position down; nothing else changes. *)
Theorem applyPending_pushes_down fuel node st en s (b : bool) p l r bl br pl pr :
  1 <= node -> 0 <= st -> st < en ->
  at_ (hasPending s) node = Some b -> at_ (pending s) node = Some p ->
  at_ (tree s) (left node) = Some l -> at_ (tree s) (right node) = Some r ->
  at_ (hasPending s) (left node) = Some bl -> at_ (hasPending s) (right node) = Some br ->
  at_ (pending s) (left node) = Some pl -> at_ (pending s) (right node) = Some pr ->
  exists s' log, applyPending (S fuel) node st en s = Done tt s' log /\
    if b then
      at_ (hasPending s') node = Some false /\
      at_ (tree s') (left node) = Some (Op_apply p l st (mid st en)) /\
      at_ (tree s') (right node) = Some (Op_apply p r (mid st en + 1) en) /\
      at_ (hasPending s') (left node) = Some (flag_after st (mid st en) bl) /\
      at_ (hasPending s') (right node) = Some (flag_after (mid st en + 1) en br) /\
      at_ (pending s') (left node) = Some (pending_after st (mid st en) bl pl p) /\
      at_ (pending s') (right node) = Some (pending_after (mid st en + 1) en br pr p) /\
      at_ (tree s') node = at_ (tree s) node /\
      at_ (pending s') node = Some p /\
      touches (fun d => d = node \/ d = left node \/ d = right node) s s'
    else s' = s.
Proof.
  intros Hn Hst Hlt Hb Hp Hl Hr Hbl Hbr Hpl Hpr.
  pose proof (mid_bounds st en Hst Hlt) as Hmid.
  assert (0 <= left node /\ 0 <= right node /\ left node <> node /\
          right node <> node /\ left node <> right node) as (H0l & H0r & Hln & Hrn & Hlr)
    by (unfold left, right; lia).
  assert (is_Some (at_ (tree s) (left node))) as Hsl by eauto.
  assert (is_Some (at_ (hasPending s) (left node))) as Hshl by eauto.
  assert (is_Some (at_ (pending s) (left node))) as Hspl by eauto.
  refine (runs_unit _ _ (fun _ s' _ => _) _). unfold applyPending, applyPending_with.
  apply runs_bind. eapply runs_read_hasPending; [exact Hb|].
  destruct b; [|by apply runs_ret].
  apply runs_bind. eapply runs_read_pending; [exact Hp|].
  apply runs_bind. eapply runs_mono;
    [apply (update_rec_stops fuel (left node) st (mid st en) st en p s l bl pl);
     (lia || done)|].
  intros _ s1' _ ->; simpl. set (s1 := mkSegTree _ _ _ _).
  assert (at_ (pending s1) node = Some p) as Hp1.
  { unfold s1; simpl. case_decide; [done|]. by rewrite at_put_ne. }
  assert (at_ (tree s1) (right node) = Some r) as Hr1.
  { unfold s1; simpl. by rewrite at_put_ne. }
  assert (at_ (hasPending s1) (right node) = Some br) as Hbr1.
  { unfold s1; simpl. case_decide; [done|]. by rewrite at_put_ne. }
  assert (at_ (pending s1) (right node) = Some pr) as Hpr1.
  { unfold s1; simpl. case_decide; [done|]. by rewrite at_put_ne. }
  apply runs_bind. eapply runs_read_pending; [exact Hp1|].
  apply runs_bind. eapply runs_mono;
    [apply (update_rec_stops fuel (right node) (mid st en + 1) en st en p s1 r br pr);
     (lia || done)|].
  intros _ s2' _ ->; simpl. set (s2 := mkSegTree _ _ _ _).
  assert (at_ (hasPending s2) node = Some true) as Hb2.
  { unfold s2, s1; simpl. repeat case_decide; rewrite ?at_put_ne by done; done. }
  assert (is_Some (at_ (hasPending s2) node)) as Hs2 by eauto.
  assert (is_Some (at_ (tree s1) (right node))) as Hsr1 by eauto.
  assert (is_Some (at_ (hasPending s1) (right node))) as Hshr1 by eauto.
  assert (is_Some (at_ (pending s1) (right node))) as Hspr1 by eauto.
  apply runs_write_hasPending; [done|]. simpl.
  split_and!.
  - by apply at_put_eq.
  - unfold s1; simpl. rewrite at_put_ne by done. by apply at_put_eq.
  - by apply at_put_eq.
  - rewrite at_put_ne by lia. unfold s1, flag_after; simpl.
    repeat case_decide; rewrite ?at_put_ne by done; try done; by apply at_put_eq.
  - rewrite at_put_ne by lia. unfold flag_after.
    case_decide; [done|]. by apply at_put_eq.
  - unfold s1, pending_after; simpl.
    repeat case_decide; rewrite ?at_put_ne by done; try done; by apply at_put_eq.
  - unfold pending_after. case_decide; [done|]. by apply at_put_eq.
  - unfold s1; simpl. by rewrite !at_put_ne by done.
  - unfold s1; simpl. repeat case_decide; rewrite ?at_put_ne by done; done.
  - unfold touches, same_at, s2, s1; simpl.
    split_and!; [done|by rewrite !length_put|..].
    + rewrite length_put. repeat case_decide; by rewrite ?length_put.
    + repeat case_decide; by rewrite ?length_put.
    + intros d Hd.
      assert (node <> d /\ left node <> d /\ right node <> d) as (? & ? & ?)
        by (split_and!; intros E; apply Hd; rewrite <- E; auto).
      assert (0 <= node) by lia.
      repeat case_decide; rewrite ?at_put_ne by done; done.
Qed.

End Pushdown.

(** ** The sentinels of the min/max aggregate *)

Section Capped.
Import MinMax MinMaxTree.
Context (nop : Op).
Implicit Types s : SegTree Node Op.

Lemma okN_join_l a b : okN a -> okN (join a b).
Proof. unfold okN, join; simpl. lia. Qed.

Lemma okN_join_r a b : okN b -> okN (join a b).
Proof. unfold okN, join; simpl. lia. Qed.

Lemma query_rec_capped fuel : forall node st en i j s,
  0 <= st -> st <= en -> ~ (i <= st /\ en <= j) ->
  safe (query_rec (Update0:=Op_update nop) fuel node st en i j) s (fun r _ _ => okN r).
Proof.
  induction fuel as [|f IH]; intros node st en i j s Hst Hle Hout; [done|].
  cbn [query_rec]. apply safe_bind, safe_enter.
  destruct (decide (j < st \/ i > en)).
  { apply safe_ret. unfold okN; simpl. unfold INF. lia. }
  rewrite decide_False by lia.
  assert (st < en) as Hlt by lia.
  pose proof (mid_bounds st en Hst Hlt) as Hmid.
  apply safe_bind. eapply safe_mono with (Q := fun _ _ _ => True). 
  { unfold safe. by destruct (applyPending _ _ _ _ _). }
  intros _ s1 _ _; simpl.
  destruct (decide (i <= st /\ mid st en <= j)) as [Hin|Hl].
  - apply safe_bind. eapply safe_mono with (Q := fun _ _ _ => True).
    { unfold safe. by destruct (query_rec _ _ _ _ _ _ _). }
    intros p1 s2 _ _; simpl.
    apply safe_bind. eapply safe_mono; [apply IH; lia|].
    intros p2 s3 ? Hp2; simpl in *. apply safe_ret. by apply okN_join_r.
  - apply safe_bind. eapply safe_mono; [apply IH; lia|].
    intros p1 s2 ? Hp1; simpl in *.
    apply safe_bind. eapply safe_mono with (Q := fun _ _ _ => True).
    { unfold safe. by destruct (query_rec _ _ _ _ _ _ _). }
    intros p2 s3 _ _; simpl. apply safe_ret. by apply okN_join_l.
Qed.

(** X12. Whatever the tree stores, a [query] of the min/max tree on an
    interval that does not contain all of [[0, n - 1]] reports a minimum of
    at most [INF] and a maximum of at least [-INF]: values beyond the
    sentinels of [Node()] are not reported as they are. *)
Theorem partial_query_is_capped fuel s i j :
  allocated s -> (height (size s) <= fuel)%nat -> ~ (i <= 0 /\ size s - 1 <= j) ->
  exists r s' log, query (Update0:=Op_update nop) fuel i j s = Done r s' log /\
    minVal r <= INF /\ - INF <= maxVal r.
Proof.
  intros Ha Hf Hout.
  destruct (query_total (Update0:=Op_update nop) fuel i j s Ha Hf)
    as (r & s' & log & Hrun & _).
  pose proof (query_rec_capped fuel 1 0 (size s - 1) i j s ltac:(lia)
    ltac:(destruct Ha; lia) Hout) as Hc.
  unfold safe in Hc. rewrite (query_Done _ _ _ _ _ _ _ Hrun) in Hc.
  exists r, s', log. by split.
Qed.

End Capped.

(** ** Single elements hold no pending update *)

Section Leaves.
Context {Node Op : Type} `{!Aggregate Node} `{!Update Node Op}.
Implicit Types s : SegTree Node Op.

Lemma leaves_clear_flags s s' node st en :
  hasPending s' = hasPending s -> leaves_clear s node st en -> leaves_clear s' node st en.
Proof.
  intros Hh. induction 1; [apply clear_leaf|apply clear_node]; try done. by rewrite Hh.
Qed.

Lemma leaves_clear_touches (T : Z -> Prop) s s' node st en :
  1 <= node -> leaves_clear s node st en -> touches T s s' ->
  (forall d, sub node d -> ~ T d) -> leaves_clear s' node st en.
Proof.
  intros Hn HL (_ & _ & _ & _ & HT). revert Hn.
  induction HL as [node st ? Hf|node st en ? ? _ IHl _ IHr]; intros Hn Hdis.
  - destruct (HT node) as (_ & Hh & _); [apply Hdis, sub_refl|].
    apply clear_leaf; [done|]. by rewrite Hh.
  - apply clear_node; [done..| |].
    + apply IHl; [unfold left; lia|]. intros d Hd. by apply Hdis, sub_left.
    + apply IHr; [unfold right; lia|]. intros d Hd. by apply Hdis, sub_right.
Qed.

(** A change of the slot of a position of several elements leaves the
    single elements below it as they are. *)
Lemma leaves_clear_at_node s s' node st en :
  1 <= node -> st < en -> leaves_clear s node st en -> touches (eq node) s s' ->
  leaves_clear s' node st en.
Proof.
  intros Hn Hlt HL HT. inversion HL as [|? ? ? ? ? Hl Hr]; subst; [lia|].
  apply clear_node; [done..| |].
  - eapply leaves_clear_touches; [|exact Hl|exact HT|]; [unfold left; lia|].
    intros d Hd <-. by apply (not_sub_left_self node).
  - eapply leaves_clear_touches; [|exact Hr|exact HT|]; [unfold right; lia|].
    intros d Hd <-. by apply (not_sub_right_self node).
Qed.

Lemma applyPending_with_clear upd node st en s :
  (forall node st en i j op s, 1 <= node -> leaves_clear s node st en ->
     safe (upd node st en i j op) s (fun _ s' _ =>
       leaves_clear s' node st en /\ touches (sub node) s s')) ->
  1 <= node -> st < en -> leaves_clear s node st en ->
  safe (applyPending_with upd node st en) s (fun _ s' _ =>
    leaves_clear s' node st en /\ touches (sub node) s s').
Proof.
  intros Hupd Hn Hlt HL. unfold applyPending_with.
  inversion HL as [|? ? ? H0 _ Hl Hr]; subst; [lia|].
  apply safe_bind, safe_read_hasPending. intros b _.
  destruct b; [|apply safe_ret; split; [done|apply touches_refl]].
  apply safe_bind, safe_read_pending. intros p _.
  apply safe_bind. eapply safe_mono; [apply Hupd; [unfold left; lia|exact Hl]|].
  intros _ s1 _ [Hl1 HT1]; simpl.
  apply safe_bind, safe_read_pending. intros p' _.
  assert (leaves_clear s1 (right node) (mid st en + 1) en) as Hr1.
  { eapply leaves_clear_touches; [|exact Hr|exact HT1|]; [unfold right; lia|].
    intros d Hdr Hdl. by apply (sub_disjoint node d). }
  apply safe_bind. eapply safe_mono; [apply Hupd; [unfold right; lia|exact Hr1]|].
  intros _ s2 _ [Hr2 HT2]; simpl.
  assert (leaves_clear s2 (left node) st (mid st en)) as Hl2.
  { eapply leaves_clear_touches; [|exact Hl1|exact HT2|]; [unfold left; lia|].
    intros d Hdl Hdr. by apply (sub_disjoint node d). }
  apply safe_write_hasPending. intros Hs.
  pose proof (touches_write_hasPending node false s2 Hs) as HT3.
  split.
  - eapply leaves_clear_at_node; [done|done| |exact HT3]. by apply clear_node.
  - eapply touches_trans; [apply touches_left_sub, HT1|].
    eapply touches_trans; [apply touches_right_sub, HT2|].
    apply touches_eq_sub, HT3.
Qed.

Lemma update_rec_clear fuel : forall node st en i j op s,
  1 <= node -> leaves_clear s node st en ->
  safe (update_rec fuel node st en i j op) s (fun _ s' _ =>
    leaves_clear s' node st en /\ touches (sub node) s s').
Proof.
  induction fuel as [|f IH]; intros node st en i j op s Hn HL; [done|].
  cbn [update_rec]. apply safe_bind, safe_enter.
  destruct (decide (j < st \/ i > en)).
  { apply safe_ret. split; [done|apply touches_refl]. }
  destruct (decide (st = en)) as [->|Hne].
  { apply safe_bind, safe_read_tree. intros x _.
    apply safe_write_tree. intros Hs. split.
    - by apply (leaves_clear_flags s).
    - apply touches_eq_sub. by apply touches_write_tree. }
  assert (st < en) as Hlt by (inversion HL; lia).
  destruct (decide (st >= i /\ en <= j)).
  { apply safe_bind, safe_read_tree. intros x _.
    apply safe_bind, safe_write_tree. intros Hs1.
    pose proof (touches_write_tree node (Op_apply op x st en) s Hs1) as HT1.
    set (s1 := mkSegTree _ _ _ _) in *.
    apply safe_bind, safe_read_hasPending. intros b _.
    apply safe_bind.
    eapply safe_mono with (Q := fun _ s' _ => s' = s1).
    { destruct b; [|by apply safe_ret].
      apply safe_bind, safe_read_pending. intros p _. by apply safe_ret. }
    intros p' ? _ ->.
    apply safe_bind, safe_write_pending. intros Hs2.
    pose proof (touches_write_pending node p' s1 Hs2) as HT2.
    set (s2 := mkSegTree _ _ _ (put _ _ _)) in *.
    apply safe_write_hasPending. intros Hs3.
    pose proof (touches_write_hasPending node true s2 Hs3) as HT3.
    assert (touches (eq node) s (mkSegTree (size s2) (tree s2)
              (put (hasPending s2) node true) (pending s2))) as HT
      by (eapply touches_trans; [exact HT1|]; eapply touches_trans; [exact HT2|exact HT3]).
    split; [by eapply leaves_clear_at_node|by apply touches_eq_sub]. }
  inversion HL as [|? ? ? H0 _ Hl Hr]; subst; [lia|].
  apply safe_bind. eapply safe_mono; [by apply applyPending_with_clear|].
  intros _ s1 _ [HL1 HT1]; simpl.
  inversion HL1 as [|? ? ? _ _ Hl1 Hr1]; subst; [lia|].
  apply safe_bind.
  eapply safe_mono with (Q := fun _ s' _ =>
    leaves_clear s' (left node) st (mid st en) /\ touches (sub (left node)) s1 s').
  { destruct (decide (i <= mid st en)).
    - apply IH; [unfold left; lia|done].
    - apply safe_ret. split; [done|apply touches_refl]. }
  intros _ s2 _ [Hl2 HT2].
  assert (leaves_clear s2 (right node) (mid st en + 1) en) as Hr2.
  { eapply leaves_clear_touches; [|exact Hr1|exact HT2|]; [unfold right; lia|].
    intros d Hdr Hdl. by apply (sub_disjoint node d). }
  apply safe_bind.
  eapply safe_mono with (Q := fun _ s' _ =>
    leaves_clear s' (right node) (mid st en + 1) en /\ touches (sub (right node)) s2 s').
  { destruct (decide (j > mid st en)).
    - apply IH; [unfold right; lia|done].
    - apply safe_ret. split; [done|apply touches_refl]. }
  intros _ s3 _ [Hr3 HT3].
  assert (leaves_clear s3 (left node) st (mid st en)) as Hl3.
  { eapply leaves_clear_touches; [|exact Hl2|exact HT3|]; [unfold left; lia|].
    intros d Hdl Hdr. by apply (sub_disjoint node d). }
  apply safe_bind, safe_read_tree. intros xl _.
  apply safe_bind, safe_read_tree. intros xr _.
  apply safe_write_tree. intros Hs. split.
  - apply (leaves_clear_flags s3); [done|]. by apply clear_node.
  - eapply touches_trans; [exact HT1|].
    eapply touches_trans; [apply touches_left_sub, HT2|].
    eapply touches_trans; [apply touches_right_sub, HT3|].
    apply touches_eq_sub. by apply touches_write_tree.
Qed.

Lemma query_rec_clear fuel : forall node st en i j s,
  1 <= node -> leaves_clear s node st en ->
  safe (query_rec fuel node st en i j) s (fun _ s' _ =>
    leaves_clear s' node st en /\ touches (sub node) s s').
Proof.
  induction fuel as [|f IH]; intros node st en i j s Hn HL; [done|].
  cbn [query_rec]. apply safe_bind, safe_enter.
  destruct (decide (j < st \/ i > en)).
  { apply safe_ret. split; [done|apply touches_refl]. }
  destruct (decide (st >= i /\ en <= j)).
  { apply safe_read_tree. intros x _. split; [done|apply touches_refl]. }
  assert (st < en) as Hlt by (inversion HL; lia).
  apply safe_bind. eapply safe_mono.
  { apply applyPending_with_clear; [|done..]. apply update_rec_clear. }
  intros _ s1 _ [HL1 HT1]; simpl.
  inversion HL1 as [|? ? ? _ _ Hl1 Hr1]; subst; [lia|].
  apply safe_bind. eapply safe_mono; [apply IH; [unfold left; lia|exact Hl1]|].
  intros p1 s2 _ [Hl2 HT2]; simpl.
  assert (leaves_clear s2 (right node) (mid st en + 1) en) as Hr2.
  { eapply leaves_clear_touches; [|exact Hr1|exact HT2|]; [unfold right; lia|].
    intros d Hdr Hdl. by apply (sub_disjoint node d). }
  apply safe_bind. eapply safe_mono; [apply IH; [unfold right; lia|exact Hr2]|].
  intros p2 s3 _ [Hr3 HT3]; simpl.
  assert (leaves_clear s3 (left node) st (mid st en)) as Hl3.
  { eapply leaves_clear_touches; [|exact Hl2|exact HT3|]; [unfold left; lia|].
    intros d Hdl Hdr. by apply (sub_disjoint node d). }
  apply safe_ret. split.
  - apply clear_node; [inversion HL; lia|done..].
  - eapply touches_trans; [exact HT1|].
    eapply touches_trans; [apply touches_left_sub, HT2|apply touches_right_sub, HT3].
Qed.

Lemma build_rec_clear arr fuel : forall node st en s,
  0 <= st -> st <= en ->
  length (hasPending s) = length (tree s) -> nothing_pending s ->
  safe (build_rec fuel arr node st en) s (fun _ s' _ =>
    leaves_clear s' node st en /\ hasPending s' = hasPending s /\
    length (tree s') = length (tree s) /\ size s' = size s).
Proof.
  induction fuel as [|f IH]; intros node st en s Hst Hle Hlen Hnp; [done|].
  cbn [build_rec]. apply safe_bind, safe_enter.
  destruct (decide (st = en)) as [->|Hne].
  { apply safe_bind, safe_read_arr. intros x _.
    apply safe_write_tree. intros Hs. simpl. split_and!; [|done|apply length_put|done].
    apply clear_leaf; [done|]. simpl.
    assert (is_Some (at_ (hasPending s) node)) as [b Hb].
    { apply at_is_Some. apply at_is_Some in Hs. lia. }
    by rewrite Hb, (Hnp node b Hb). }
  pose proof (mid_bounds st en Hst ltac:(lia)) as Hmid.
  apply safe_bind. eapply safe_mono; [apply IH; (lia || done)|].
  intros _ s1 _ (Hl1 & Hh1 & Ht1 & Hz1); simpl.
  apply safe_bind. eapply safe_mono.
  { apply IH; [lia|lia|congruence|]. intros d b. rewrite Hh1. apply Hnp. }
  intros _ s2 _ (Hr2 & Hh2 & Ht2 & Hz2); simpl.
  apply safe_bind, safe_read_tree. intros l _.
  apply safe_bind, safe_read_tree. intros r _.
  apply safe_write_tree. intros _. simpl.
  split_and!; [|congruence|rewrite length_put; congruence|congruence].
  apply clear_node; [lia|lia| |].
  - apply (leaves_clear_flags s1); [simpl; congruence|done].
  - by apply (leaves_clear_flags s2).
Qed.

Lemma in_use_leaves_clear s :
  in_use s -> 1 <= size s /\ leaves_clear s 1 0 (size s - 1).
Proof.
  induction 1 as [fuel n arr s log Hn Hrun
                 |fuel i j op s s' log _ [Hn HL] Hrun
                 |fuel i j s r s' log _ [Hn HL] Hrun].
  - unfold construct, SegTree_new in Hrun. case_decide; [done|].
    unfold build, mbind, M_mbind, M_bind, get_size in Hrun. simpl in Hrun.
    set (s0 := mkSegTree _ _ _ _) in Hrun.
    pose proof (build_rec_clear arr fuel 1 0 (n - 1) s0 ltac:(lia) ltac:(lia)) as Hb.
    unfold safe in Hb.
    destruct (build_rec fuel arr 1 0 (n - 1) s0) as [[] s1 l1| | |]; try done.
    injection Hrun as <- _.
    destruct Hb as (HL & _ & _ & Hz).
    + unfold s0, resize; simpl. by rewrite !length_replicate.
    + intros d b Hd. unfold at_, s0, resize in Hd; simpl in Hd. case_decide; [|done].
      by apply lookup_replicate in Hd as [-> _].
    + rewrite Hz. simpl. done.
  - pose proof (update_rec_clear fuel 1 0 (size s - 1) i j op s ltac:(lia) HL) as Hu.
    unfold safe in Hu. rewrite (update_Done _ _ _ _ _ _ _ Hrun) in Hu.
    destruct Hu as [HL' (Hz & _)]. rewrite Hz. done.
  - pose proof (query_rec_clear fuel 1 0 (size s - 1) i j s ltac:(lia) HL) as Hq.
    unfold safe in Hq. rewrite (query_Done _ _ _ _ _ _ _ Hrun) in Hq.
    destruct Hq as [HL' (Hz & _)]. rewrite Hz. done.
Qed.

Lemma leaves_clear_descends s node st en node' k :
  leaves_clear s node st en -> descends node st en node' k k ->
  at_ (hasPending s) node' = Some false.
Proof.
  intros HL Hd. remember k as k' eqn:Hk in Hd at 2.
  induction Hd as [node st en ? ?|? ? ? ? ? ? ? Hlt _ IH|? ? ? ? ? ? ? Hlt _ IH];
    subst.
  - inversion HL; subst; [done|lia].
  - inversion HL; subst; [lia|]. by apply IH.
  - inversion HL; subst; [lia|]. by apply IH.
Qed.

(** X5. However the tree has been built, updated and queried, the
    slot of a single element is never flagged as holding a pending update:
    an update of a single element is applied at once. *)
Theorem leaves_hold_no_pending s node k :
  in_use s -> position (size s) node k k -> at_ (hasPending s) node = Some false.
Proof.
  intros [_ HL]%in_use_leaves_clear Hpos.
  by apply (leaves_clear_descends s 1 0 (size s - 1) node k).
Qed.

End Leaves.

(** ** Laws of the min/max updates *)

Module MinMaxOpLaws.
Import MinMax.

(** X10. For every update of the min/max instantiation, whatever its
    code, with the sums on 32 bits, wrapping around: [apply] on a [join]
    is the [join] of [apply] on the two parts, when the sums of an add fit
    an [int]; and [merge] is associative. *)
Theorem update_laws :
  (forall op x y a m b,
     (code op = "a"%char ->
      INT_MIN <= minVal x + arg op <= INT_MAX /\
      INT_MIN <= maxVal x + arg op <= INT_MAX /\
      INT_MIN <= minVal y + arg op <= INT_MAX /\
      INT_MIN <= maxVal y + arg op <= INT_MAX) ->
     apply32 op (join x y) a b = join (apply32 op x a m) (apply32 op y (m + 1) b)) /\
  (forall p q r a b,
     merge32 (merge32 p q a b) r a b = merge32 p (merge32 q r a b) a b).
Proof.
  split.
  - intros [c k] [m1 x1] [m2 x2] a m b. unfold apply32, join; simpl. intros Hfit.
    destruct (Ascii.eqb c "s"); simpl; [f_equal; lia|].
    destruct (Ascii.eqb_spec c "a") as [->|_]; simpl; [|done].
    destruct Hfit as (H1 & H2 & H3 & H4); [done|].
    rewrite !(wrap_id (m1 + k)), !(wrap_id (x1 + k)),
            !(wrap_id (m2 + k)), !(wrap_id (x2 + k)) by done.
    destruct (Z.min_spec m1 m2) as [[? ->]|[? ->]];
      destruct (Z.max_spec x1 x2) as [[? ->]|[? ->]];
      rewrite ?wrap_id by done; f_equal; lia.
  - intros [cp ap] [cq aq] [cr ar] a b. unfold merge32; simpl.
    destruct (Ascii.eqb cr "s") eqn:Er; simpl; rewrite ?Er; [done|].
    destruct (Ascii.eqb cq "s") eqn:Eq; simpl; [done|]. f_equal.
    by rewrite wrap_add_l, wrap_add_r, Z.add_assoc.
Qed.

End MinMaxOpLaws.

(** ** The min/max tree and the array it stands for *)

Module MinMaxArrayFacts.
Import MinMax MinMaxArray.

Lemma extremes_point a k : extremes a k k (mkNode (a k) (a k)).
Proof.
  split_and!; simpl.
  - intros k' Hk. assert (k' = k) as -> by lia. lia.
  - exists k. split; [lia|done].
  - exists k. split; [lia|done].
Qed.

Lemma extremes_join a lo m hi l r :
  lo <= m -> m < hi -> extremes a lo m l -> extremes a (m + 1) hi r ->
  extremes a lo hi (join l r).
Proof.
  intros Hlo Hhi (Hl & (kl & Hkl & Hml) & (kl' & Hkl' & Hxl))
                 (Hr & (kr & Hkr & Hmr) & (kr' & Hkr' & Hxr)).
  unfold extremes, join; simpl. split_and!.
  - intros k Hk. destruct (decide (k <= m)).
    + specialize (Hl k ltac:(lia)). lia.
    + specialize (Hr k ltac:(lia)). lia.
  - destruct (Z.min_spec (minVal l) (minVal r)) as [[_ ->]|[_ ->]].
    + exists kl. split; [lia|done].
    + exists kr. split; [lia|done].
  - destruct (Z.max_spec (maxVal l) (maxVal r)) as [[_ ->]|[_ ->]].
    + exists kr'. split; [lia|done].
    + exists kl'. split; [lia|done].
Qed.

Lemma extremes_ext a a' lo hi r :
  (forall k, lo <= k <= hi -> a k = a' k) -> extremes a lo hi r -> extremes a' lo hi r.
Proof.
  intros Ha (Hb & (km & Hkm & Hm) & (kx & Hkx & Hx)). split_and!.
  - intros k Hk. rewrite <- Ha by done. by apply Hb.
  - exists km. split; [done|]. by rewrite <- Ha.
  - exists kx. split; [done|]. by rewrite <- Ha.
Qed.

(** [apply] on the extremes of elements that it leaves between [-INF]
    and [INF]: its sums fit an [int]. *)
Lemma extremes_apply32 op a lo hi x st en :
  extremes a lo hi x ->
  (forall k, lo <= k <= hi -> - INF <= act op (a k) <= INF) ->
  extremes (fun k => act op (a k)) lo hi (apply32 op x st en).
Proof.
  intros (Hb & (km & Hkm & Hm) & (kx & Hkx & Hx)) Hin.
  pose proof (Hin km Hkm) as Hinm. pose proof (Hin kx Hkx) as Hinx.
  unfold apply32, act in *.
  destruct (Ascii.eqb (code op) "s").
  { split_and!; simpl; [lia|by exists km|by exists km]. }
  destruct (Ascii.eqb (code op) "a").
  { rewrite <- Hm, <- Hx.
    rewrite !wrap_id by (unfold INF, INT_MIN, INT_MAX in *; lia).
    split_and!; simpl.
    - intros k Hk. specialize (Hb k Hk). lia.
    - by exists km.
    - by exists kx. }
  by split_and!; [|exists km|exists kx].
Qed.

(** Within the sentinels, [Node()] is neutral. *)
Lemma extremes_neutral a lo hi x :
  (forall k, lo <= k <= hi -> - INF <= a k <= INF) -> extremes a lo hi x ->
  join Node_default x = x /\ join x Node_default = x.
Proof.
  intros Ha (Hb & (km & Hkm & Hm) & (kx & Hkx & Hx)).
  pose proof (Ha km Hkm). pose proof (Ha kx Hkx).
  destruct x as [m M]. unfold join, Node_default; simpl in *. split; f_equal; lia.
Qed.

Lemma least_cons a lo hi : lo <= hi -> least a lo hi = Z.min (a lo) (least a (lo + 1) hi).
Proof.
  intros. unfold least. rewrite seqZ_cons by lia. simpl.
  replace (Z.succ lo) with (lo + 1) by lia.
  replace (Z.pred (hi + 1 - lo)) with (hi + 1 - (lo + 1)) by lia. done.
Qed.

Lemma greatest_cons a lo hi :
  lo <= hi -> greatest a lo hi = Z.max (a lo) (greatest a (lo + 1) hi).
Proof.
  intros. unfold greatest. rewrite seqZ_cons by lia. simpl.
  replace (Z.succ lo) with (lo + 1) by lia.
  replace (Z.pred (hi + 1 - lo)) with (hi + 1 - (lo + 1)) by lia. done.
Qed.

Lemma least_empty a lo hi : hi < lo -> least a lo hi = INF.
Proof. intros. unfold least. by rewrite seqZ_nil by lia. Qed.

Lemma greatest_empty a lo hi : hi < lo -> greatest a lo hi = - INF.
Proof. intros. unfold greatest. by rewrite seqZ_nil by lia. Qed.

(** [least] and [greatest] are the extremes of elements within the
    sentinels. *)
Lemma extremes_least_greatest a : forall lo hi,
  lo <= hi -> (forall k, lo <= k <= hi -> - INF <= a k <= INF) ->
  extremes a lo hi (mkNode (least a lo hi) (greatest a lo hi)).
Proof.
  refine (range_ind _ _ _); intros lo hi Hle; [lia|].
  intros IH _ Ha. rewrite least_cons, greatest_cons by done.
  pose proof (Ha lo ltac:(lia)) as Hlo.
  destruct (decide (lo = hi)) as [->|Hne].
  - rewrite least_empty, greatest_empty by lia.
    replace (Z.min (a hi) INF) with (a hi) by lia.
    replace (Z.max (a hi) (- INF)) with (a hi) by lia.
    apply extremes_point.
  - change (mkNode (Z.min (a lo) (least a (lo + 1) hi))
                    (Z.max (a lo) (greatest a (lo + 1) hi)))
      with (join (mkNode (a lo) (a lo))
                 (mkNode (least a (lo + 1) hi) (greatest a (lo + 1) hi))).
    apply (extremes_join a lo lo hi); [lia|lia|apply extremes_point|].
    apply IH; [lia|]. intros k Hk. apply Ha. lia.
Qed.

Lemma extremes_unique a lo hi x y : extremes a lo hi x -> extremes a lo hi y -> x = y.
Proof.
  intros (Hx & (kx & Hkx & Hmx) & (kx' & Hkx' & HMx))
         (Hy & (ky & Hky & Hmy) & (ky' & Hky' & HMy)).
  pose proof (Hx ky Hky). pose proof (Hx ky' Hky').
  pose proof (Hy kx Hkx). pose proof (Hy kx' Hkx').
  destruct x, y; simpl in *. f_equal; lia.
Qed.

(** [merge] of two updates that leave some element between [-INF] and
    [INF], the one after the other: its sum fits an [int]. *)
Lemma act_merge32 p q y0 st en :
  set_or_add p -> set_or_add q ->
  - INF <= y0 <= INF -> - INF <= act p y0 <= INF -> - INF <= act q (act p y0) <= INF ->
  set_or_add (merge32 p q st en) /\
  forall y, act (merge32 p q st en) y = act q (act p y).
Proof.
  destruct p as [cp ap], q as [cq aq]. unfold set_or_add, act, merge32; simpl.
  intros [->| ->] [->| ->]; simpl; intros H0 H1 H2;
    rewrite ?wrap_id by (unfold INF, INT_MIN, INT_MAX in *; lia);
    (split; [auto|intros y; lia]).
Qed.

Lemma changed_inside i j op a k : i <= k <= j -> changed i j op a k = act op (a k).
Proof. intros. unfold changed. by rewrite decide_True. Qed.

Lemma changed_outside i j op a k : ~ (i <= k <= j) -> changed i j op a k = a k.
Proof. intros. unfold changed. by rewrite decide_False. Qed.

Section Tree.
Context (nop : Op).
Implicit Types s : SegTree Node Op.
Implicit Types a : Z -> Z.

Lemma Holds_range s node st en a : Holds s node st en a -> 0 <= st <= en.
Proof. destruct 1; lia. Qed.

Lemma Holds_tree s node st en a :
  Holds s node st en a -> exists x, at_ (tree s) node = Some x /\ extremes a st en x.
Proof. destruct 1; [|by eauto]. eexists. split; [done|]. apply extremes_point. Qed.

Lemma Holds_bounds s node st en a :
  Holds s node st en a -> forall k, st <= k <= en -> - INF <= a k <= INF.
Proof. destruct 1; [|done]. intros k Hk. by assert (k = st) as -> by lia. Qed.

Lemma Holds_ext s node st en a a' :
  (forall k, st <= k <= en -> a k = a' k) -> Holds s node st en a -> Holds s node st en a'.
Proof.
  intros Ha. destruct 1 as [node st a ? ? ?|node st en a ac b p x ? ? Hl Hr ? ? Hv Hin ? Hx].
  - apply Holds_leaf; [done| |]; by rewrite <- Ha by lia.
  - apply Holds_node with (ac := ac) (b := b) (p := p) (x := x); try done.
    + destruct b; [destruct Hv as [? Hv]; split; [done|]|];
        intros k Hk; rewrite <- Ha by done; by apply Hv.
    + intros k Hk. rewrite <- Ha by done. by apply Hin.
    + by apply (extremes_ext a).
Qed.

Lemma Holds_touches (T : Z -> Prop) s s' node st en a :
  1 <= node -> Holds s node st en a -> touches T s s' ->
  (forall d, sub node d -> ~ T d) -> Holds s' node st en a.
Proof.
  intros Hn HH (_ & _ & _ & _ & HT). revert Hn.
  induction HH as [node st a ? ? ?|node st en a ac b p x ? ? _ IHl _ IHr ? ? Hv Hin ? Hx];
    intros Hn Hdis.
  - destruct (HT node) as (Ht & _ & _); [apply Hdis, sub_refl|].
    apply Holds_leaf; [done|done|]. by rewrite Ht.
  - destruct (HT node) as (Ht & Hh & Hp); [apply Hdis, sub_refl|].
    apply Holds_node with (ac := ac) (b := b) (p := p) (x := x); try done; try congruence.
    + apply IHl; [unfold left; lia|]. intros d Hd. by apply Hdis, sub_left.
    + apply IHr; [unfold right; lia|]. intros d Hd. by apply Hdis, sub_right.
Qed.

Lemma Holds_touches_left s s' node st en a :
  1 <= node -> Holds s (right node) st en a -> touches (sub (left node)) s s' ->
  Holds s' (right node) st en a.
Proof.
  intros Hn HH HT. eapply Holds_touches; [|exact HH|exact HT|]; [unfold right; lia|].
  intros d Hr Hl. by apply (sub_disjoint node d).
Qed.

Lemma Holds_touches_right s s' node st en a :
  1 <= node -> Holds s (left node) st en a -> touches (sub (right node)) s s' ->
  Holds s' (left node) st en a.
Proof.
  intros Hn HH HT. eapply Holds_touches; [|exact HH|exact HT|]; [unfold left; lia|].
  intros d Hl Hr. by apply (sub_disjoint node d).
Qed.

Lemma Holds_touches_parent_l s s' node st en a :
  1 <= node -> Holds s (left node) st en a -> touches (eq node) s s' ->
  Holds s' (left node) st en a.
Proof.
  intros Hn HH HT. eapply Holds_touches; [|exact HH|exact HT|]; [unfold left; lia|].
  intros d Hl <-. by apply (not_sub_left_self node).
Qed.

Lemma Holds_touches_parent_r s s' node st en a :
  1 <= node -> Holds s (right node) st en a -> touches (eq node) s s' ->
  Holds s' (right node) st en a.
Proof.
  intros Hn HH HT. eapply Holds_touches; [|exact HH|exact HT|]; [unfold right; lia|].
  intros d Hl <-. by apply (not_sub_right_self node).
Qed.

(** [update] on the subtree at [node], for the ranges of at most [bound]
    elements. *)
Local Abbreviation update_holds upd bound :=
  (forall node st en i j op s a,
     1 <= node -> en - st + 1 <= bound -> set_or_add op -> Holds s node st en a ->
     (forall k, st <= k <= en -> - INF <= changed i j op a k <= INF) ->
     runs (Op:=Op) (upd node st en i j op) s (fun _ s' _ =>
       Holds s' node st en (changed i j op a) /\ touches (sub node) s s')).

Lemma applyPending_with_holds upd bound node st en s a :
  update_holds upd bound -> 1 <= node -> st < en ->
  mid st en - st + 1 <= bound -> en - (mid st en + 1) + 1 <= bound ->
  Holds s node st en a ->
  runs (applyPending_with upd node st en) s (fun _ s' _ =>
    Holds s' (left node) st (mid st en) a /\
    Holds s' (right node) (mid st en + 1) en a /\
    at_ (hasPending s') node = Some false /\
    at_ (tree s') node = at_ (tree s) node /\
    is_Some (at_ (pending s') node) /\
    touches (sub node) s s').
Proof.
  intros Hupd Hn Hlt Hbl Hbr HH.
  inversion HH as [|? ? ? ? ac b p x H0 _ Hl Hr Hh Hp Hv Hin Ht Hx]; subst; [lia|].
  pose proof (mid_bounds st en H0 Hlt) as Hmid.
  unfold applyPending_with.
  apply runs_bind. eapply runs_read_hasPending; [done|].
  destruct b.
  - destruct Hv as [Hokp Hv].
    apply runs_bind. eapply runs_read_pending; [done|].
    apply runs_bind. eapply runs_mono.
    { apply (Hupd (left node) st (mid st en) st en p s ac); [unfold left; lia|lia|done|done|].
      intros k Hk. rewrite changed_inside, <- Hv by lia. apply Hin. lia. }
    intros _ s1 _ [HHl1 HT1]; simpl.
    destruct (same_at_child_l node s s1 Hn HT1) as (Ht1 & Hh1 & Hp1).
    apply runs_bind. eapply runs_read_pending; [by rewrite Hp1|].
    apply runs_bind. eapply runs_mono.
    { apply (Hupd (right node) (mid st en + 1) en st en p s1 ac);
        [unfold right; lia|lia|done| |].
      - by apply (Holds_touches_left s).
      - intros k Hk. rewrite changed_inside, <- Hv by lia. apply Hin. lia. }
    intros _ s2 _ [HHr2 HT2]; simpl.
    destruct (same_at_child_r node s1 s2 Hn HT2) as (Ht2 & Hh2 & Hp2).
    assert (is_Some (at_ (hasPending s2) node)) as Hs by (rewrite Hh2, Hh1, Hh; eauto).
    apply runs_write_hasPending; [done|].
    pose proof (touches_write_hasPending node false s2 Hs) as HT3.
    set (s3 := mkSegTree _ _ _ _) in *.
    split_and!.
    + apply (Holds_touches_parent_l s2); [done| |done].
      apply (Holds_touches_right s1); [done| |done].
      revert HHl1. apply Holds_ext. intros k Hk.
      rewrite changed_inside by lia. symmetry. apply Hv. lia.
    + apply (Holds_touches_parent_r s2); [done| |done].
      revert HHr2. apply Holds_ext. intros k Hk.
      rewrite changed_inside by lia. symmetry. apply Hv. lia.
    + simpl. by apply at_put_eq.
    + simpl. congruence.
    + simpl. rewrite Hp2, Hp1, Hp. eauto.
    + eapply touches_trans; [|apply touches_eq_sub, HT3].
      eapply touches_trans; [apply touches_left_sub, HT1|apply touches_right_sub, HT2].
  - apply runs_ret. split_and!; [| |done|done|by rewrite Hp|apply touches_refl].
    + revert Hl. apply Holds_ext. intros k Hk. symmetry. apply Hv. lia.
    + revert Hr. apply Holds_ext. intros k Hk. symmetry. apply Hv. lia.
Qed.

Lemma update_rec_holds fuel :
  update_holds (update_rec (Update0:=Op32_update nop) fuel) (cap_of fuel).
Proof.
  induction fuel as [|f IH]; intros node st en i j op s a Hn Hlen Hop HH Hnew.
  { apply Holds_range in HH. simpl in Hlen. lia. }
  pose proof (Holds_range _ _ _ _ _ HH) as Hrange.
  cbn [update_rec]. apply runs_bind, runs_enter.
  destruct (decide (j < st \/ i > en)) as [Hdis|Hdis].
  { apply runs_ret. split; [|apply touches_refl].
    revert HH. apply Holds_ext. intros k Hk. rewrite changed_outside; [done|lia]. }
  destruct (decide (st = en)) as [->|Hne].
  { inversion HH as [? ? ? ? Hast Ht|]; subst; [|lia].
    apply runs_bind. eapply runs_read_tree; [exact Ht|].
    apply runs_write_tree; [by rewrite Ht|].
    split; [|apply touches_eq_sub, touches_write_tree; by rewrite Ht].
    pose proof (Hnew en ltac:(lia)) as Hnew1.
    apply Holds_leaf; [lia|done|]. simpl. rewrite at_put_eq by (by rewrite Ht).
    rewrite changed_inside in * by lia. f_equal. simpl. unfold apply32, act in *; simpl.
    destruct (Ascii.eqb (code op) "s"); [done|].
    destruct (Ascii.eqb (code op) "a"); [|done].
    by rewrite wrap_id by (unfold INF, INT_MIN, INT_MAX in *; lia). }
  inversion HH as [|? ? ? ? ac b p x H0 Hlt Hl Hr Hh Hp Hv Hina Ht Hx]; subst; [lia|].
  pose proof (mid_bounds st en H0 Hlt) as Hmid.
  destruct (decide (st >= i /\ en <= j)) as [Hin|Hpart].
  { apply runs_bind. eapply runs_read_tree; [done|].
    apply runs_bind, runs_write_tree; [by rewrite Ht|].
    pose proof (touches_write_tree node (apply32 op x st en) s ltac:(by rewrite Ht)) as HT1.
    set (s1 := mkSegTree _ (put _ _ _) _ _) in *.
    apply runs_bind. eapply runs_read_hasPending; [exact Hh|].
    set (p' := if b then merge32 p op st en else op).
    apply runs_bind with
      (Q := fun _ s' _ => Holds s' node st en (changed i j op a) /\ touches (sub node) s s').
    eapply runs_mono with (Q := fun r s' _ => r = p' /\ s' = s1).
    { destruct b; [|by apply runs_ret].
      apply runs_bind. eapply runs_read_pending; [exact Hp|]. by apply runs_ret. }
    intros ? ? _ [-> ->].
    assert (is_Some (at_ (pending s1) node)) as Hsp by (simpl; rewrite Hp; eauto).
    apply runs_bind, runs_write_pending; [done|].
    pose proof (touches_write_pending node p' s1 Hsp) as HT2.
    set (s2 := mkSegTree _ _ _ (put _ _ _)) in *.
    assert (is_Some (at_ (hasPending s2) node)) as Hsh by (simpl; rewrite Hh; eauto).
    apply runs_write_hasPending; [done|].
    pose proof (touches_write_hasPending node true s2 Hsh) as HT3.
    set (s3 := mkSegTree _ _ (put _ _ _) _) in *.
    assert (touches (eq node) s s3) as HT.
    { eapply touches_trans; [|exact HT3]. eapply touches_trans; [exact HT1|exact HT2]. }
    split; [|by apply touches_eq_sub].
    assert (forall k, st <= k <= en -> - INF <= act op (a k) <= INF) as Hact.
    { intros k Hk. rewrite <- (changed_inside i j op a k) by lia. by apply Hnew. }
    apply Holds_node with (ac := ac) (b := true) (p := p') (x := apply32 op x st en);
      try done.
    - by apply (Holds_touches_parent_l s).
    - by apply (Holds_touches_parent_r s).
    - simpl. by apply at_put_eq.
    - simpl. by apply at_put_eq.
    - subst p'. destruct b.
      + destruct Hv as [Hokp Hv].
        destruct (act_merge32 p op (ac st) st en Hokp Hop) as [Hokm Hm].
        { apply (Holds_bounds _ _ _ _ _ Hl). lia. }
        { rewrite <- Hv by lia. apply Hina. lia. }
        { rewrite <- Hv by lia. apply Hact. lia. }
        split; [done|].
        intros k Hk. rewrite changed_inside by lia. by rewrite Hm, Hv.
      + split; [done|]. intros k Hk. rewrite changed_inside by lia. by rewrite Hv.
    - simpl. by apply at_put_eq.
    - apply (extremes_ext (fun k => act op (a k))); [|by apply extremes_apply32].
      intros k Hk. by rewrite changed_inside by lia. }
  destruct (halves_cap st en f H0 Hlt Hlen) as [Hcl Hcr].
  apply runs_bind. eapply runs_mono.
  { apply (applyPending_with_holds _ _ node st en s a IH); done. }
  intros _ s1 _ (HHl1 & HHr1 & Hh1 & Ht1 & Hp1 & HT1); simpl.
  apply runs_bind with (Q := fun _ s' _ =>
      Holds s' node st en (changed i j op a) /\ touches (sub node) s s').
  eapply runs_mono with (Q := fun _ s2 _ =>
      Holds s2 (left node) st (mid st en) (changed i j op a) /\
      touches (sub (left node)) s1 s2).
  { destruct (decide (i <= mid st en)).
    - apply IH; [unfold left; lia|lia|done|done|]. intros k Hk. apply Hnew. lia.
    - apply runs_ret. split; [|apply touches_refl].
      revert HHl1. apply Holds_ext. intros k Hk. rewrite changed_outside; [done|lia]. }
  intros _ s2 _ [HHl2 HT2].
  apply runs_bind with (Q := fun _ s' _ =>
      Holds s' node st en (changed i j op a) /\ touches (sub node) s s').
  eapply runs_mono with (Q := fun _ s3 _ =>
      Holds s3 (right node) (mid st en + 1) en (changed i j op a) /\
      touches (sub (right node)) s2 s3).
  { pose proof (Holds_touches_left _ _ _ _ _ _ Hn HHr1 HT2) as HHr2.
    destruct (decide (j > mid st en)).
    - apply IH; [unfold right; lia|lia|done|done|]. intros k Hk. apply Hnew. lia.
    - apply runs_ret. split; [|apply touches_refl].
      revert HHr2. apply Holds_ext. intros k Hk. rewrite changed_outside; [done|lia]. }
  intros _ s3 _ [HHr3 HT3].
  pose proof (Holds_touches_right _ _ _ _ _ _ Hn HHl2 HT3) as HHl3.
  destruct (same_at_child_l node s1 s2 Hn HT2) as (Ht2 & Hh2 & Hp2).
  destruct (same_at_child_r node s2 s3 Hn HT3) as (Ht3 & Hh3 & Hp3).
  destruct (Holds_tree _ _ _ _ _ HHl3) as (xl & Hxl & Hel).
  destruct (Holds_tree _ _ _ _ _ HHr3) as (xr & Hxr & Her).
  apply runs_bind. eapply runs_read_tree; [exact Hxl|].
  apply runs_bind. eapply runs_read_tree; [exact Hxr|].
  assert (is_Some (at_ (tree s3) node)) as Hst by (rewrite Ht3, Ht2, Ht1, Ht; eauto).
  apply runs_write_tree; [done|].
  pose proof (touches_write_tree node (join xl xr) s3 Hst) as HT4.
  set (s4 := mkSegTree _ (put _ _ _) _ _) in *.
  split.
  - destruct Hp1 as [p1 Hp1].
    apply Holds_node with (ac := changed i j op a) (b := false) (p := p1) (x := join xl xr);
      try done.
    + by apply (Holds_touches_parent_l s3).
    + by apply (Holds_touches_parent_r s3).
    + simpl. congruence.
    + simpl. congruence.
    + simpl. by rewrite at_put_eq by done.
    + apply (extremes_join _ st (mid st en) en); [lia|lia|done|done].
  - eapply touches_trans; [exact HT1|].
    eapply touches_trans; [apply touches_left_sub, HT2|].
    eapply touches_trans; [apply touches_right_sub, HT3|].
    apply touches_eq_sub, HT4.
Qed.

Lemma query_rec_holds fuel : forall node st en i j s a,
  1 <= node -> en - st + 1 <= cap_of fuel -> Holds s node st en a ->
  runs (query_rec (Update0:=Op32_update nop) fuel node st en i j) s (fun r s' _ =>
    (Z.min en j < Z.max st i -> r = Node_default) /\
    (Z.max st i <= Z.min en j -> extremes a (Z.max st i) (Z.min en j) r) /\
    Holds s' node st en a /\ touches (sub node) s s').
Proof.
  induction fuel as [|f IH]; intros node st en i j s a Hn Hlen HH.
  { apply Holds_range in HH. simpl in Hlen. lia. }
  pose proof (Holds_range _ _ _ _ _ HH) as Hrange.
  pose proof (Holds_bounds _ _ _ _ _ HH) as Ha.
  cbn [query_rec]. apply runs_bind, runs_enter.
  destruct (decide (j < st \/ i > en)) as [Hdis|Hdis].
  { apply runs_ret. split_and!; [done|lia|done|apply touches_refl]. }
  destruct (decide (st >= i /\ en <= j)) as [Hin|Hpart].
  { destruct (Holds_tree _ _ _ _ _ HH) as (x & Hx & He).
    eapply runs_read_tree; [exact Hx|].
    split_and!; [lia| |done|apply touches_refl].
    intros _. replace (Z.max st i) with st by lia. by replace (Z.min en j) with en by lia. }
  assert (st < en) as Hlt by lia.
  pose proof (mid_bounds st en ltac:(lia) Hlt) as Hmid.
  destruct (halves_cap st en f) as [Hcl Hcr]; [lia..|].
  apply runs_bind. eapply runs_mono.
  { apply (applyPending_with_holds _ _ node st en s a (update_rec_holds f)); done. }
  intros _ s1 _ (HHl1 & HHr1 & Hh1 & Ht1 & [p1 Hp1] & HT1); simpl.
  apply runs_bind. eapply runs_mono.
  { apply (IH (left node) st (mid st en) i j s1 a); [unfold left; lia|lia|done]. }
  intros r1 s2 _ (Hr1e & Hr1 & HHl2 & HT2); simpl.
  pose proof (Holds_touches_left _ _ _ _ _ _ Hn HHr1 HT2) as HHr2.
  destruct (same_at_child_l node s1 s2 Hn HT2) as (Ht2 & Hh2 & Hp2).
  apply runs_bind. eapply runs_mono.
  { apply (IH (right node) (mid st en + 1) en i j s2 a); [unfold right; lia|lia|done]. }
  intros r2 s3 _ (Hr2e & Hr2 & HHr3 & HT3); simpl.
  pose proof (Holds_touches_right _ _ _ _ _ _ Hn HHl2 HT3) as HHl3.
  destruct (same_at_child_r node s2 s3 Hn HT3) as (Ht3 & Hh3 & Hp3).
  destruct (Holds_tree _ _ _ _ _ HH) as (x & Hx & He).
  apply runs_ret. split_and!.
  - intros Hempty. rewrite Hr1e, Hr2e by lia. done.
  - intros Hne.
    destruct (decide (Z.max st i <= Z.min (mid st en) j)) as [Hl|Hl];
      destruct (decide (Z.max (mid st en + 1) i <= Z.min en j)) as [Hr|Hr].
    + specialize (Hr1 Hl). specialize (Hr2 Hr).
      replace (Z.min (mid st en) j) with (mid st en) in Hr1 by lia.
      replace (Z.max (mid st en + 1) i) with (mid st en + 1) in Hr2 by lia.
      apply (extremes_join a _ (mid st en)); [lia|lia|done|done].
    + specialize (Hr1 Hl). rewrite Hr2e by lia.
      replace (Z.min en j) with (Z.min (mid st en) j) by lia.
      assert (forall k, Z.max st i <= k <= Z.min (mid st en) j -> - INF <= a k <= INF)
        as Hal by (intros; apply Ha; lia).
      rewrite (proj2 (extremes_neutral a _ _ r1 Hal Hr1)). done.
    + specialize (Hr2 Hr). rewrite Hr1e by lia.
      replace (Z.max st i) with (Z.max (mid st en + 1) i) by lia.
      assert (forall k, Z.max (mid st en + 1) i <= k <= Z.min en j -> - INF <= a k <= INF)
        as Har by (intros; apply Ha; lia).
      rewrite (proj1 (extremes_neutral a _ _ r2 Har Hr2)). done.
    + lia.
  - apply Holds_node with (ac := a) (b := false) (p := p1) (x := x);
      try done; try lia; congruence.
  - eapply touches_trans; [exact HT1|].
    eapply touches_trans; [apply touches_left_sub, HT2|apply touches_right_sub, HT3].
Qed.

Lemma Built_Holds s arr node st en :
  Built (Op:=Op) s arr node st en ->
  length (hasPending s) = length (tree s) ->
  length (pending s) = length (tree s) ->
  nothing_pending s ->
  (forall k, st <= k <= en -> - INF <= seed_array arr k <= INF) ->
  Holds s node st en (seed_array arr).
Proof.
  intros HB Hlh Hlp Hfalse.
  induction HB as [node st x ? Hx Ht|node st en l r ? ? HBl IHl HBr IHr Hl Hr Ht];
    intros Hseed.
  - apply Holds_leaf; [done|apply Hseed; lia|]. unfold seed_array. by rewrite Hx.
  - pose proof (mid_bounds st en ltac:(lia) ltac:(lia)) as Hmid.
    specialize (IHl ltac:(intros; apply Hseed; lia)).
    specialize (IHr ltac:(intros; apply Hseed; lia)).
    assert (0 <= node < Z.of_nat (length (tree s))) as Hnode.
    { apply at_is_Some. by rewrite Ht. }
    assert (is_Some (at_ (hasPending s) node)) as [b Hb] by (apply at_is_Some; lia).
    assert (is_Some (at_ (pending s) node)) as [p Hp] by (apply at_is_Some; lia).
    pose proof (Hfalse _ _ Hb) as ->.
    destruct (Holds_tree _ _ _ _ _ IHl) as (xl & Hxl & Hel).
    destruct (Holds_tree _ _ _ _ _ IHr) as (xr & Hxr & Her).
    assert (xl = l) as -> by congruence. assert (xr = r) as -> by congruence.
    apply Holds_node with (ac := seed_array arr) (b := false) (p := p) (x := join l r);
      try done.
    apply (extremes_join _ st (mid st en) en); [lia|lia|done|done].
Qed.

Lemma construct_holds fuel n arr :
  1 <= n -> 4 * n + 1 <= INT_MAX ->
  n <= Z.of_nat (length arr) -> (height n <= fuel)%nat ->
  (forall k, 0 <= k < n -> - INF <= seed_array arr k <= INF) ->
  exists s log, construct (Update0:=Op32_update nop) fuel n arr = Done tt s log /\
    size s = n /\ Holds s 1 0 (n - 1) (seed_array arr).
Proof.
  intros Hn Hcap Hlen Hf Hseed. unfold construct.
  rewrite SegTree_new_fits by lia.
  set (s0 := mkSegTree _ _ _ _).
  assert (capacity (4 * n + 1) s0) as Hc0.
  { unfold capacity, s0, resize; simpl. rewrite !length_replicate. lia. }
  assert (nothing_pending s0) as Hfalse.
  { intros d b Hd. unfold at_, s0, resize in Hd; simpl in Hd. case_decide; [|done].
    by apply lookup_replicate in Hd as [-> _]. }
  assert (Z.to_nat (Z.log2_up n) < fuel)%nat as Hfuel by (unfold height in Hf; lia).
  assert (forall k, 0 <= k <= n - 1 -> is_Some (at_ arr k)) as Harr.
  { intros k Hk. apply at_is_Some. lia. }
  destruct (runs_unit _ _ _ (build_rec_built arr (4 * n + 1) fuel _
      1 0 (n - 1) s0 Hfuel (fits_root n Hn) Hc0 Harr))
    as (s1 & l1 & Hrun & HB & HT & Hh & Hp & _).
  unfold build, mbind, M_mbind, M_bind, get_size. simpl. rewrite Hrun.
  destruct HT as (Hsz & Hlt & Hlh & Hlp & _), Hc0 as (Hc0t & Hc0h & Hc0p).
  exists s1, l1. split_and!; [done|done|].
  apply Built_Holds; try done; try lia.
  - intros d b. rewrite Hh. apply Hfalse.
  - intros k Hk. apply Hseed. lia.
Qed.

Lemma query_holds fuel i j s a :
  1 <= size s -> Holds s 1 0 (size s - 1) a -> (height (size s) <= fuel)%nat ->
  runs (query (Update0:=Op32_update nop) fuel i j) s (fun r s' _ =>
    r = mkNode (least a (Z.max 0 i) (Z.min (size s - 1) j))
               (greatest a (Z.max 0 i) (Z.min (size s - 1) j)) /\
    Holds s' 1 0 (size s - 1) a /\ size s' = size s).
Proof.
  intros Hn HH Hf. unfold query.
  assert (forall k, Z.max 0 i <= k <= Z.min (size s - 1) j -> - INF <= a k <= INF) as Ha.
  { intros k Hk. apply (Holds_bounds _ _ _ _ _ HH). lia. }
  apply runs_bind, runs_get_size. eapply runs_mono.
  { apply (query_rec_holds fuel 1 0 (size s - 1) i j s a); [lia| |done].
    pose proof (height_cap (size s) fuel Hn Hf). lia. }
  intros r s' _ (Hre & Hr & HH' & HT). destruct HT as (Hsz & _).
  split_and!; [|done|done].
  destruct (decide (Z.max 0 i <= Z.min (size s - 1) j)) as [Hne|He].
  - apply (extremes_unique a (Z.max 0 i) (Z.min (size s - 1) j)); [by apply Hr|].
    by apply extremes_least_greatest.
  - rewrite Hre, least_empty, greatest_empty by lia. done.
Qed.

Lemma update_holds_public fuel i j op s a :
  1 <= size s -> Holds s 1 0 (size s - 1) a -> (height (size s) <= fuel)%nat ->
  set_or_add op ->
  (forall k, 0 <= k < size s -> - INF <= changed i j op a k <= INF) ->
  runs (update (Update0:=Op32_update nop) fuel i j op) s (fun _ s' _ =>
    Holds s' 1 0 (size s - 1) (changed i j op a) /\ size s' = size s).
Proof.
  intros Hn HH Hf Hop Hnew. unfold update.
  apply runs_bind, runs_get_size. eapply runs_mono.
  { apply (update_rec_holds fuel 1 0 (size s - 1) i j op s a); [lia| |done|done|].
    - pose proof (height_cap (size s) fuel Hn Hf). lia.
    - intros k Hk. apply Hnew. lia. }
  intros _ s' _ (HH' & HT). destruct HT as (Hsz & _). done.
Qed.

Lemma run_array fuel cmds : forall s a,
  1 <= size s -> Holds s 1 0 (size s - 1) a -> (height (size s) <= fuel)%nat ->
  kept_in_range (size s) a cmds ->
  runs (run (Update0:=Op32_update nop) fuel cmds) s (fun rs _ _ =>
    rs = array_answers (size s) a cmds).
Proof.
  induction cmds as [|[i j|i j op] cmds IH]; intros s a Hn HH Hf Hok;
    cbn [run array_answers]; cbn [kept_in_range] in Hok.
  - by apply runs_ret.
  - apply runs_bind. eapply runs_mono; [by apply query_holds|].
    intros r s1 _ (-> & HH1 & Hsz1); simpl.
    apply runs_bind. eapply runs_mono.
    { apply (IH s1 a); rewrite ?Hsz1; done. }
    intros rs s2 _ ->; simpl. apply runs_ret. by rewrite Hsz1.
  - destruct Hok as (Hop & Hnew & Hok).
    apply runs_bind. eapply runs_mono; [by apply update_holds_public|].
    intros _ s1 _ (HH1 & Hsz1); simpl.
    eapply runs_mono; [apply (IH s1 (changed i j op a)); rewrite ?Hsz1; done|].
    intros rs s2 _ ->; simpl. by rewrite Hsz1.
Qed.

(** X13. The min/max tree, with its sums on 32 bits, answers
    range-minimum and range-maximum queries on an array of integers.  Let
    4 n + 1 fit an [int], the seed have at least [n] elements, and the first
    [n] elements of the array stay between [-INF] and [INF]: in the seed
    and after each of the sets and adds, which are on any intervals.  Then
    the constructor returns, and each [query] returns the least and the
    greatest of the elements of its interval (clipped to [[0, n - 1]]) in
    the array as the updates made so far leave it; on an empty interval it
    returns [(INF, -INF)]. *)
Theorem tree_answers_for_array fuel n arr cmds :
  1 <= n -> 4 * n + 1 <= INT_MAX ->
  n <= Z.of_nat (length arr) -> (height n <= fuel)%nat ->
  (forall k, 0 <= k < n -> - INF <= seed_array arr k <= INF) ->
  kept_in_range n (seed_array arr) cmds ->
  exists s log,
    construct (Update0:=Op32_update nop) fuel n arr = Done tt s log /\
    retval (run (Update0:=Op32_update nop) fuel cmds s)
      = Some (array_answers n (seed_array arr) cmds).
Proof.
  intros Hn Hcap Hlen Hf Hseed Hok.
  destruct (construct_holds fuel n arr Hn Hcap Hlen Hf Hseed) as (s & log & Hrun & Hsz & HH).
  exists s, log. split; [done|]. rewrite <- Hsz in *.
  destruct (runs_retval _ _ _ (run_array fuel cmds s _ Hn HH Hf Hok))
    as (rs & ? & ? & _ & -> & ->). done.
Qed.

End Tree.
End MinMaxArrayFacts.

(** ** What the program writes *)

Section MainPrints.
Import MinMax MinMaxArray MinMaxArrayFacts Program Program32.
Context (nop : Op).

Lemma seed_array_arr k : seed_array arr k = 0.
Proof.
  unfold seed_array, arr, at_. case_decide; [|done].
  destruct (replicate _ _ !! _) eqn:E; [|done].
  by apply lookup_replicate in E as [-> _].
Qed.

Lemma loop_expected fuel input : forall s a,
  size s = 100 -> Holds s 1 0 99 a -> (height 100 <= fuel)%nat ->
  stays_in_range a input ->
  runs (loop nop fuel input) s (fun os _ _ => os = expected a input).
Proof.
  induction input as [|[[[c st] en] arg] input IH]; intros s a Hsz HH Hf Hok.
  { by apply runs_ret. }
  cbn [loop expected turn]. cbn [stays_in_range] in Hok.
  assert (1 <= size s) as Hn by lia.
  assert (Holds s 1 0 (size s - 1) a) as HH' by (by rewrite Hsz).
  assert (height (size s) <= fuel)%nat as Hf' by (by rewrite Hsz).
  destruct (Ascii.eqb c "s" || Ascii.eqb c "a")%bool eqn:Eu.
  { assert (set_or_add (mkOp c arg)) as Hop.
    { apply orb_true_iff in Eu as [E|E]; apply Ascii.eqb_eq in E; [by left|by right]. }
    destruct Hok as [Hnew Hok].
    apply runs_bind, runs_bind. eapply runs_mono.
    { apply (update_holds_public nop fuel st en (mkOp c arg) s a); try done.
      by rewrite Hsz. }
    intros _ s1 _ (HH1 & Hsz1); simpl. apply runs_ret.
    apply runs_bind. eapply runs_mono.
    { apply (IH s1 (changed st en (mkOp c arg) a)); [congruence| |done|done].
      by rewrite Hsz in HH1. }
    intros os s2 _ ->; simpl. by apply runs_ret. }
  destruct (Ascii.eqb c "m") eqn:Em.
  { apply runs_bind, runs_bind. eapply runs_mono.
    { by apply (query_holds nop fuel st en s a). }
    intros r s1 _ (-> & HH1 & Hsz1); simpl. apply runs_ret.
    apply runs_bind. eapply runs_mono.
    { apply (IH s1 a); [congruence| |done|done]. by rewrite Hsz in HH1. }
    intros os s2 _ ->; simpl. apply runs_ret. by rewrite Hsz. }
  destruct (Ascii.eqb c "M") eqn:EM.
  { apply runs_bind, runs_bind. eapply runs_mono.
    { by apply (query_holds nop fuel st en s a). }
    intros r s1 _ (-> & HH1 & Hsz1); simpl. apply runs_ret.
    apply runs_bind. eapply runs_mono.
    { apply (IH s1 a); [congruence| |done|done]. by rewrite Hsz in HH1. }
    intros os s2 _ ->; simpl. apply runs_ret. by rewrite Hsz. }
  apply runs_bind, runs_ret.
  apply runs_bind. eapply runs_mono; [by apply (IH s a)|].
  intros os s2 _ ->; simpl. by apply runs_ret.
Qed.

(** X15. [main], with its sums on 32 bits, answers ['m'] and ['M']
    with the least and the greatest of the elements of the interval, in an
    array of 100 integers that starts as all zeros and that ['s'] and ['a']
    set and increase, provided that each ['s'] and each ['a'] of the input
    leaves the 100 elements between [-INF] and [INF]; on an empty interval
    it answers [INF] and [-INF]. *)
Theorem main_prints_extremes fuel input :
  (height 100 <= fuel)%nat -> stays_in_range (fun _ => 0) input ->
  retval (Program32.main nop fuel input)
  = Some (Prompt :: expected (fun _ => 0) input).
Proof.
  intros Hf Hok. unfold Program32.main.
  destruct (construct_holds nop fuel 100 arr) as (s0 & l0 & Hrun0 & Hsz0 & HH0);
    [lia|by vm_compute|by vm_compute|done| |].
  { intros k _. rewrite seed_array_arr. unfold INF. lia. }
  rewrite Hrun0.
  assert (Holds s0 1 0 99 (fun _ => 0)) as HH.
  { revert HH0. apply Holds_ext. intros k _. apply seed_array_arr. }
  destruct (runs_retval _ _ _ (loop_expected fuel input s0 _ Hsz0 HH Hf Hok))
    as (os & s & l & -> & _ & ->). done.
Qed.

End MainPrints.

(** ** The further properties at work *)

Module MoreWitnesses.
Import MinMax MinMaxTree MinMaxLaws.

Lemma construct_four :
  construct (Update0:=U) 3 4 [0; 0; 0; 0]
  = Done tt four (log_of (construct (Update0:=U) 3 4 [0; 0; 0; 0])).
Proof. reflexivity. Defined.

Lemma update_four_set :
  update (Update0:=U) 3 0 3 set5 four
  = Done tt four_set (log_of (update (Update0:=U) 3 0 3 set5 four)).
Proof. reflexivity. Defined.

Lemma in_use_four_set : in_use (Update0:=U) four_set.
Proof.
  eapply use_update; [|exact update_four_set].
  eapply use_construct; [|exact construct_four]. lia.
Defined.

Lemma position_four : position (size four_set) 4 0 0.
Proof.
  change (position 4 4 0 0).
  apply descends_left; [lia|lia|]. change (mid 0 (4 - 1)) with 1. change (left 1) with 2.
  apply descends_left; [lia|lia|]. change (mid 0 1) with 0. change (left 2) with 4.
  apply descends_here; lia.
Defined.

Lemma okO_set7 : okO (mkOp "s" 7).
Proof. split; [reflexivity|]. unfold INF; simpl; lia. Defined.

End MoreWitnesses.

Lemma construct_then_query_witness :
  exists s log, construct (Update0:=MinMaxTree.U) 3 4 [0; 0; 0; 0] = Done tt s log /\
    retval (query (Update0:=MinMaxTree.U) 3 1 2 s) = Some (range_agg (seed_value [0; 0; 0; 0]) 1 2) /\
    (forall k x, 1 <= k <= 2 -> at_ [0; 0; 0; 0] k = Some x ->
       retval (query (Update0:=MinMaxTree.U) 3 k k s) = Some (Node_leaf k x)).
Proof.
  apply (construct_then_query (MinMaxLaws.contract MinMaxTree.nop) 3 4 [0; 0; 0; 0] 1 2).
  - lia.
  - vm_compute. discriminate.
  - vm_compute. lia.
  - apply (MinMaxLaws.seed_ok_zeros 4).
  - lia.
  - lia.
  - lia.
Defined.

Lemma unseeded_tree_is_neutral_witness :
  exists s, SegTree_new (Update0:=MinMaxTree.U) 4 = Done tt s [] /\
    (forall i j, retval (query (Update0:=MinMaxTree.U) 3 i j s) = Some Node_new) /\
    (forall cmds, Forall (ok_command (okO:=MinMaxTree.okO)) cmds ->
       retval (run (Update0:=MinMaxTree.U) 3 cmds s)
       = Some (answers (Update0:=MinMaxTree.U) 4 (fun _ => Node_new) cmds)).
Proof.
  apply (unseeded_tree_is_neutral (MinMaxLaws.contract MinMaxTree.nop) 3 4).
  - lia.
  - vm_compute. discriminate.
  - vm_compute. lia.
Defined.

Lemma build_is_linear_witness :
  exists s log, construct (Update0:=MinMaxTree.U) 3 4 [0; 0; 0; 0] = Done tt s log /\
    Z.of_nat (calls log) = 2 * 4 - 1 /\
    Z.of_nat (length log) - Z.of_nat (calls log) = 4 * 4 - 3.
Proof.
  apply (build_is_linear (Update0:=MinMaxTree.U) 3 4 [0; 0; 0; 0]).
  - lia.
  - vm_compute. discriminate.
  - simpl. lia.
  - vm_compute. lia.
Defined.

Lemma applyPending_pushes_down_witness :
  exists s' log,
    applyPending (Update0:=MinMaxTree.U) 1 1 0 3 MinMaxTree.four_set = Done tt s' log /\
    at_ (hasPending s') 1 = Some false /\
    at_ (tree s') 2 = Some (MinMax.mkNode 5 5) /\
    at_ (tree s') 3 = Some (MinMax.mkNode 5 5) /\
    at_ (hasPending s') 2 = Some true /\
    at_ (pending s') 2 = Some MinMaxTree.set5.
Proof.
  destruct (applyPending_pushes_down (Update0:=MinMaxTree.U) 0 1 0 3 MinMaxTree.four_set
              true MinMaxTree.set5 (MinMax.mkNode 0 0) (MinMax.mkNode 0 0) false false
              MinMaxTree.nop MinMaxTree.nop)
    as (s' & log & Hrun & Hf & Hl & Hr & Hbl & _ & Hpl & _);
    [lia|lia|lia|reflexivity..|].
  exists s', log. split_and!; [exact Hrun|exact Hf|exact Hl|exact Hr|exact Hbl|exact Hpl].
Defined.

Lemma leaves_hold_no_pending_witness :
  at_ (hasPending MinMaxTree.four_set) 4 = Some false.
Proof.
  exact (leaves_hold_no_pending (Update0:=MinMaxTree.U) MinMaxTree.four_set 4 0
           MoreWitnesses.in_use_four_set MoreWitnesses.position_four).
Defined.

Lemma query_without_pending_witness :
  exists r log, query (Update0:=MinMaxTree.U) 3 1 2 MinMaxTree.four
                = Done r MinMaxTree.four log.
Proof.
  destruct (query_without_pending_changes_nothing (Update0:=MinMaxTree.U) 3) as [Hc Hq].
  apply Hq.
  - exact Witnesses.allocated_four.
  - exact (Hc 4 [0; 0; 0; 0] _ _ MoreWitnesses.construct_four).
  - exact Witnesses.height_four.
Defined.

Lemma merged_update_is_sequence_witness :
  exists rs,
    retval (run (Update0:=MinMaxTree.U) 3
              [Change 0 2 MinMaxTree.set5; Change 0 2 (MinMax.mkOp "s" 7); Query 1 3]
              MinMaxTree.four) = Some rs /\
    retval (run (Update0:=MinMaxTree.U) 3
              [Change 0 2 (MinMax.merge MinMaxTree.set5 (MinMax.mkOp "s" 7) 0 2); Query 1 3]
              MinMaxTree.four) = Some rs.
Proof.
  apply (merged_update_is_sequence (MinMaxLaws.contract MinMaxTree.nop) 3 MinMaxTree.four
           0 2 MinMaxTree.set5 (MinMax.mkOp "s" 7) [Query 1 3]).
  - exact MinMaxLaws.four_reachable.
  - exact Witnesses.okO_set5.
  - exact MoreWitnesses.okO_set7.
  - lia.
  - exact Witnesses.height_four.
  - repeat constructor.
Defined.

Lemma disjoint_updates_commute_witness :
  exists rs,
    retval (run (Update0:=MinMaxTree.U) 3
              [Change 0 1 MinMaxTree.set5; Change 2 3 (MinMax.mkOp "s" 7); Query 1 2]
              MinMaxTree.four) = Some rs /\
    retval (run (Update0:=MinMaxTree.U) 3
              [Change 2 3 (MinMax.mkOp "s" 7); Change 0 1 MinMaxTree.set5; Query 1 2]
              MinMaxTree.four) = Some rs.
Proof.
  apply (disjoint_updates_commute (MinMaxLaws.contract MinMaxTree.nop) 3 MinMaxTree.four
           0 1 MinMaxTree.set5 2 3 (MinMax.mkOp "s" 7) [Query 1 2]).
  - exact MinMaxLaws.four_reachable.
  - exact Witnesses.okO_set5.
  - exact MoreWitnesses.okO_set7.
  - left. lia.
  - exact Witnesses.height_four.
  - repeat constructor.
Defined.

Lemma partial_query_is_capped_witness :
  exists r s' log,
    query (Update0:=MinMax.Op_update MinMaxTree.nop) 3 0 0 MinMaxTree.four = Done r s' log /\
    MinMax.minVal r <= MinMax.INF /\ - MinMax.INF <= MinMax.maxVal r.
Proof.
  apply (partial_query_is_capped MinMaxTree.nop 3 MinMaxTree.four 0 0).
  - exact Witnesses.allocated_four.
  - exact Witnesses.height_four.
  - vm_compute. intros [_ H]. apply H. reflexivity.
Defined.

Lemma main_completes_witness :
  exists out s log,
    Program.main MinMaxTree.nop 8 [("s"%char, 0, 49, 5); ("m"%char, 0, 24, 0)]
    = Done out s log /\
    allocated s /\ size s = 100 /\ Program.prompts out = 3%nat.
Proof.
  apply (main_completes MinMaxTree.nop 8 [("s"%char, 0, 49, 5); ("m"%char, 0, 24, 0)]).
  vm_compute. lia.
Defined.

Lemma update_laws_witness :
  MinMax.apply32 MinMaxTree.add3 (MinMax.join (MinMax.mkNode 0 5) (MinMax.mkNode 2 9)) 0 1
  = MinMax.join (MinMax.apply32 MinMaxTree.add3 (MinMax.mkNode 0 5) 0 0)
                (MinMax.apply32 MinMaxTree.add3 (MinMax.mkNode 2 9) (0 + 1) 1).
Proof.
  apply (proj1 MinMaxOpLaws.update_laws MinMaxTree.add3
           (MinMax.mkNode 0 5) (MinMax.mkNode 2 9) 0 0 1).
  intros _. vm_compute. repeat split; discriminate.
Defined.

Lemma tree_answers_for_array_witness :
  exists s log,
    construct (Update0:=MinMax.Op32_update MinMaxTree.nop) 3 4 [0; 0; 0; 0] = Done tt s log /\
    retval (run (Update0:=MinMax.Op32_update MinMaxTree.nop) 3
              [Change 0 3 MinMaxTree.set5; Change 1 2 MinMaxTree.add3; Query 0 3] s)
    = Some (MinMaxArray.array_answers 4 (MinMaxArray.seed_array [0; 0; 0; 0])
              [Change 0 3 MinMaxTree.set5; Change 1 2 MinMaxTree.add3; Query 0 3]).
Proof.
  apply (MinMaxArrayFacts.tree_answers_for_array MinMaxTree.nop 3 4 [0; 0; 0; 0]).
  - lia.
  - vm_compute. discriminate.
  - simpl. lia.
  - vm_compute. lia.
  - intros k Hk. unfold MinMaxArray.seed_array, at_, MinMax.INF. simpl.
    case_decide; [|lia].
    destruct (Z.to_nat k) as [|[|[|[|?]]]]; simpl; lia.
  - simpl. unfold MinMaxArray.changed, MinMaxArray.act, MinMaxArray.seed_array, MinMax.INF.
    simpl.
    split; [left; reflexivity|]. split; [intros k Hk; repeat case_decide; lia|].
    split; [right; reflexivity|]. split; [intros k Hk; repeat case_decide; lia|exact I].
Defined.

Lemma main_prints_extremes_witness :
  retval (Program32.main MinMaxTree.nop 8
            [("s"%char, 0, 49, 5); ("a"%char, 25, 74, 3);
             ("m"%char, 25, 49, 0); ("M"%char, 50, 74, 0)])
  = Some (Program.Prompt ::
          Program32.expected (fun _ => 0)
            [("s"%char, 0, 49, 5); ("a"%char, 25, 74, 3);
             ("m"%char, 25, 49, 0); ("M"%char, 50, 74, 0)]).
Proof.
  apply (main_prints_extremes MinMaxTree.nop 8).
  - vm_compute. lia.
  - simpl. unfold MinMaxArray.changed, MinMaxArray.act, MinMax.INF. simpl.
    split; [|split; [|exact I]]; intros k Hk; repeat case_decide; lia.
Defined.
